(** * Faster R-CNN decision pipeline ([modeling_frcnn.py]): a shallow embedding

    The geometric and numeric core of the detector is embedded function by
    function.  Tensors of numbers that are only added, multiplied, divided and
    compared (IoU, matching qualities, scores) are lists over the rationals
    [Q]: every finite float is a rational, the operations are exact and the
    definitions evaluate.  The box transform and the anchor generator use
    [exp], [log] and [sqrt] and live over the reals [R]; there the values a
    tensor can hold beyond the reals (the infinities and NaN) are part of the
    element type, with the IEEE rules for them.  Rounding and overflow are
    not modelled. *)

From Stdlib Require Import List Bool Arith ZArith Lia.
From Stdlib Require Import QArith Qminmax Qround Reals Psatz.
From Stdlib Require Import Permutation Sorted.
Import ListNotations.

Set Implicit Arguments.

(** ** Python results *)

(** The exceptions the embedded functions can raise. *)
Inductive py_error : Type :=
| AssertionError
| IndexError
| TypeError
| RuntimeError
| ValueError
| ZeroDivisionError.

Inductive result (A : Type) : Type :=
| Ok (a : A)
| Raise (e : py_error).

Arguments Ok {A} a.
Arguments Raise {A} e.

Definition bind {A B : Type} (m : result A) (k : A -> result B) : result B :=
  match m with
  | Ok a => k a
  | Raise e => Raise e
  end.

Notation "x <- m ;; k" := (bind m (fun x => k))
  (at level 61, m at next level, right associativity).

Definition py_assert (b : bool) : result unit :=
  if b then Ok tt else Raise AssertionError.

Fixpoint mapM {A B : Type} (f : A -> result B) (l : list A)
  : result (list B) :=
  match l with
  | [] => Ok []
  | a :: t => b <- f a;; r <- mapM f t;; Ok (b :: r)
  end.

(** ** Tensors as lists *)

Module Tensor.

(** Elementwise combination of two equally long vectors (a torch binary
    operation without broadcasting). *)
Fixpoint map2 {A B C : Type} (f : A -> B -> C) (l : list A) (l' : list B)
  : list C :=
  match l, l' with
  | a :: t, b :: t' => f a b :: map2 f t t'
  | _, _ => []
  end.

(** A two-dimensional tensor: its rows, and its second dimension, which a
    tensor keeps also when it has no rows. *)
Record Tensor2 (A : Type) : Type :=
  mkTensor2 { ncols : nat; rows : list (list A) }.

Definition nrows {A : Type} (t : Tensor2 A) : nat := length (rows t).
Definition numel {A : Type} (t : Tensor2 A) : nat := nrows t * ncols t.

(** Every row has the declared number of columns. *)
Definition wf {A : Type} (t : Tensor2 A) : Prop :=
  Forall (fun r => length r = ncols t) (rows t).

(** [t[i, j]] of a tensor held as a list of rows. *)
Definition entry {A : Type} (m : list (list A)) (i j : nat) : option A :=
  match nth_error m i with
  | Some row => nth_error row j
  | None => None
  end.

(** [t.T] of a tensor with [ncols] columns (the column count is part of a
    tensor's shape and cannot be read off an empty list of rows). *)
Definition transpose (ncols : nat) (m : list (list Q)) : list (list Q) :=
  map (fun j => map (fun row => nth j row 0%Q) m) (seq 0 ncols).

(** [torch.nonzero] of a boolean vector: the indices that hold [true]. *)
Definition nonzero (mask : list bool) : list nat :=
  map fst (filter snd (combine (seq 0 (length mask)) mask)).

(** [t[idx]] for an index vector; the callers only index in range. *)
Definition index_select {A : Type} (d : A) (t : list A) (idx : list nat)
  : list A :=
  map (fun i => nth i t d) idx.

(** [t[mask]] for a boolean mask of the same length. *)
Definition masked_select {A : Type} (t : list A) (mask : list bool)
  : list A :=
  map fst (filter snd (combine t mask)).

(** [t[mask] = v] for a boolean mask of the same length. *)
Definition masked_fill {A : Type} (mask : list bool) (v : A) (t : list A)
  : list A :=
  map2 (fun (b : bool) old => if b then v else old) mask t.

(** [t[i] = v] for one index in range; out of range torch raises, the
    callers below never index out of range. *)
Fixpoint index_put {A : Type} (t : list A) (i : nat) (v : A) : list A :=
  match t, i with
  | [], _ => []
  | _ :: r, O => v :: r
  | x :: r, S i' => x :: index_put r i' v
  end.

(** Python's [l[:k]]: a negative [k] counts from the end. *)
Definition slice_to {A : Type} (l : list A) (k : Z) : list A :=
  if (0 <=? k)%Z then firstn (Z.to_nat k) l
  else firstn (length l - Z.to_nat (- k)) l.

End Tensor.

(** ** Comparisons on [Q] as the tensor code uses them *)

Definition Qltb (a b : Q) : bool := negb (Qle_bool b a).

(** ** Box utilities: intersection, IoU *)

Module BoxOps.

(** One row of an (N, 4) box tensor, in (xmin, ymin, xmax, ymax) order. *)
Record Box : Type := mkBox { bx1 : Q; by1 : Q; bx2 : Q; by2 : Q }.

Definition width (b : Box) : Q := bx2 b - bx1 b.
Definition height (b : Box) : Q := by2 b - by1 b.

(** Modelled from the spec: the [Boxes] class and its [area()] are not in
    the sources; the area of a box is its width times its height. *)
Definition area (b : Box) : Q := width b * height b.

(** [t.clamp_(min=0)] on one element. *)
Definition clamp_min0 (q : Q) : Q := Qmax q 0.

(** One entry of [pairwise_intersection]: [min] of the maxima minus [max]
    of the minima per axis, clamped at 0, then the product over the axis. *)
Definition intersection (a b : Box) : Q :=
  clamp_min0 (Qmin (bx2 a) (bx2 b) - Qmax (bx1 a) (bx1 b))
  * clamp_min0 (Qmin (by2 a) (by2 b) - Qmax (by1 a) (by1 b)).

Definition pairwise_intersection (boxes1 boxes2 : list Box)
  : list (list Q) :=
  map (fun a => map (fun b => intersection a b) boxes2) boxes1.

(** [pairwise_iou]: the areas, the intersections, and [torch.where] on
    [inter > 0]. *)
Definition pairwise_iou (boxes1 boxes2 : list Box) : list (list Q) :=
  let area1 := map area boxes1 in
  let area2 := map area boxes2 in
  let inter := pairwise_intersection boxes1 boxes2 in
  Tensor.map2
    (fun a1 inter_row =>
       Tensor.map2
         (fun a2 i => if Qltb 0 i then i / (a1 + a2 - i) else 0)
         area2 inter_row)
    area1 inter.

(** The entry of [pairwise_iou] for one pair of boxes. *)
Definition iou (a b : Box) : Q :=
  if Qltb 0 (intersection a b)
  then intersection a b / (area a + area b - intersection a b)
  else 0.

(** [t.clamp_(min=lo, max=hi)] on one element. *)
Definition clamp (q lo hi : Q) : Q := Qmin (Qmax q lo) hi.

(** [_clip_box]: the x coordinates are clamped to [0, width] and the y
    coordinates to [0, height]; [box_size] is (height, width).  The
    assertion that the tensor is finite always holds for rationals. *)
Definition _clip_box (b : Box) (box_size : Q * Q) : Box :=
  let (h, w) := box_size in
  {| bx1 := clamp (bx1 b) 0 w; by1 := clamp (by1 b) 0 h;
     bx2 := clamp (bx2 b) 0 w; by2 := clamp (by2 b) 0 h |}.

(** [_nonempty_boxes]: both sides strictly larger than the threshold. *)
Definition _nonempty_boxes (b : Box) (threshold : Q) : bool :=
  Qltb threshold (width b) && Qltb threshold (height b).

Definition zero_box : Box := mkBox 0 0 0 0.

(** [t.argsort(descending=True)]: the indices by descending value; equal
    values keep their index order. *)
Fixpoint insert_desc (key : nat -> Q) (i : nat) (l : list nat) : list nat :=
  match l with
  | [] => [i]
  | j :: t =>
      if Qltb (key i) (key j) then j :: insert_desc key i t
      else i :: j :: t
  end.

Definition argsort_desc (scores : list Q) : list nat :=
  fold_right (insert_desc (fun i => nth i scores 0)) []
             (seq 0 (length scores)).

(** Modelled from the spec: [torchvision.ops.nms] is a library function.
    Boxes are visited in descending score order (ties by index); a box is
    suppressed if its IoU with a box kept before exceeds the threshold. *)
Definition nms (boxes : list Box) (scores : list Q) (iou_threshold : Q)
  : list nat :=
  fold_left
    (fun keep i =>
       if existsb
            (fun j => Qltb iou_threshold
                           (iou (nth j boxes zero_box) (nth i boxes zero_box)))
            keep
       then keep else keep ++ [i])
    (argsort_desc scores) [].

(** The loop of [batched_nms]: NMS inside each group of [idxs], the kept
    indices marked in [result_mask], then read back and ordered by
    descending score.  ([torch.unique] also sorts the group ids; the marks
    do not depend on the order of the groups.) *)
Definition nms_per_group (boxes : list Box) (scores : list Q)
           (idxs : list nat) (iou_threshold : Q) : list nat :=
  let result_mask :=
    fold_left
      (fun result_mask i =>
         let mask := Tensor.nonzero (map (Nat.eqb i) idxs) in
         let keep := nms (Tensor.index_select zero_box boxes mask)
                         (Tensor.index_select 0 scores mask)
                         iou_threshold in
         fold_left (fun rm k => Tensor.index_put rm k true)
                   (Tensor.index_select O mask keep) result_mask)
      (nodup Nat.eq_dec idxs)
      (repeat false (length scores)) in
  let keep := Tensor.nonzero result_mask in
  Tensor.index_select O keep
    (argsort_desc (Tensor.index_select 0 scores keep)).

(** Modelled from the spec: [torchvision.ops.boxes.batched_nms] is a
    library function; it performs NMS independently per group id and
    returns the kept indices sorted by descending score. *)
Definition box_ops_batched_nms := nms_per_group.

(** [batched_nms]: the library call below 40000 boxes, the loop above
    from there on. *)
Definition batched_nms (boxes : list Box) (scores : list Q)
           (idxs : list nat) (iou_threshold : Q) : list nat :=
  if (Z.of_nat (length boxes) <? 40000)%Z
  then box_ops_batched_nms boxes scores idxs iou_threshold
  else nms_per_group boxes scores idxs iou_threshold.

(** [pairwise_ioa]: the intersections over the areas of [boxes2], with
    the same [torch.where] on [inter > 0] as [pairwise_iou]. *)
Definition pairwise_ioa (boxes1 boxes2 : list Box) : list (list Q) :=
  let area2 := map area boxes2 in
  let inter := pairwise_intersection boxes1 boxes2 in
  map (fun inter_row =>
         Tensor.map2 (fun a2 i => if Qltb 0 i then i / a2 else 0)
                     area2 inter_row)
      inter.

(** *** Vocabulary of the statements and proofs about this module *)


(** One step of [nms]: index [i] is kept unless a box kept before it
    overlaps its box by more than the threshold. *)
Definition nms_step (boxes : list Box) (iou_threshold : Q)
           (keep : list nat) (i : nat) : list nat :=
  if existsb
       (fun j => Qltb iou_threshold
                      (iou (nth j boxes zero_box) (nth i boxes zero_box)))
       keep
  then keep else keep ++ [i].

(** The indices the loop of [batched_nms] marks for the group [g]. *)
Definition group_marks (boxes : list Box) (scores : list Q)
           (idxs : list nat) (iou_threshold : Q) (g : nat) : list nat :=
  let mask := Tensor.nonzero (map (Nat.eqb g) idxs) in
  Tensor.index_select O mask
    (nms (Tensor.index_select zero_box boxes mask)
         (Tensor.index_select 0 scores mask) iou_threshold).

(** The entry of [pairwise_ioa] for one pair of boxes. *)
Definition ioa (a b : Box) : Q :=
  if Qltb 0 (intersection a b) then intersection a b / area b else 0.

(** Two boxes with equal coordinates, as rationals. *)
Definition box_eq (a b : Box) : Prop :=
  bx1 a == bx1 b /\ by1 a == by1 b /\ bx2 a == bx2 b /\ by2 a == by2 b.

(** The second corner of the box is not before the first. *)
Definition ordered (b : Box) : Prop := bx1 b <= bx2 b /\ by1 b <= by2 b.

(** The box lies in the image of size [box_size] = (height, width). *)
Definition inside_image (b : Box) (box_size : Q * Q) : Prop :=
  let (h, w) := box_size in
  (0 <= bx1 b <= w /\ 0 <= bx2 b <= w)
  /\ (0 <= by1 b <= h /\ 0 <= by2 b <= h).

(** Box [b] lies in box [a]. *)
Definition contains (a b : Box) : Prop :=
  (bx1 a <= bx1 b /\ bx2 b <= bx2 a) /\ (by1 a <= by1 b /\ by2 b <= by2 a).

End BoxOps.

(** ** Final per-image detection filtering *)

Module Inference.
Import Tensor BoxOps.

(** What [fast_rcnn_inference_single_image] returns: the [res] dictionary
    (without the image size, which is passed through) and the indices of
    the originating predictions, [filter_inds[:, 0]]. *)
Record Detections : Type := mkDetections {
  pred_boxes : list Box;
  pred_scores : list Q;
  pred_classes : list nat;
  kept_indices : list nat
}.

(** [mask.nonzero()] of an (R, K) boolean tensor: the (row, column) pairs
    that hold [true], in row-major order. *)
Definition nonzero2 (mask : list (list bool)) : list (nat * nat) :=
  concat (map (fun '(r, row) => map (fun k => (r, k)) (nonzero row))
              (combine (seq 0 (length mask)) mask)).

(** [t[mask]] for an (R, K) mask on a tensor whose first two dimensions
    are (R, K): the selected entries in row-major order. *)
Definition masked_select2 {A : Type} (t : list (list A))
           (mask : list (list bool)) : list A :=
  concat (map2 (fun row mrow => masked_select row mrow) t mask).

(** Lines 502-518: the background column is dropped, the boxes are
    clipped, and the (prediction, class) pairs above the threshold are
    selected.  [boxes] is the (R, C, 4) view, one [Box] per (row, class).
    [Boxes.clip] is not in the sources and is taken to be [_clip_box].
    Indexing the boxes with a mask of another shape raises. *)
Definition filter_by_score (boxes : Tensor2 Box) (scores : Tensor2 Q)
           (image_shape : Q * Q) (score_thresh : Q)
  : result (list Box * list Q * list (nat * nat)) :=
  let scores := mkTensor2 (ncols scores - 1) (map (@removelast Q) (rows scores)) in
  let num_bbox_reg_classes := (4 * ncols boxes / 4)%nat in
  let boxes :=
    mkTensor2 (ncols boxes)
              (map (map (fun b => _clip_box b image_shape)) (rows boxes)) in
  let filter_mask := map (map (fun s => Qltb score_thresh s)) (rows scores) in
  let filter_inds := nonzero2 filter_mask in
  boxes' <-
    (if (num_bbox_reg_classes =? 1)%nat
     then mapM (fun rk : nat * nat =>
                  match entry (rows boxes) (fst rk) 0 with
                  | Some b => Ok b
                  | None => Raise IndexError
                  end) filter_inds
     else if (nrows boxes =? nrows scores)%nat
               && (ncols boxes =? ncols scores)%nat
          then Ok (masked_select2 (rows boxes) filter_mask)
          else Raise IndexError);;
  let scores' := masked_select2 (rows scores) filter_mask in
  Ok (boxes', scores', filter_inds).

(** Lines 520-532: per-class NMS, the top-k cut and the gathering of the
    kept entries. *)
Definition fast_rcnn_inference_single_image
           (boxes : Tensor2 Box) (scores : Tensor2 Q)
           (image_shape : Q * Q) (score_thresh nms_thresh : Q)
           (topk_per_image : Z) : result Detections :=
  f <- filter_by_score boxes scores image_shape score_thresh;;
  let '(boxes, scores, filter_inds) := f in
  let keep := batched_nms boxes scores (map snd filter_inds) nms_thresh in
  let keep :=
    if (0 <=? topk_per_image)%Z then slice_to keep topk_per_image
    else keep in
  let filter_inds := index_select (O, O) filter_inds keep in
  Ok {| pred_boxes := index_select zero_box boxes keep;
        pred_scores := index_select 0 scores keep;
        pred_classes := map snd filter_inds;
        kept_indices := map fst filter_inds |}.

(** *** Vocabulary of the statements and proofs about this module *)




(** Two predictions, three classes and the background column; the first
    prediction has class-2 score 0.9 and class-0 score 0.3. *)
Definition demo_boxes : Tensor2 Box :=
  mkTensor2 3 [[mkBox 0 0 10 10; mkBox 0 0 10 10; mkBox 1 1 12 12];
               [mkBox 5 5 20 20; mkBox 5 5 20 20; mkBox 5 5 20 20]].

Definition demo_scores : Tensor2 Q :=
  mkTensor2 4 [[3 # 10; 1 # 10; 9 # 10; 1 # 20];
               [1 # 10; 2 # 10; 1 # 10; 6 # 10]].

End Inference.

(** ** Matcher *)

Module Matcher.
Import Tensor.

(** An element of the threshold list: a float, or one of the two
    infinities the constructor adds. *)
Inductive bound : Type :=
| NegInf
| Finite (q : Q)
| PosInf.

Definition bound_leb (a b : bound) : bool :=
  match a, b with
  | NegInf, _ => true
  | _, PosInf => true
  | Finite x, Finite y => Qle_bool x y
  | _, _ => false
  end.

(** [v >= b] and [v < b] for a quality [v] and a threshold [b]. *)
Definition geb_bound (v : Q) (b : bound) : bool :=
  match b with
  | NegInf => true
  | Finite q => Qle_bool q v
  | PosInf => false
  end.

Definition ltb_bound (v : Q) (b : bound) : bool :=
  match b with
  | NegInf => false
  | Finite q => Qltb v q
  | PosInf => true
  end.

Record t : Type := mkMatcher {
  thresholds : list bound;
  labels : list Z;
  allow_low_quality_matches : bool
}.

(** [Matcher.__init__]: [thresholds[0]] of an empty list raises; the
    three assertions follow. *)
Definition init (thresholds : list Q) (labels : list Z)
           (allow_low_quality_matches : bool) : result t :=
  match thresholds with
  | [] => Raise IndexError
  | t0 :: _ =>
      _ <- py_assert (Qltb 0 t0);;
      let thresholds := NegInf :: map Finite thresholds ++ [PosInf] in
      _ <- py_assert
             (forallb (fun lh => bound_leb (fst lh) (snd lh))
                      (combine (removelast thresholds) (tl thresholds)));;
      _ <- py_assert
             (forallb (fun l => existsb (Z.eqb l) [-1; 0; 1]%Z) labels);;
      _ <- py_assert (length labels =? length thresholds - 1)%nat;;
      Ok (mkMatcher thresholds labels allow_low_quality_matches)
  end.

(** [t.max()] of a non-empty vector: the maximum and the index of its
    first occurrence. *)
Fixpoint max_from (best : Q) (best_i i : nat) (l : list Q) : Q * nat :=
  match l with
  | [] => (best, best_i)
  | x :: r =>
      if Qltb best x then max_from x i (S i) r
      else max_from best best_i (S i) r
  end.

Definition vec_max (l : list Q) : Q * nat :=
  match l with
  | [] => (0, O)
  | x :: r => max_from x 0 1 r
  end.

Definition column (j : nat) (m : list (list Q)) : list Q :=
  map (fun row => nth j row 0) m.

(** [m.max(dim=0)]: per column, over the rows. *)
Definition max_dim0 (m : Tensor2 Q) : list Q * list nat :=
  List.split
    (map (fun j => vec_max (column j (rows m))) (seq 0 (ncols m))).

(** [m.max(dim=1)]: per row, the values only. *)
Definition max_dim1 (m : Tensor2 Q) : list Q :=
  map (fun row => fst (vec_max row)) (rows m).

(** [set_low_quality_matches_]: the predictions that reach the maximum of
    some ground-truth row are labelled 1.  (The branch on
    [of_quality_inds.dim() == 0] is dead for a two-dimensional tensor.) *)
Definition set_low_quality_matches_ (match_labels : list Z)
           (match_quality_matrix : Tensor2 Q) : list Z :=
  let highest_quality_foreach_gt := max_dim1 match_quality_matrix in
  let of_quality_inds :=
    map2 (fun row h => map (fun v => Qeq_bool v h) row)
         (rows match_quality_matrix) highest_quality_foreach_gt in
  let pred_inds_with_highest_quality :=
    concat (map nonzero of_quality_inds) in
  fold_left (fun ml j => index_put ml j 1%Z)
            pred_inds_with_highest_quality match_labels.

(** [Matcher.__call__]. *)
Definition call (self : t) (match_quality_matrix : Tensor2 Q)
  : result (list nat * list Z) :=
  if (numel match_quality_matrix =? 0)%nat then
    match nth_error (labels self) 0 with
    | Some l0 =>
        Ok (repeat O (ncols match_quality_matrix),
            repeat l0 (ncols match_quality_matrix))
    | None => Raise IndexError
    end
  else
    _ <- py_assert (forallb (forallb (Qle_bool 0))
                            (rows match_quality_matrix));;
    let (matched_vals, matches) := max_dim0 match_quality_matrix in
    let match_labels := repeat 1%Z (length matches) in
    let match_labels :=
      fold_left
        (fun match_labels (band : Z * (bound * bound)) =>
           let '(l, (low, high)) := band in
           let low_high :=
             map (fun v => geb_bound v low && ltb_bound v high)
                 matched_vals in
           masked_fill low_high l match_labels)
        (combine (labels self)
                 (combine (removelast (thresholds self))
                          (tl (thresholds self))))
        match_labels in
    let match_labels :=
      if allow_low_quality_matches self
      then set_low_quality_matches_ match_labels match_quality_matrix
      else match_labels in
    Ok (matches, match_labels).

(** *** Vocabulary of the statements and proofs about this module *)

(** The quality [v] lies in the band [low, high). *)
Definition in_band (v : Q) (lh : bound * bound) : bool :=
  geb_bound v (fst lh) && ltb_bound v (snd lh).

(** The label one prediction of best quality [v] ends with, from label
    [l0], after the bands were visited in order. *)
Definition label_of (bands : list (Z * (bound * bound))) (v : Q) (l0 : Z)
  : Z :=
  fold_left (fun acc band => if in_band v (snd band) then fst band else acc)
            bands l0.

(** The body of the stratification loop of [call], for one band. *)
Definition band_step (matched_vals : list Q) (match_labels : list Z)
           (band : Z * (bound * bound)) : list Z :=
  let '(l, (low, high)) := band in
  masked_fill
    (map (fun v => geb_bound v low && ltb_bound v high) matched_vals)
    l match_labels.

(** The last line of [set_low_quality_matches_]: label 1 at the indices
    [inds]. *)
Definition rescue (ml : list Z) (inds : list nat) : list Z :=
  fold_left (fun ml j => index_put ml j 1%Z) inds ml.

(** Prediction [j] reaches the maximum of the ground-truth row [row]. *)
Definition row_max_at (row : list Q) (j : nat) : Prop :=
  forall j', (j' < length row)%nat -> nth j' row 0 <= nth j row 0.

(** The bands of a matcher: each label with its two neighbouring
    thresholds, as the loop of [call] zips them. *)
Definition bands (self : t) : list (Z * (bound * bound)) :=
  combine (labels self)
          (combine (removelast (thresholds self)) (tl (thresholds self))).

(** The labels the stratification loop of [call] leaves for the best
    qualities [matched_vals]. *)
Definition stratify (self : t) (matched_vals : list Q) : list Z :=
  map (fun v => label_of (bands self) v 1%Z) matched_vals.

(** The predictions [set_low_quality_matches_] writes to. *)
Definition highest_quality_inds (q : Tensor2 Q) : list nat :=
  concat
    (map nonzero
         (map (fun row => map (fun v => Qeq_bool v (fst (vec_max row))) row)
              (rows q))).

(** [v] is the largest quality of column [j]. *)
Definition column_max (q : Tensor2 Q) (j : nat) (v : Q) : Prop :=
  (exists i, entry (rows q) i j = Some v)
  /\ forall i v', entry (rows q) i j = Some v' -> v' <= v.

(** The threshold list is non-decreasing. *)
Definition nondecreasing (ths : list Q) : Prop := Sorted Qle ths.

(** [a <= b] on thresholds, as a proposition. *)
Definition leb_bound_rel (a b : bound) : Prop := bound_leb a b = true.

(** The four things the constructor insists on, for a non-empty
    threshold list. *)
Definition well_configured (ths : list Q) (lbls : list Z) : Prop :=
  0 < hd 0 ths
  /\ nondecreasing ths
  /\ Forall (fun l => l = (-1)%Z \/ l = 0%Z \/ l = 1%Z) lbls
  /\ length lbls = S (length ths).

End Matcher.

(** ** Label subsampling *)

Module Sampling.
Import Tensor.

(** Python's [int()] of a float: truncation towards zero. *)
Definition py_int (q : Q) : Z := Z.quot (Qnum q) (Zpos (Qden q)).

Section WithRandperm.
(** [torch.randperm] draws from the generator; the generator state is
    threaded through the two calls. *)
Variable rng : Type.
Variable randperm : rng -> nat -> list nat * rng.

Definition subsample_labels (g : rng) (labels : list Z)
           (num_samples : Z) (positive_fraction : Q) (bg_label : Z)
  : list nat * list nat * rng :=
  let positive :=
    nonzero (map (fun l => negb (l =? -1)%Z && negb (l =? bg_label)%Z)
                 labels) in
  let negative := nonzero (map (fun l => (l =? bg_label)%Z) labels) in
  let num_pos := py_int (inject_Z num_samples * positive_fraction) in
  let num_pos := Z.min (Z.of_nat (length positive)) num_pos in
  let num_neg := (num_samples - num_pos)%Z in
  let num_neg := Z.min (Z.of_nat (length negative)) num_neg in
  let (p1, g1) := randperm g (length positive) in
  let perm1 := slice_to p1 num_pos in
  let (p2, g2) := randperm g1 (length negative) in
  let perm2 := slice_to p2 num_neg in
  let pos_idx := index_select O positive perm1 in
  let neg_idx := index_select O negative perm2 in
  (pos_idx, neg_idx, g2).



(** [ROIHeads._sample_proposals]: the class of each proposal (background
    is [num_classes], ignored is -1), then the subsampling with
    [num_classes] as the background label.  Indexing [gt_classes] out of
    range, or with a mask of another length, raises. *)
Definition _sample_proposals (num_classes batch_size_per_image : Z)
           (positive_sample_fraction : Q) (g : rng)
           (matched_idxs : list nat) (matched_labels gt_classes : list Z)
  : result (list nat * list Z * rng) :=
  let has_gt := (0 <? length gt_classes)%nat in
  gt_classes <-
    (if has_gt then
       gt_classes <-
         mapM (fun i => match nth_error gt_classes i with
                        | Some c => Ok c
                        | None => Raise IndexError
                        end) matched_idxs;;
       if (length matched_labels =? length gt_classes)%nat then
         let gt_classes :=
           masked_fill (map (fun l => (l =? 0)%Z) matched_labels)
                       num_classes gt_classes in
         let gt_classes :=
           masked_fill (map (fun l => (l =? -1)%Z) matched_labels)
                       (-1)%Z gt_classes in
         Ok gt_classes
       else Raise IndexError
     else Ok (map (fun _ => (0 + num_classes)%Z) matched_idxs));;
  let '(sampled_fg_idxs, sampled_bg_idxs, g') :=
    subsample_labels g gt_classes batch_size_per_image
                     positive_sample_fraction num_classes in
  let sampled_idxs := sampled_fg_idxs ++ sampled_bg_idxs in
  Ok (sampled_idxs, index_select 0%Z gt_classes sampled_idxs, g').
End WithRandperm.

(** *** Vocabulary of the statements and proofs about this module *)

(** The labels [subsample_labels] counts as positive and as negative. *)
Definition is_positive (bg_label l : Z) : bool :=
  negb (l =? -1)%Z && negb (l =? bg_label)%Z.

Definition is_negative (bg_label l : Z) : bool := (l =? bg_label)%Z.


(** The generator that returns the index range reversed. *)
Definition reversing_randperm (g : unit) (n : nat) : list nat * unit :=
  (rev (seq 0 n), g).

End Sampling.

(** ** Tensor elements beyond the reals *)

Module XReal.
Local Open Scope R_scope.

(** A float as the box transform sees it: a real, an infinity or NaN.
    Zero carries no sign: a zero divisor counts as [+0], which is what the
    subtraction of equal coordinates and the literal [0.0] give. *)
Inductive xreal : Type :=
| Fin (r : R)
| PInf
| NInf
| NaN.

(** [r * inf] for a real [r]. *)
Definition inf_of_sign (r : R) : xreal :=
  if Rlt_dec 0 r then PInf else if Rlt_dec r 0 then NInf else NaN.

Definition xneg (x : xreal) : xreal :=
  match x with
  | Fin r => Fin (- r)
  | PInf => NInf
  | NInf => PInf
  | NaN => NaN
  end.

Definition xadd (x y : xreal) : xreal :=
  match x, y with
  | NaN, _ | _, NaN => NaN
  | Fin a, Fin b => Fin (a + b)
  | PInf, NInf | NInf, PInf => NaN
  | PInf, _ | _, PInf => PInf
  | NInf, _ | _, NInf => NInf
  end.

Definition xsub (x y : xreal) : xreal := xadd x (xneg y).

Definition xmul (x y : xreal) : xreal :=
  match x, y with
  | NaN, _ | _, NaN => NaN
  | Fin a, Fin b => Fin (a * b)
  | Fin a, PInf | PInf, Fin a => inf_of_sign a
  | Fin a, NInf | NInf, Fin a => xneg (inf_of_sign a)
  | PInf, PInf | NInf, NInf => PInf
  | PInf, NInf | NInf, PInf => NInf
  end.

Definition xdiv (x y : xreal) : xreal :=
  match x, y with
  | NaN, _ | _, NaN => NaN
  | Fin a, Fin b => if Req_dec_T b 0 then inf_of_sign a else Fin (a / b)
  | Fin _, (PInf | NInf) => Fin 0
  | PInf, Fin b => if Rlt_dec b 0 then NInf else PInf
  | NInf, Fin b => if Rlt_dec b 0 then PInf else NInf
  | (PInf | NInf), (PInf | NInf) => NaN
  end.

(** [torch.log]. *)
Definition xlog (x : xreal) : xreal :=
  match x with
  | Fin a =>
      if Rlt_dec 0 a then Fin (ln a)
      else if Req_dec_T a 0 then NInf else NaN
  | PInf => PInf
  | NInf | NaN => NaN
  end.

(** [torch.exp]. *)
Definition xexp (x : xreal) : xreal :=
  match x with
  | Fin a => Fin (exp a)
  | PInf => PInf
  | NInf => Fin 0
  | NaN => NaN
  end.

(** [torch.clamp(x, max=m)]; NaN stays NaN. *)
Definition xclamp_max (x : xreal) (m : R) : xreal :=
  match x with
  | Fin a => Fin (Rmin a m)
  | PInf => Fin m
  | NInf => NInf
  | NaN => NaN
  end.

(** [x > 0] as a tensor comparison. *)
Definition xgtb0 (x : xreal) : bool :=
  match x with
  | Fin a => if Rlt_dec 0 a then true else false
  | PInf => true
  | NInf | NaN => false
  end.

(** [x <= y]; false as soon as NaN is involved. *)
Definition xle (x y : xreal) : Prop :=
  match x, y with
  | NaN, _ | _, NaN => False
  | Fin a, Fin b => a <= b
  | NInf, _ | _, PInf => True
  | _, _ => False
  end.

End XReal.

(** ** Box2BoxTransform *)

Module Box2BoxTransform.
Import XReal.
Local Open Scope R_scope.

(** A row of a box tensor and a (dx, dy, dw, dh) group of a delta
    tensor. *)
Record XBox : Type :=
  mkXBox { x1 : xreal; y1 : xreal; x2 : xreal; y2 : xreal }.
Record Delta : Type :=
  mkDelta { dx : xreal; dy : xreal; dw : xreal; dh : xreal }.

Record t : Type := mkTransform {
  weights : R * R * R * R;
  scale_clamp : R
}.

(** [Box2BoxTransform.__init__]: the clamp defaults to [log(1000 / 16)]. *)
Definition init (weights : R * R * R * R) (scale_clamp : option R) : t :=
  mkTransform weights
    (match scale_clamp with
     | Some c => c
     | None => ln (1000 / 16)
     end).

(** [get_deltas] on one (source, target) pair of rows. *)
Definition get_deltas_row (self : t) (src tgt : XBox) : Delta :=
  let src_widths := xsub (x2 src) (x1 src) in
  let src_heights := xsub (y2 src) (y1 src) in
  let src_ctr_x := xadd (x1 src) (xmul (Fin (1 / 2)) src_widths) in
  let src_ctr_y := xadd (y1 src) (xmul (Fin (1 / 2)) src_heights) in
  let target_widths := xsub (x2 tgt) (x1 tgt) in
  let target_heights := xsub (y2 tgt) (y1 tgt) in
  let target_ctr_x := xadd (x1 tgt) (xmul (Fin (1 / 2)) target_widths) in
  let target_ctr_y := xadd (y1 tgt) (xmul (Fin (1 / 2)) target_heights) in
  let '(wx, wy, ww, wh) := weights self in
  {| dx := xdiv (xmul (Fin wx) (xsub target_ctr_x src_ctr_x)) src_widths;
     dy := xdiv (xmul (Fin wy) (xsub target_ctr_y src_ctr_y)) src_heights;
     dw := xmul (Fin ww) (xlog (xdiv target_widths src_widths));
     dh := xmul (Fin wh) (xlog (xdiv target_heights src_heights)) |}.

(** [get_deltas]: the deltas of all rows, then the assertion, which looks
    at the source widths.  Tensors of different lengths do not combine
    (broadcasting a single row is not modelled). *)
Definition get_deltas (self : t) (src_boxes target_boxes : list XBox)
  : result (list Delta) :=
  if negb (length src_boxes =? length target_boxes)%nat
  then Raise RuntimeError
  else
    let src_widths := map (fun b => xsub (x2 b) (x1 b)) src_boxes in
    let deltas :=
      Tensor.map2 (get_deltas_row self) src_boxes target_boxes in
    _ <- py_assert (forallb xgtb0 src_widths);;
    Ok deltas.

(** [apply_deltas] on one row: a box and its k groups of deltas; the k
    predicted boxes come out in the order of the groups. *)
Definition apply_deltas_row (self : t) (deltas : list Delta) (box : XBox)
  : list XBox :=
  let widths := xsub (x2 box) (x1 box) in
  let heights := xsub (y2 box) (y1 box) in
  let ctr_x := xadd (x1 box) (xmul (Fin (1 / 2)) widths) in
  let ctr_y := xadd (y1 box) (xmul (Fin (1 / 2)) heights) in
  let '(wx, wy, ww, wh) := weights self in
  map (fun d =>
         let dx := xdiv (dx d) (Fin wx) in
         let dy := xdiv (dy d) (Fin wy) in
         let dw := xdiv (dw d) (Fin ww) in
         let dh := xdiv (dh d) (Fin wh) in
         let dw := xclamp_max dw (scale_clamp self) in
         let dh := xclamp_max dh (scale_clamp self) in
         let pred_ctr_x := xadd (xmul dx widths) ctr_x in
         let pred_ctr_y := xadd (xmul dy heights) ctr_y in
         let pred_w := xmul (xexp dw) widths in
         let pred_h := xmul (xexp dh) heights in
         {| x1 := xsub pred_ctr_x (xmul (Fin (1 / 2)) pred_w);
            y1 := xsub pred_ctr_y (xmul (Fin (1 / 2)) pred_h);
            x2 := xadd pred_ctr_x (xmul (Fin (1 / 2)) pred_w);
            y2 := xadd pred_ctr_y (xmul (Fin (1 / 2)) pred_h) |})
      deltas.

Definition apply_deltas (self : t) (deltas : list (list Delta))
           (boxes : list XBox) : result (list (list XBox)) :=
  if negb (length deltas =? length boxes)%nat
  then Raise RuntimeError
  else Ok (Tensor.map2 (apply_deltas_row self) deltas boxes).

(** Boxes and deltas all of whose entries are real numbers. *)
Definition fin_box (a b c d : R) : XBox := mkXBox (Fin a) (Fin b) (Fin c) (Fin d).
Definition fin_delta (a b c d : R) : Delta := mkDelta (Fin a) (Fin b) (Fin c) (Fin d).

(** *** Vocabulary of the statements and proofs about this module *)

(** A box (x1, y1, x2, y2) and a delta group of real numbers. *)
Definition rbox : Type := (R * R * R * R)%type.

Definition box_of (b : rbox) : XBox :=
  let '(a, b, c, d) := b in fin_box a b c d.

Definition delta_of (d : rbox) : Delta :=
  let '(a, b, c, d) := d in fin_delta a b c d.

Definition rwidth (b : rbox) : R := let '(a, _, c, _) := b in c - a.

Definition rheight (b : rbox) : R := let '(_, b, _, d) := b in d - b.

(** The four weights of the transform differ from 0. *)
Definition weights_nonzero (self : t) : Prop :=
  let '(wx, wy, ww, wh) := weights self in
  wx <> 0 /\ wy <> 0 /\ ww <> 0 /\ wh <> 0.

(** A box whose second corner is not before its first. *)
Definition valid_box (b : XBox) : Prop :=
  xle (x1 b) (x2 b) /\ xle (y1 b) (y2 b).

(** The scale deltas of [d], divided by their weights as [apply_deltas]
    does, do not exceed the clamp. *)
Definition unsaturated (self : t) (d : Delta) : Prop :=
  let '(_, _, ww, wh) := weights self in
  xle (xdiv (dw d) (Fin ww)) (Fin (scale_clamp self))
  /\ xle (xdiv (dh d) (Fin wh)) (Fin (scale_clamp self)).

(** The transform with unit weights and the default clamp. *)
Definition unit_transform : t := init (1, 1, 1, 1) None.

(** The width and the height of a row of a box tensor. *)
Definition xwidth (b : XBox) : xreal := xsub (x2 b) (x1 b).
Definition xheight (b : XBox) : xreal := xsub (y2 b) (y1 b).

(** The deltas that are all 0. *)
Definition zero_delta : Delta := fin_delta 0 0 0 0.

(** The box scaled by [s] and moved by ([tx], [ty]). *)
Definition affine (s tx ty : R) (b : rbox) : rbox :=
  let '(a, b, c, d) := b in (s * a + tx, s * b + ty, s * c + tx, s * d + ty).

End Box2BoxTransform.

(** ** AnchorGenerator *)

Module AnchorGenerator.
Local Open Scope R_scope.

(** A row (x0, y0, x1, y1) of an anchor tensor. *)
Definition Anchor : Type := (R * R * R * R)%type.

Definition add4 (s b : Anchor) : Anchor :=
  let '(s0, s1, s2, s3) := s in
  let '(b0, b1, b2, b3) := b in
  (s0 + b0, s1 + b1, s2 + b2, s3 + b3).

(** The least integer not below [x]. *)
Definition ceil (x : R) : Z := (1 - up (- x))%Z.

(** [torch.arange(start, end, step)]: [ceil((end - start) / step)] values
    from [start] in steps of [step]; a zero step, or a step that leads
    away from [end], raises. *)
Definition arange (start stop step : R) : result (list R) :=
  if Req_dec_T step 0 then Raise RuntimeError
  else if Rlt_dec ((stop - start) / step) 0 then Raise RuntimeError
  else Ok (map (fun k => start + INR k * step)
               (seq 0 (Z.to_nat (ceil ((stop - start) / step))))).

(** [_create_grid_offsets]: [meshgrid(shifts_y, shifts_x)], both results
    flattened row by row. *)
Definition _create_grid_offsets (size : nat * nat) (stride : Z)
           (offset : R) : result (list R * list R) :=
  let (grid_height, grid_width) := size in
  shifts_x <- arange (offset * IZR stride) (INR grid_width * IZR stride)
                     (IZR stride);;
  shifts_y <- arange (offset * IZR stride) (INR grid_height * IZR stride)
                     (IZR stride);;
  let shift_y := flat_map (fun y => map (fun _ => y) shifts_x) shifts_y in
  let shift_x := flat_map (fun _ => shifts_x) shifts_y in
  Ok (shift_x, shift_y).

Record t : Type := mkAnchorGenerator {
  strides : list Z;
  offset : R;
  cell_anchors : list (list Anchor)
}.

(** The body of the loop of [grid_anchors], for one level. *)
Definition grid_anchors_level (size : nat * nat) (stride : Z) (offset : R)
           (base_anchors : list Anchor) : result (list Anchor) :=
  s <- _create_grid_offsets size stride offset;;
  let (shift_x, shift_y) := s in
  let shifts := Tensor.map2 (fun x y => (x, y, x, y)) shift_x shift_y in
  Ok (flat_map (fun sh => map (fun b => add4 sh b) base_anchors) shifts).

(** [grid_anchors]: one tensor of anchors per level of the [zip]. *)
Definition grid_anchors (self : t) (grid_sizes : list (nat * nat))
  : result (list (list Anchor)) :=
  mapM (fun '(size, (stride, base_anchors)) =>
          grid_anchors_level size stride (offset self) base_anchors)
       (combine grid_sizes (combine (strides self) (cell_anchors self))).

(** One step of the inner loop of [generate_cell_anchors].  Python raises
    on a division by zero and on the square root of a negative number. *)
Definition cell_anchor (size aspect_ratio : R) : result Anchor :=
  let area := size * size in
  if Req_dec_T aspect_ratio 0 then Raise ZeroDivisionError
  else if Rlt_dec (area / aspect_ratio) 0 then Raise ValueError
  else
    let w := sqrt (area / aspect_ratio) in
    let h := aspect_ratio * w in
    Ok (- w / 2, - h / 2, w / 2, h / 2).

(** [generate_cell_anchors]: sizes in the outer loop, aspect ratios in the
    inner loop. *)
Definition generate_cell_anchors (sizes aspect_ratios : list R)
  : result (list Anchor) :=
  per_size <- mapM (fun size => mapM (cell_anchor size) aspect_ratios)
                   sizes;;
  Ok (concat per_size).

(** Python's [l *= n] on a list: [n] copies of [l], one after the
    other. *)
Definition list_times {A : Type} (l : list A) (n : nat) : list A :=
  concat (repeat l n).

(** [_calculate_anchors]: a single list of sizes (or of aspect ratios)
    is used for every feature map; the two assertions; one tensor of cell
    anchors per feature map.  (The conversion to single precision is not
    modelled.) *)
Definition _calculate_anchors (num_features : nat)
           (sizes aspect_ratios : list (list R))
  : result (list (list Anchor)) :=
  let sizes :=
    if (length sizes =? 1)%nat then list_times sizes num_features
    else sizes in
  let aspect_ratios :=
    if (length aspect_ratios =? 1)%nat
    then list_times aspect_ratios num_features
    else aspect_ratios in
  _ <- py_assert (num_features =? length sizes)%nat;;
  _ <- py_assert (num_features =? length aspect_ratios)%nat;;
  mapM (fun '(s, a) => generate_cell_anchors s a)
       (combine sizes aspect_ratios).

(** [AnchorGenerator.__init__], from the values it reads in the
    configuration and the strides of the input shapes. *)
Definition init (sizes aspect_ratios : list (list R)) (strides : list Z)
           (offset : R) : result t :=
  _ <- py_assert (if Rle_dec 0 offset
                  then if Rlt_dec offset 1 then true else false
                  else false);;
  cell_anchors <- _calculate_anchors (length strides) sizes aspect_ratios;;
  Ok (mkAnchorGenerator strides offset cell_anchors).

(** The property [num_cell_anchors]. *)
Definition num_cell_anchors (self : t) : list nat :=
  map (@length Anchor) (cell_anchors self).

(** [forward]: a feature map is given by its batch size and its grid
    (height, width); the anchors of all levels, once per image. *)
Definition forward (self : t) (features : list (nat * (nat * nat)))
  : result (list (list (list Anchor))) :=
  match features with
  | [] => Raise IndexError
  | (num_images, _) :: _ =>
      let grid_sizes := map snd features in
      anchors_over_all_feature_maps <- grid_anchors self grid_sizes;;
      Ok (repeat anchors_over_all_feature_maps num_images)
  end.

(** *** Vocabulary of the statements and proofs about this module *)

(** The list of sizes (or of aspect ratios) per feature map after the
    broadcast of [_calculate_anchors]. *)
Definition broadcast {A : Type} (l : list A) (num_features : nat) : list A :=
  if (length l =? 1)%nat then list_times l num_features else l.

(** The shift of cell [k] along one axis. *)
Definition shift (off : R) (s : Z) (k : nat) : R :=
  off * IZR s + INR k * IZR s.

(** The zero-centred cell anchor of one size and one aspect ratio. *)
Definition zero_centred (size aspect_ratio : R) : Anchor :=
  let w := sqrt (size * size / aspect_ratio) in
  let h := aspect_ratio * w in
  (- w / 2, - h / 2, w / 2, h / 2).

(** One level of stride 16 with offset 0.5 and the cell anchors of three
    sizes and three aspect ratios. *)
Definition demo_generator : t :=
  mkAnchorGenerator
    [16%Z] (1 / 2)
    [flat_map (fun size => map (zero_centred size) [1 / 2; 1; 2])
              [32; 64; 128]].

End AnchorGenerator.

(** ** RPN losses *)

Module RPNLoss.
Local Open Scope R_scope.

(** The two kinds of Python values that meet in [RPNOutputs.losses]: a
    scalar tensor, and the [torch.nn.SmoothL1Loss(reduction="sum")]
    module object. *)
Inductive py_value : Type :=
| Scalar (r : R)
| SmoothL1LossModule.

(** [v * x] for a Python float [x]: defined on tensors, not on modules. *)
Definition py_mul (v : py_value) (x : R) : result py_value :=
  match v with
  | Scalar r => Ok (Scalar (r * x))
  | SmoothL1LossModule => Raise TypeError
  end.

(** [F.binary_cross_entropy_with_logits(input, target, reduction="sum")]. *)
Definition binary_cross_entropy_with_logits (input target : list R) : R :=
  fold_right Rplus 0
    (Tensor.map2
       (fun x z => Rmax x 0 - x * z + ln (1 + exp (- Rabs x)))
       input target).

(** [rpn_losses]. *)
Definition rpn_losses (gt_objectness_logits : list Z)
           (gt_anchor_deltas : list (list R))
           (pred_objectness_logits : list R)
           (pred_anchor_deltas : list (list R))
           (smooth_l1_beta : R) : py_value * py_value :=
  let localization_loss := SmoothL1LossModule in
  let valid_masks := map (fun l => (0 <=? l)%Z) gt_objectness_logits in
  let objectness_loss :=
    binary_cross_entropy_with_logits
      (Tensor.masked_select pred_objectness_logits valid_masks)
      (map IZR (Tensor.masked_select gt_objectness_logits valid_masks)) in
  (Scalar objectness_loss, localization_loss).

(** The end of [RPNOutputs.losses] (lines 1155-1167), on the flattened
    labels, targets and predictions. *)
Definition losses (batch_size_per_image num_images : Z)
           (gt_objectness_logits : list Z)
           (gt_anchor_deltas : list (list R))
           (pred_objectness_logits : list R)
           (pred_anchor_deltas : list (list R))
           (smooth_l1_beta : R) : result (py_value * py_value) :=
  let (objectness_loss, localization_loss) :=
    rpn_losses gt_objectness_logits gt_anchor_deltas
               pred_objectness_logits pred_anchor_deltas smooth_l1_beta in
  normalizer <-
    (if (batch_size_per_image * num_images =? 0)%Z
     then Raise ZeroDivisionError
     else Ok (1 / IZR (batch_size_per_image * num_images)));;
  loss_cls <- py_mul objectness_loss normalizer;;
  loss_loc <- py_mul localization_loss normalizer;;
  Ok (loss_cls, loss_loc).

(** Modelled from the spec: the localization loss the specification
    describes, smooth-L1 (with transition point [beta]) summed over the
    deltas of the positive anchors. *)
Definition smooth_l1 (beta x : R) : R :=
  if Rlt_dec (Rabs x) beta then (1 / 2) * x * x / beta
  else Rabs x - (1 / 2) * beta.

Definition spec_localization_loss (gt_objectness_logits : list Z)
           (gt_anchor_deltas pred_anchor_deltas : list (list R))
           (smooth_l1_beta : R) : R :=
  let pos_masks := map (fun l => (l =? 1)%Z) gt_objectness_logits in
  fold_right Rplus 0
    (map (fun pg =>
            fold_right Rplus 0
              (Tensor.map2 (fun p g => smooth_l1 smooth_l1_beta (p - g))
                           (fst pg) (snd pg)))
         (combine (Tensor.masked_select pred_anchor_deltas pos_masks)
                  (Tensor.masked_select gt_anchor_deltas pos_masks))).

End RPNLoss.

(** ** ROI pooling: boxes in pooler format and their levels *)

Module Pooler.
Import XReal Tensor.
Local Open Scope R_scope.

(** A row (x1, y1, x2, y2) of a box tensor. *)
Definition RBox : Type := (R * R * R * R)%type.

(** Modelled from the spec: the [Boxes] class and its [area()] are not in
    the sources; the area of a box is its width times its height. *)
Definition area (b : RBox) : R :=
  let '(x1, y1, x2, y2) := b in (x2 - x1) * (y2 - y1).




(** [torch.sqrt], [torch.log2], [torch.floor] and [torch.clamp] on one
    element. *)
Definition xsqrt (x : xreal) : xreal :=
  match x with
  | Fin a => if Rlt_dec a 0 then NaN else Fin (sqrt a)
  | PInf => PInf
  | NInf | NaN => NaN
  end.

Definition xlog2 (x : xreal) : xreal := xdiv (xlog x) (Fin (ln 2)).

Definition xfloor (x : xreal) : xreal :=
  match x with
  | Fin a => Fin (IZR (Int_part a))
  | other => other
  end.

Definition xclamp (x : xreal) (lo hi : R) : xreal :=
  match x with
  | Fin a => Fin (Rmin (Rmax a lo) hi)
  | PInf => Fin hi
  | NInf => Fin (Rmin lo hi)
  | NaN => NaN
  end.

(** [t.to(torch.int64)] on one element: truncation towards zero; the
    conversion of NaN and of the infinities is not defined and is left
    without a value. *)
Definition to_int64 (x : xreal) : option Z :=
  match x with
  | Fin a =>
      Some (if Rle_dec 0 a then Int_part a else (- Int_part (- a))%Z)
  | _ => None
  end.

(** [assign_boxes_to_levels]; [Boxes.area()] per list, concatenated
    ([torch.cat] raises on an empty list). *)
Definition assign_boxes_to_levels (box_lists : list (list RBox))
           (min_level max_level canonical_box_size canonical_level : Z)
  : result (list (option Z)) :=
  match box_lists with
  | [] => Raise RuntimeError
  | _ =>
      let box_sizes :=
        map xsqrt (concat (map (map (fun b => Fin (area b))) box_lists)) in
      let level_assignments :=
        map (fun s =>
               xfloor
                 (xadd (Fin (IZR canonical_level))
                       (xlog2 (xadd (xdiv s (Fin (IZR canonical_box_size)))
                                    (Fin (1 / 100000000))))))
            box_sizes in
      let level_assignments :=
        map (fun l => xclamp l (IZR min_level) (IZR max_level))
            level_assignments in
      Ok (map (fun l => option_map (fun z => (z - min_level)%Z) (to_int64 l))
              level_assignments)
  end.

(** *** Vocabulary of the statements and proofs about this module *)


(** The size of a box relative to the canonical size, as
    [assign_boxes_to_levels] feeds it to the logarithm. *)
Definition relative_size (canonical_box_size : Z) (b : RBox) : R :=
  sqrt (area b) / IZR canonical_box_size + 1 / 100000000.

(** [clamp(level, min_level, max_level) - min_level] on integers. *)
Definition level_index (min_level max_level level : Z) : Z :=
  (Z.min (Z.max level min_level) max_level - min_level)%Z.

(** What [assign_boxes_to_levels] computes for one box. *)
Definition box_level (min_level max_level canonical_box_size
                      canonical_level : Z) (b : RBox) : option Z :=
  option_map
    (fun z => (z - min_level)%Z)
    (to_int64
       (xclamp
          (xfloor
             (xadd (Fin (IZR canonical_level))
                   (xlog2 (xadd (xdiv (xsqrt (Fin (area b)))
                                      (Fin (IZR canonical_box_size)))
                                (Fin (1 / 100000000))))))
          (IZR min_level) (IZR max_level))).

End Pooler.

(** * Properties *)

Unset Implicit Arguments.

(** ** List and tensor facts *)

Lemma Qltb_lt a b : Qltb a b = true <-> a < b.
Proof.
  unfold Qltb. rewrite negb_true_iff, <- not_true_iff_false, Qle_bool_iff.
  split; [apply Qnot_le_lt | apply Qlt_not_le].
Qed.

Lemma Qltb_ge a b : Qltb a b = false <-> b <= a.
Proof.
  unfold Qltb. now rewrite negb_false_iff, Qle_bool_iff.
Qed.

(** ** The error monad *)

Lemma mapM_ok {A B : Type} (f : A -> result B) (l : list A) :
  (forall x, In x l -> exists b, f x = Ok b) ->
  exists r, mapM f l = Ok r.
Proof.
  induction l as [|a l IH]; intros H; simpl.
  - now exists [].
  - destruct (H a (or_introl eq_refl)) as (b & ->).
    destruct IH as (r & ->); [intros x Hx; apply H; now right |].
    simpl. now exists (b :: r).
Qed.

Lemma mapM_nth {A B : Type} (f : A -> result B) (l : list A) r i x :
  mapM f l = Ok r -> nth_error l i = Some x ->
  exists y, nth_error r i = Some y /\ f x = Ok y.
Proof.
  revert r i. induction l as [|a l IH]; intros r i Hm Hi.
  - destruct i; discriminate.
  - simpl in Hm. destruct (f a) as [b|] eqn:Ea; [|discriminate].
    cbn [bind] in Hm. destruct (mapM f l) as [r'|] eqn:Er; [|discriminate].
    cbn [bind] in Hm. injection Hm as <-.
    destruct i as [|i].
    + injection Hi as <-. exists b. now split.
    + simpl in Hi. now apply (IH r' i).
Qed.

Lemma mapM_ok_pure {A B : Type} (f : A -> result B) (g : A -> B) l :
  (forall x, In x l -> f x = Ok (g x)) -> mapM f l = Ok (map g l).
Proof.
  induction l as [|a l IH]; intros H; simpl; [reflexivity |].
  rewrite (H a) by now left. cbn [bind].
  rewrite IH by (intros x Hx; apply H; now right). reflexivity.
Qed.

Lemma nth_error_combine {A B : Type} (l : list A) (l' : list B) i x y :
  nth_error l i = Some x -> nth_error l' i = Some y ->
  nth_error (combine l l') i = Some (x, y).
Proof.
  revert l' i. induction l as [|a l IH]; intros [|b l'] [|i] Hx Hy;
    try discriminate; simpl in *.
  - congruence.
  - now apply IH.
Qed.

Module TensorFacts.
Import Tensor.
Local Open Scope nat_scope.

Lemma map2_length {A B C : Type} (f : A -> B -> C) l l' :
  length (map2 f l l') = Nat.min (length l) (length l').
Proof.
  revert l'; induction l as [|a t IH]; intros [|b t']; simpl; auto.
Qed.

Lemma map2_map_same {A B C D : Type} (f : B -> C -> D)
      (g : A -> B) (h : A -> C) l :
  map2 f (map g l) (map h l) = map (fun a => f (g a) (h a)) l.
Proof. induction l; simpl; congruence. Qed.

Lemma map_nth_seq {A : Type} (d : A) (l : list A) :
  map (fun j => nth j l d) (seq 0 (length l)) = l.
Proof.
  induction l as [|a l IH]; simpl; auto.
  f_equal. rewrite <- seq_shift, map_map. exact IH.
Qed.

Lemma Forall2_map_same {A B C : Type} (R : B -> C -> Prop)
      (f : A -> B) (g : A -> C) (l : list A) :
  (forall x, In x l -> R (f x) (g x)) ->
  Forall2 R (map f l) (map g l).
Proof.
  induction l as [|a l IH]; simpl; intros H; constructor; auto.
Qed.

Lemma map2_diag {A B C : Type} (f : A -> B -> C) (g : A -> B) l :
  map2 f l (map g l) = map (fun a => f a (g a)) l.
Proof. induction l; simpl; congruence. Qed.

Lemma in_combine_seq {A : Type} (l : list A) s i x :
  In (i, x) (combine (seq s (length l)) l)
  <-> s <= i /\ nth_error l (i - s) = Some x.
Proof.
  revert s. induction l as [|a l IH]; intros s; simpl.
  - split; [tauto | intros [_ H]; destruct (i - s); discriminate].
  - rewrite IH. split.
    + intros [H | [H1 H2]].
      * injection H as -> ->. rewrite Nat.sub_diag. split; [lia | easy].
      * split; [lia |].
        replace (i - s) with (S (i - S s)) by lia. exact H2.
    + intros [H1 H2]. destruct (Nat.eq_dec s i) as [-> | Hne].
      * rewrite Nat.sub_diag in H2. injection H2 as ->. now left.
      * right. split; [lia |].
        replace (i - s) with (S (i - S s)) in H2 by lia. exact H2.
Qed.

Lemma in_nonzero mask j :
  In j (nonzero mask) <-> nth_error mask j = Some true.
Proof.
  unfold nonzero. rewrite in_map_iff. split.
  - intros ([i b] & <- & H). apply filter_In in H. destruct H as [H Hb].
    simpl in Hb. subst b. apply in_combine_seq in H.
    cbn [fst]. now rewrite Nat.sub_0_r in H.
  - intros H. exists (j, true). split; [reflexivity |].
    apply filter_In. split; [|reflexivity].
    apply in_combine_seq. rewrite Nat.sub_0_r. split; [lia | exact H].
Qed.

Lemma nonzero_NoDup mask : NoDup (nonzero mask).
Proof.
  unfold nonzero.
  assert (H : forall s, NoDup (map fst
            (filter snd (combine (seq s (length mask)) mask)))).
  { induction mask as [|b mask IH]; intros s; simpl; [constructor |].
    destruct b; simpl; [|apply IH].
    constructor; [|apply IH].
    rewrite in_map_iff. intros ([i x] & E & H). simpl in E. subst i.
    apply filter_In in H. destruct H as [H _].
    apply in_combine_seq in H. lia. }
  apply H.
Qed.

Lemma index_put_length {A : Type} (t : list A) i v :
  length (index_put t i v) = length t.
Proof.
  revert i. induction t as [|x t IH]; intros [|i]; simpl; auto.
Qed.

Lemma nth_error_index_put {A : Type} (t : list A) i v j :
  nth_error (index_put t i v) j
  = if (j =? i)%nat && (i <? length t)%nat then Some v else nth_error t j.
Proof.
  revert i j. induction t as [|x t IH]; intros i j.
  - simpl. destruct i, j; simpl; auto; rewrite ?andb_false_r; auto.
  - destruct i as [|i], j as [|j]; simpl; auto.
Qed.

Lemma Forall_map2 {A B C : Type} (P : C -> Prop) (f : A -> B -> C) l l' :
  (forall a b, In b l' -> P (f a b)) -> Forall P (map2 f l l').
Proof.
  revert l'. induction l as [|a l IH]; intros [|b l'] H; simpl;
    constructor.
  - apply H. now left.
  - apply IH. intros a' b' Hb. apply H. now right.
Qed.

Lemma Forall_nth_error_intro {A : Type} (P : A -> Prop) (l : list A) :
  (forall j x, nth_error l j = Some x -> P x) -> Forall P l.
Proof.
  intros H. apply Forall_forall. intros x Hx.
  apply In_nth_error in Hx. destruct Hx as (j & Hj). eauto.
Qed.

Lemma entry_map_map {A B C : Type} (f : A -> B -> C) la lb i j a b :
  nth_error la i = Some a -> nth_error lb j = Some b ->
  entry (map (fun x => map (f x) lb) la) i j = Some (f a b).
Proof.
  intros Ha Hb. unfold entry.
  rewrite nth_error_map, Ha. simpl. now rewrite nth_error_map, Hb.
Qed.

End TensorFacts.

(** ** IoU *)

Module BoxOpsFacts.
Import Tensor TensorFacts BoxOps.

Lemma pairwise_iou_entries (boxes1 boxes2 : list Box) :
  pairwise_iou boxes1 boxes2
  = map (fun a => map (iou a) boxes2) boxes1.
Proof.
  unfold pairwise_iou, pairwise_intersection.
  rewrite map2_map_same. apply map_ext; intros a.
  rewrite map2_map_same. reflexivity.
Qed.

Lemma clamp_min0_nonneg q : 0 <= clamp_min0 q.
Proof. unfold clamp_min0. apply Q.le_max_r. Qed.

Lemma clamp_min0_pos q : 0 < clamp_min0 q -> clamp_min0 q == q /\ 0 < q.
Proof.
  unfold clamp_min0. intros H.
  destruct (Q.max_spec q 0) as [[H1 H2]|[H1 H2]]; rewrite H2 in *.
  - lra.
  - split; [reflexivity | lra].
Qed.

Lemma Qmul_pos_inv a b : 0 <= a -> 0 <= b -> 0 < a * b -> 0 < a /\ 0 < b.
Proof. intros. split; nra. Qed.

(** A positive intersection is the overlap of two boxes of positive
    sides, and lies inside both. *)
Lemma intersection_pos a b :
  0 < intersection a b ->
  intersection a b <= area a /\ intersection a b <= area b.
Proof.
  unfold intersection, area, width, height. intros H.
  apply Qmul_pos_inv in H; try apply clamp_min0_nonneg.
  destruct H as [Hw Hh].
  apply clamp_min0_pos in Hw. apply clamp_min0_pos in Hh.
  destruct Hw as [Ew Hw], Hh as [Eh Hh]. rewrite Ew, Eh.
  pose proof (Q.le_min_l (bx2 a) (bx2 b)).
  pose proof (Q.le_min_r (bx2 a) (bx2 b)).
  pose proof (Q.le_max_l (bx1 a) (bx1 b)).
  pose proof (Q.le_max_r (bx1 a) (bx1 b)).
  pose proof (Q.le_min_l (by2 a) (by2 b)).
  pose proof (Q.le_min_r (by2 a) (by2 b)).
  pose proof (Q.le_max_l (by1 a) (by1 b)).
  pose proof (Q.le_max_r (by1 a) (by1 b)).
  split; nra.
Qed.

Lemma intersection_sym a b : intersection a b == intersection b a.
Proof.
  unfold intersection, clamp_min0, Qminus.
  apply Qmult_comp; apply Q.max_compat; try reflexivity;
    (apply Qplus_comp; [apply Q.min_comm | apply Qopp_comp, Q.max_comm]).
Qed.

Lemma iou_sym a b : iou a b == iou b a.
Proof.
  unfold iou.
  destruct (Qltb 0 (intersection a b)) eqn:E1;
    destruct (Qltb 0 (intersection b a)) eqn:E2.
  - rewrite (intersection_sym a b). apply Qdiv_comp; [reflexivity | ring].
  - apply Qltb_lt in E1. apply Qltb_ge in E2.
    rewrite intersection_sym in E1. lra.
  - apply Qltb_lt in E2. apply Qltb_ge in E1.
    rewrite intersection_sym in E1. lra.
  - reflexivity.
Qed.

Lemma iou_bounds a b : 0 <= iou a b <= 1.
Proof.
  unfold iou. destruct (Qltb 0 (intersection a b)) eqn:E.
  - apply Qltb_lt in E.
    destruct (intersection_pos a b E) as [Ha Hb].
    assert (Hd : 0 < area a + area b - intersection a b) by lra.
    split.
    + apply Qle_shift_div_l; lra.
    + apply Qle_shift_div_r; lra.
  - lra.
Qed.

Lemma intersection_self b :
  0 < width b -> 0 < height b -> intersection b b == area b.
Proof.
  unfold intersection, area, width, height, clamp_min0. intros Hw Hh.
  rewrite !Q.min_id, !Q.max_id.
  rewrite (Q.max_l (bx2 b - bx1 b) 0), (Q.max_l (by2 b - by1 b) 0) by lra.
  reflexivity.
Qed.

Lemma iou_self b : 0 < width b -> 0 < height b -> iou b b == 1.
Proof.
  intros Hw Hh. unfold iou.
  pose proof (intersection_self b Hw Hh) as E.
  assert (Ha : 0 < area b) by (unfold area; nra).
  destruct (Qltb 0 (intersection b b)) eqn:E1.
  - rewrite E. field. lra.
  - apply Qltb_ge in E1. lra.
Qed.

Lemma iou_zero a b : intersection a b == 0 -> iou a b = 0.
Proof.
  intros E. unfold iou.
  destruct (Qltb 0 (intersection a b)) eqn:E1; auto.
  apply Qltb_lt in E1. lra.
Qed.

(** C6 (as amended).  [pairwise_iou(A, B)] is the transpose of
    [pairwise_iou(B, A)]; every entry lies in [0, 1]; the IoU of a box of
    strictly positive width and height with itself is 1; and an entry
    whose intersection area is 0 is 0. *)
Theorem pairwise_iou_properties (A B : list Box) :
  Forall2 (Forall2 Qeq) (pairwise_iou A B)
          (transpose (length A) (pairwise_iou B A))
  /\ Forall (Forall (fun q => 0 <= q <= 1)) (pairwise_iou A B)
  /\ (forall b, 0 < width b -> 0 < height b ->
                Forall2 (Forall2 Qeq) (pairwise_iou [b] [b]) [[1]])
  /\ (forall i j a b,
         nth_error A i = Some a -> nth_error B j = Some b ->
         intersection a b == 0 ->
         entry (pairwise_iou A B) i j = Some 0).
Proof.
  rewrite !pairwise_iou_entries. repeat split.
  - unfold transpose.
    rewrite <- (map_nth_seq zero_box A) at 1. rewrite map_map.
    apply Forall2_map_same. intros j Hj. apply in_seq in Hj.
    rewrite map_map. apply Forall2_map_same. intros b _.
    rewrite (nth_indep _ 0 (iou b zero_box)) by (rewrite length_map; lia).
    rewrite (map_nth (iou b)). apply iou_sym.
  - apply Forall_map, Forall_forall. intros a _.
    apply Forall_map, Forall_forall. intros b _. apply iou_bounds.
  - intros b Hw Hh. rewrite pairwise_iou_entries. simpl.
    repeat constructor. now apply iou_self.
  - intros i j a b Ha Hb E.
    rewrite (entry_map_map iou A B i j a b Ha Hb). f_equal. now apply iou_zero.
Qed.

(** Witness of [pairwise_iou_properties]: the box (0, 0, 2, 3) against
    itself. *)
Lemma pairwise_iou_properties_witness :
  Forall2 (Forall2 Qeq)
          (pairwise_iou [mkBox 0 0 2 3] [mkBox 0 0 2 3]) [[1]].
Proof.
  apply (proj1 (proj2 (proj2 (pairwise_iou_properties [] []))));
    unfold width, height; simpl; lra.
Defined.

(** C6 as the specification states it fails on an empty box: the IoU of
    (1, 1, 1, 5) with itself is 0, not 1. *)
Lemma iou_self_empty_box :
  pairwise_iou [mkBox 1 1 1 5] [mkBox 1 1 1 5] = [[0]]
  /\ ~ Forall2 (Forall2 Qeq)
         (pairwise_iou [mkBox 1 1 1 5] [mkBox 1 1 1 5]) [[1]].
Proof.
  split; [reflexivity |].
  intros H. inversion H as [|? ? ? ? H1 _]; subst.
  inversion H1 as [|? ? ? ? H2 _]; subst.
  vm_compute in H2. discriminate.
Qed.

End BoxOpsFacts.

(** ** Matcher *)

Module MatcherFacts.
Import Tensor TensorFacts Matcher.

(** What a successful construction leaves in the object. *)
Lemma init_inv ths lbls allow m :
  init ths lbls allow = Ok m ->
  m = mkMatcher (NegInf :: map Finite ths ++ [PosInf]) lbls allow
  /\ length lbls = S (length ths)
  /\ ths <> [].
Proof.
  unfold init. destruct ths as [|t0 ths]; [discriminate |].
  destruct (Qltb 0 t0); [|discriminate]. cbn [py_assert bind].
  match goal with |- context [forallb ?f ?l] => destruct (forallb f l) end;
    [|discriminate]. cbn [py_assert bind].
  match goal with |- context [forallb ?f ?l] => destruct (forallb f l) end;
    [|discriminate]. cbn [py_assert bind].
  match goal with |- context [Nat.eqb ?a ?b] =>
    destruct (Nat.eqb a b) eqn:E end; [|discriminate].
  cbn [py_assert bind]. intros H; injection H as <-.
  apply Nat.eqb_eq in E. simpl in E.
  rewrite length_app, length_map in E. simpl in E.
  split; [reflexivity | split; [simpl; lia | discriminate]].
Qed.

(** C4.  With no ground-truth row the matcher of any constructed
    configuration returns, for every number N of predictions, the matches
    all 0 and the labels all [labels[0]]. *)
Theorem matcher_no_ground_truth ths lbls allow m (N : nat) :
  init ths lbls allow = Ok m ->
  exists l0,
    nth_error (labels m) 0 = Some l0
    /\ call m (mkTensor2 N []) = Ok (repeat O N, repeat l0 N).
Proof.
  intros H. apply init_inv in H. destruct H as (-> & Hl & _).
  destruct lbls as [|l0 lbls]; [discriminate |].
  exists l0. split; reflexivity.
Qed.

(** Witness of [matcher_no_ground_truth]: thresholds [0.3, 0.5], labels
    [0, -1, 1], three predictions. *)
Lemma matcher_no_ground_truth_witness :
  exists m,
    init [3 # 10; 1 # 2] [0; -1; 1]%Z true = Ok m
    /\ call m (mkTensor2 3 []) = Ok ([O; O; O], [0; 0; 0]%Z).
Proof.
  eexists. split; [reflexivity |].
  destruct (matcher_no_ground_truth [3 # 10; 1 # 2] [0; -1; 1]%Z true _ 3
              eq_refl) as (l0 & Hl & Hc).
  injection Hl as <-. exact Hc.
Defined.

(** *** The stratification loop *)

Lemma band_step_map2 vals ml band :
  band_step vals ml band
  = map2 (fun v old => if in_band v (snd band) then fst band else old)
         vals ml.
Proof.
  destruct band as [l [low high]]. unfold band_step, masked_fill, in_band.
  cbn [fst snd]. revert ml.
  induction vals as [|v vals IH]; intros [|x ml]; simpl; auto.
  now rewrite IH.
Qed.

Lemma fold_bands bands vals ml :
  length ml = length vals ->
  fold_left (band_step vals) bands ml
  = map2 (fun v l0 => label_of bands v l0) vals ml.
Proof.
  revert ml. induction bands as [|b bands IH]; intros ml Hlen.
  - simpl. revert ml Hlen.
    induction vals as [|v vals IHv]; intros [|x ml] Hlen; simpl in *;
      try lia; auto.
    f_equal. apply IHv. lia.
  - cbn [fold_left]. rewrite IH, band_step_map2.
    + clear IH. revert ml Hlen.
      induction vals as [|v vals IHv]; intros [|x ml] Hlen; simpl in *;
        try lia; auto.
      f_equal. apply IHv. lia.
    + rewrite band_step_map2, map2_length. lia.
Qed.

Lemma label_of_cases bands v l0 :
  label_of bands v l0 = l0 \/ In (label_of bands v l0) (map fst bands).
Proof.
  revert l0. induction bands as [|b bands IH]; intros l0.
  - now left.
  - unfold label_of. cbn [fold_left map].
    destruct (IH (if in_band v (snd b) then fst b else l0)) as [E | Hin].
    + fold (label_of bands v (if in_band v (snd b) then fst b else l0)).
      rewrite E. destruct (in_band v (snd b)); [right; now left | now left].
    + right. right. exact Hin.
Qed.

Lemma label_of_in bands v l0 :
  (exists b, In b bands /\ in_band v (snd b) = true) ->
  In (label_of bands v l0) (map fst bands).
Proof.
  revert l0. induction bands as [|b bands IH]; intros l0 (b' & Hin & Hb).
  - destruct Hin.
  - unfold label_of. cbn [fold_left map].
    fold (label_of bands v (if in_band v (snd b) then fst b else l0)).
    destruct Hin as [-> | Hin].
    + rewrite Hb.
      destruct (label_of_cases bands v (fst b')) as [E | H].
      * rewrite E. now left.
      * now right.
    + right. apply IH. now exists b'.
Qed.

Lemma last_nonempty_default {A : Type} (x : A) (l : list A) (d d' : A) :
  last (x :: l) d = last (x :: l) d'.
Proof.
  revert x. induction l as [|y l IH]; intros x; [reflexivity |].
  change (last (y :: l) d = last (y :: l) d'). apply IH.
Qed.

(** Between a first threshold at or below [v] and a last threshold [+inf]
    some pair of neighbours encloses [v]. *)
Lemma enclosing_band v a rest :
  geb_bound v a = true ->
  last (a :: rest) a = PosInf ->
  exists lh, In lh (combine (removelast (a :: rest)) rest)
             /\ in_band v lh = true.
Proof.
  revert a. induction rest as [|b rest IH]; intros a Ha Hlast.
  - simpl in Hlast. subst a. discriminate.
  - destruct (ltb_bound v b) eqn:Hb.
    + exists (a, b). split; [now left |].
      unfold in_band. cbn [fst snd]. now rewrite Ha, Hb.
    + assert (Hge : geb_bound v b = true).
      { destruct b as [|q|]; simpl in *; try congruence.
        apply Qltb_ge in Hb. now apply Qle_bool_iff. }
      assert (Hlast' : last (b :: rest) b = PosInf).
      { rewrite <- Hlast.
        change (last (a :: b :: rest) a) with (last (b :: rest) a).
        apply last_nonempty_default. }
      destruct (IH b Hge Hlast') as (lh & Hin & Hlh).
      exists lh. split; [|exact Hlh].
      change (removelast (a :: b :: rest)) with (a :: removelast (b :: rest)).
      now right.
Qed.

Lemma in_combine_fst {A B : Type} (l : list A) (l' : list B) y :
  length l = length l' -> In y l' -> exists x, In (x, y) (combine l l').
Proof.
  revert l'. induction l as [|a l IH]; intros [|b l'] Hlen Hin;
    simpl in *; try lia; try contradiction.
  destruct Hin as [-> | Hin].
  - exists a. now left.
  - destruct (IH l' ltac:(lia) Hin) as (x & Hx). exists x. now right.
Qed.

Lemma map_fst_combine_incl {A B : Type} (l : list A) (l' : list B) x :
  In x (map fst (combine l l')) -> In x l.
Proof.
  intros H. apply in_map_iff in H. destruct H as ([a b] & <- & H).
  now apply in_combine_l in H.
Qed.

(** Every quality falls in a band of a constructed matcher, so that the
    loop leaves a configured label. *)
Lemma label_of_configured ths lbls v l0 :
  length lbls = S (length ths) ->
  let thr := NegInf :: map Finite ths ++ [PosInf] in
  In (label_of (combine lbls (combine (removelast thr) (tl thr))) v l0)
     lbls.
Proof.
  intros Hlen thr.
  apply map_fst_combine_incl with (l' := combine (removelast thr) (tl thr)).
  apply label_of_in.
  destruct (enclosing_band v NegInf (map Finite ths ++ [PosInf]) eq_refl)
    as (lh & Hin & Hlh).
  { change (last (NegInf :: map Finite ths ++ [PosInf]) NegInf = PosInf).
    rewrite app_comm_cons. apply last_last. }
  assert (Hlen' : length lbls
                  = length (combine (removelast thr) (tl thr))).
  { rewrite length_combine. subst thr. cbn [tl].
    rewrite app_comm_cons, removelast_last.
    cbn [length]. rewrite length_app, length_map. cbn [length]. lia. }
  destruct (in_combine_fst lbls _ lh Hlen' Hin) as (l & Hl).
  exists (l, lh). split; [exact Hl | exact Hlh].
Qed.

(** *** Maxima *)

Lemma max_from_spec best bi i l :
  let r := fst (max_from best bi i l) in
  best <= r /\ (forall x, In x l -> x <= r) /\ (r = best \/ In r l).
Proof.
  revert best bi i. induction l as [|x l IH]; intros best bi i; simpl.
  - repeat split; [lra | tauto | now left].
  - destruct (Qltb best x) eqn:E.
    + apply Qltb_lt in E.
      destruct (IH x i (S i)) as (H1 & H2 & H3).
      repeat split.
      * lra.
      * intros y [<- | Hy]; auto.
      * right. destruct H3 as [-> | H3]; auto.
    + apply Qltb_ge in E.
      destruct (IH best bi (S i)) as (H1 & H2 & H3).
      repeat split.
      * exact H1.
      * intros y [<- | Hy]; [lra | auto].
      * destruct H3 as [-> | H3]; auto.
Qed.

(** The maximum of a non-empty vector bounds its entries and is one of
    them. *)
Lemma vec_max_spec l :
  l <> [] ->
  (forall x, In x l -> x <= fst (vec_max l)) /\ In (fst (vec_max l)) l.
Proof.
  destruct l as [|x l]; [congruence | intros _].
  unfold vec_max. destruct (max_from_spec x 0%nat 1%nat l) as (H1 & H2 & H3).
  split.
  - intros y [<- | Hy]; auto.
  - destruct H3 as [-> | H3]; [now left | now right].
Qed.

(** *** The rescue pass *)

Lemma rescue_length ml inds : length (rescue ml inds) = length ml.
Proof.
  revert ml. induction inds as [|j inds IH]; intros ml; simpl; auto.
  unfold rescue in *. cbn [fold_left]. now rewrite IH, index_put_length.
Qed.

Lemma rescue_nth ml inds j :
  nth_error (rescue ml inds) j
  = if existsb (Nat.eqb j) inds && (j <? length ml)%nat
    then Some 1%Z else nth_error ml j.
Proof.
  revert ml. induction inds as [|k inds IH]; intros ml; [reflexivity |].
  change (rescue ml (k :: inds)) with (rescue (index_put ml k 1%Z) inds).
  rewrite IH, index_put_length, nth_error_index_put. cbn [existsb].
  destruct (Nat.eqb j k) eqn:Ejk; simpl.
  - apply Nat.eqb_eq in Ejk. subst j.
    destruct (existsb (Nat.eqb k) inds), (k <? length ml)%nat; reflexivity.
  - reflexivity.
Qed.

Lemma set_low_quality_matches_rescue ml q :
  set_low_quality_matches_ ml q
  = rescue ml
      (concat
         (map nonzero
              (map (fun row =>
                      map (fun v => Qeq_bool v (fst (vec_max row))) row)
                   (rows q)))).
Proof.
  unfold set_low_quality_matches_, rescue, max_dim1.
  now rewrite map2_diag.
Qed.

Lemma row_max_at_iff row j :
  (j < length row)%nat ->
  row_max_at row j <-> nth j row 0 == fst (vec_max row).
Proof.
  intros Hj.
  assert (Hne : row <> []) by (destruct row; simpl in *; [lia | congruence]).
  destruct (vec_max_spec row Hne) as [Hub Hin].
  destruct (In_nth _ _ 0 Hin) as (j0 & Hj0 & E).
  split.
  - intros H. apply Qle_antisym.
    + apply Hub, nth_In, Hj.
    + rewrite <- E. apply H, Hj0.
  - intros H j' Hj'. rewrite H. apply Hub, nth_In, Hj'.
Qed.

Lemma row_max_exists row :
  row <> [] -> exists j, (j < length row)%nat /\ row_max_at row j.
Proof.
  intros Hne. destruct (vec_max_spec row Hne) as [Hub Hin].
  destruct (In_nth _ _ 0 Hin) as (j0 & Hj0 & E).
  exists j0. split; [exact Hj0 |].
  apply row_max_at_iff; [exact Hj0 | now rewrite E].
Qed.

(** C3 (as amended).  On an M x N matrix of non-negative qualities with
    M > 0, a constructed matcher returns N matches and N labels; each
    label is one of the configured labels or, when low-quality matches
    are allowed, 1; and when they are allowed and N > 0, every
    ground-truth row has a prediction that reaches its maximum, and every
    such prediction is labelled 1. *)
Theorem matcher_labels ths lbls allow m (q : Tensor2 Q) :
  init ths lbls allow = Ok m ->
  wf q ->
  (0 < nrows q)%nat ->
  Forall (Forall (fun v => 0 <= v)) (rows q) ->
  exists matches match_labels,
    call m q = Ok (matches, match_labels)
    /\ length matches = ncols q
    /\ length match_labels = ncols q
    /\ Forall (fun l => In l (labels m)
                        \/ (allow_low_quality_matches m = true /\ l = 1%Z))
              match_labels
    /\ (allow_low_quality_matches m = true -> (0 < ncols q)%nat ->
        forall row, In row (rows q) ->
          (exists j, (j < ncols q)%nat /\ row_max_at row j)
          /\ (forall j, (j < ncols q)%nat -> row_max_at row j ->
                        nth_error match_labels j = Some 1%Z)).
Proof.
  intros Hinit Hwf HM Hnn.
  apply init_inv in Hinit. destruct Hinit as (-> & Hlen & Hne).
  unfold call. cbn [labels thresholds allow_low_quality_matches].
  destruct (numel q =? 0)%nat eqn:En.
  - apply Nat.eqb_eq in En. unfold numel in En.
    assert (HN : ncols q = 0%nat) by nia.
    destruct lbls as [|l0 lbls]; [discriminate |].
    cbn [nth_error]. rewrite HN. exists [], [].
    split; [reflexivity |]. split; [reflexivity |].
    split; [reflexivity |]. split; [constructor | intros; lia].
  - apply Nat.eqb_neq in En. unfold numel in En.
    assert (HN : (0 < ncols q)%nat) by nia.
    assert (Hassert : forallb (forallb (Qle_bool 0)) (rows q) = true).
    { apply forallb_forall. intros row Hrow. apply forallb_forall.
      intros v Hv. apply Qle_bool_iff.
      rewrite Forall_forall in Hnn. specialize (Hnn row Hrow).
      rewrite Forall_forall in Hnn. now apply Hnn. }
    rewrite Hassert. cbn [py_assert bind].
    destruct (max_dim0 q) as [mv mt] eqn:Emax.
    assert (Hmv : length mv = ncols q).
    { replace mv with (fst (max_dim0 q)) by now rewrite Emax.
      unfold max_dim0. now rewrite length_fst_split, length_map, length_seq. }
    assert (Hmt : length mt = ncols q).
    { replace mt with (snd (max_dim0 q)) by now rewrite Emax.
      unfold max_dim0. now rewrite length_snd_split, length_map, length_seq. }
    set (thr := NegInf :: map Finite ths ++ [PosInf]).
    set (bands := combine lbls (combine (removelast thr) (tl thr))).
    match goal with
    | |- context [fold_left ?f bands ?i] =>
        change (fold_left f bands i) with (fold_left (band_step mv) bands i)
    end.
    rewrite fold_bands by (rewrite repeat_length; congruence).
    set (L1 := map2 (fun v l0 => label_of bands v l0) mv
                    (repeat 1%Z (length mt))).
    assert (HL1len : length L1 = ncols q).
    { unfold L1. rewrite map2_length, repeat_length. lia. }
    assert (HL1 : Forall (fun l => In l lbls) L1).
    { apply Forall_map2. intros v l0 _.
      apply (label_of_configured ths lbls v l0 Hlen). }
    destruct allow.
    + rewrite set_low_quality_matches_rescue.
      set (inds := concat _).
      exists mt, (rescue L1 inds).
      split; [reflexivity |]. split; [exact Hmt |].
      split; [now rewrite rescue_length |]. split.
      * apply Forall_nth_error_intro. intros j l Hj.
        rewrite rescue_nth in Hj.
        destruct (existsb (Nat.eqb j) inds && (j <? length L1)%nat).
        -- injection Hj as <-. right. now split.
        -- left. rewrite Forall_forall in HL1.
           apply HL1. eapply nth_error_In, Hj.
      * intros _ _ row Hrow.
        assert (Hrl : length row = ncols q).
        { unfold wf in Hwf. rewrite Forall_forall in Hwf. now apply Hwf. }
        split.
        -- rewrite <- Hrl. apply row_max_exists.
           destruct row; simpl in *; [lia | congruence].
        -- intros j Hj Hmax. rewrite <- Hrl in Hj.
           apply row_max_at_iff in Hmax; [|exact Hj].
           rewrite rescue_nth.
           assert (Hin : In j inds).
           { unfold inds. apply in_concat.
             exists (nonzero (map (fun v => Qeq_bool v (fst (vec_max row)))
                                  row)).
             split.
             - apply in_map, in_map_iff. exists row. now split.
             - apply in_nonzero. rewrite nth_error_map.
               rewrite (nth_error_nth' row 0 Hj). cbn [option_map].
               f_equal. now apply Qeq_bool_iff. }
           assert (He : existsb (Nat.eqb j) inds = true).
           { apply existsb_exists. exists j. split; [exact Hin |].
             apply Nat.eqb_refl. }
           rewrite He, HL1len.
           assert (Hlt : (j <? ncols q)%nat = true)
             by (apply Nat.ltb_lt; lia).
           now rewrite Hlt.
    + exists mt, L1.
      split; [reflexivity |]. split; [exact Hmt |].
      split; [exact HL1len |]. split.
      * revert HL1. apply Forall_impl. intros l Hl. now left.
      * intros H. discriminate.
Qed.

(** The anchor matcher of the RPN (thresholds [0.3, 0.7], labels
    [0, -1, 1], low-quality matches allowed) on two ground-truth rows and
    four predictions: the second prediction, in the ignore band with
    quality 0.6, is rescued because it is the best of the second row. *)
Example rpn_matcher_example :
  exists m,
    init [3 # 10; 7 # 10] [0; -1; 1]%Z true = Ok m
    /\ call m (mkTensor2 4 [[9 # 10; 5 # 10; 1 # 10; 2 # 10];
                            [1 # 10; 6 # 10; 2 # 10; 1 # 4]])
       = Ok ([0; 1; 1; 1]%nat, [1; 1; 0; 0]%Z).
Proof. eexists. split; reflexivity. Qed.

(** Witness of [matcher_labels]: thresholds [0.3, 0.5], labels
    [0, -1, 1], low-quality matches allowed, two ground-truth rows and
    three predictions. *)
Lemma matcher_labels_witness :
  exists m,
    init [3 # 10; 1 # 2] [0; -1; 1]%Z true = Ok m
    /\ exists matches match_labels,
        call m (mkTensor2 3 [[1 # 10; 4 # 10; 9 # 10];
                             [2 # 10; 0; 1 # 10]])
        = Ok (matches, match_labels)
        /\ length matches = 3%nat
        /\ length match_labels = 3%nat
        /\ Forall (fun l => In l (labels m)
                            \/ (allow_low_quality_matches m = true
                                /\ l = 1%Z))
                  match_labels.
Proof.
  eexists. split; [reflexivity |].
  destruct (matcher_labels [3 # 10; 1 # 2] [0; -1; 1]%Z true _
              (mkTensor2 3 [[1 # 10; 4 # 10; 9 # 10]; [2 # 10; 0; 1 # 10]])
              eq_refl)
    as (matches & match_labels & H1 & H2 & H3 & H4 & _).
  - repeat constructor.
  - unfold nrows; simpl; lia.
  - repeat constructor; unfold Qle; simpl; lia.
  - exists matches, match_labels. repeat split; assumption.
Defined.

(** C3 as the specification states it fails twice.  With labels [0, -1]
    and low-quality matches allowed, the only prediction of the 1 x 1
    matrix [[0.2]] is labelled 1, which is not a configured label; and on
    a 1 x 0 matrix there is no prediction at all, so none labelled 1 for
    the row. *)
Lemma matcher_label_not_configured :
  exists m,
    init [1 # 2] [0; -1]%Z true = Ok m
    /\ call m (mkTensor2 1 [[1 # 5]]) = Ok ([0%nat], [1%Z])
    /\ ~ In 1%Z (labels m)
    /\ call m (mkTensor2 0 [[]]) = Ok ([], []).
Proof.
  eexists. split; [reflexivity |].
  split; [reflexivity |]. split; [|reflexivity].
  simpl. intros [H | [H | []]]; discriminate.
Qed.

End MatcherFacts.

(** ** Label subsampling *)

Module SamplingFacts.
Import Tensor TensorFacts Sampling.

Lemma py_int_floor q : 0 <= q -> py_int q = Qfloor q.
Proof.
  destruct q as [n d]. unfold py_int, Qfloor, Qle. simpl. intros H.
  apply Z.quot_div_nonneg; lia.
Qed.

Lemma NoDup_firstn {A : Type} (l : list A) n : NoDup l -> NoDup (firstn n l).
Proof.
  intros H. rewrite <- (firstn_skipn n l) in H.
  now apply NoDup_app_remove_r in H.
Qed.

Lemma In_firstn {A : Type} (l : list A) n x : In x (firstn n l) -> In x l.
Proof.
  intros H. rewrite <- (firstn_skipn n l). apply in_or_app. now left.
Qed.

(** Indexing a duplicate-free vector by the first [k] entries of a
    permutation of its index range selects [k] distinct entries. *)
Lemma select_prefix (t p : list nat) (k : nat) :
  NoDup t ->
  Permutation p (seq 0 (length t)) ->
  (k <= length t)%nat ->
  let r := index_select O t (firstn k p) in
  NoDup r /\ incl r t /\ length r = k.
Proof.
  intros Ht Hp Hk r. subst r. unfold index_select.
  assert (Hnd : NoDup p).
  { apply Permutation_NoDup with (l := seq 0 (length t));
      [now apply Permutation_sym | apply seq_NoDup]. }
  assert (Hrange : forall i, In i p -> (i < length t)%nat).
  { intros i Hi. apply (Permutation_in _ Hp) in Hi.
    apply in_seq in Hi. lia. }
  repeat split.
  - apply NoDup_map_NoDup_ForallPairs; [|now apply NoDup_firstn].
    intros i j Hi Hj E. apply In_firstn in Hi, Hj.
    apply (proj1 (NoDup_nth t O) Ht); auto.
  - intros x Hx. apply in_map_iff in Hx. destruct Hx as (i & <- & Hi).
    apply nth_In, Hrange. eapply In_firstn, Hi.
  - rewrite length_map, firstn_length_le; [reflexivity |].
    rewrite (Permutation_length Hp), length_seq. exact Hk.
Qed.

Lemma nonzero_length_filter {A : Type} (f : A -> bool) (l : list A) :
  length (nonzero (map f l)) = length (filter f l).
Proof.
  unfold nonzero. rewrite length_map, length_map.
  generalize 0%nat at 1.
  induction l as [|a l IH]; intros s; simpl; [reflexivity |].
  destruct (f a); simpl; now rewrite IH.
Qed.

Section WithRandperm.
Variable rng : Type.
Variable randperm : rng -> nat -> list nat * rng.
Hypothesis randperm_permutation :
  forall g n, Permutation (fst (randperm g n)) (seq 0 n).

End WithRandperm.


End SamplingFacts.

(** ** NMS: the order of the kept indices *)

Module NmsFacts.
Import Tensor TensorFacts BoxOps.
Local Open Scope nat_scope.

Section Insertion.
Variable key : nat -> Q.


Lemma insert_desc_perm i l : Permutation (insert_desc key i l) (i :: l).
Proof.
  induction l as [|j l IH]; simpl; [reflexivity |].
  destruct (Qltb (key i) (key j)); [|reflexivity].
  rewrite IH. apply perm_swap.
Qed.



Lemma sort_desc_perm l :
  Permutation (fold_right (insert_desc key) [] l) l.
Proof.
  induction l as [|i l IH]; simpl; [reflexivity |].
  rewrite insert_desc_perm. now constructor.
Qed.

End Insertion.

Lemma argsort_desc_perm scores :
  Permutation (argsort_desc scores) (seq 0 (length scores)).
Proof. apply sort_desc_perm. Qed.



Lemma index_put_fold_length (rm : list bool) ks :
  length (fold_left (fun rm k => index_put rm k true) ks rm) = length rm.
Proof.
  revert rm. induction ks as [|k ks IH]; intros rm; simpl; auto.
  now rewrite IH, index_put_length.
Qed.




End NmsFacts.

(** ** Final per-image detection filtering *)

Module InferenceFacts.
Import Tensor TensorFacts BoxOps NmsFacts Inference.
Local Open Scope nat_scope.














Example demo_threshold_half :
  fast_rcnn_inference_single_image demo_boxes demo_scores
                                   (100, 100)%Q (1 # 2) (1 # 2) 100
  = Ok {| pred_boxes := [mkBox 1 1 12 12]; pred_scores := [9 # 10];
          pred_classes := [2]; kept_indices := [0] |}.
Proof. vm_compute. reflexivity. Qed.

Example demo_threshold_high :
  fast_rcnn_inference_single_image demo_boxes demo_scores
                                   (100, 100)%Q (95 # 100) (1 # 2) 100
  = Ok {| pred_boxes := []; pred_scores := [];
          pred_classes := []; kept_indices := [] |}.
Proof. vm_compute. reflexivity. Qed.


End InferenceFacts.

(** ** RPN losses *)

Module RPNLossFacts.
Import RPNLoss.
Local Open Scope R_scope.

(** C2 (what the code does).  [rpn_losses] returns the loss module itself
    as its localization loss, whatever the deltas are, and
    [RPNOutputs.losses] then raises when it multiplies that module by the
    normalizer: no localization loss is ever computed. *)
Theorem rpn_localization_loss_not_computed
        (batch_size_per_image num_images : Z)
        (gt_objectness_logits : list Z)
        (gt_anchor_deltas : list (list R))
        (pred_objectness_logits : list R)
        (pred_anchor_deltas : list (list R)) (smooth_l1_beta : R) :
  snd (rpn_losses gt_objectness_logits gt_anchor_deltas
                  pred_objectness_logits pred_anchor_deltas smooth_l1_beta)
  = SmoothL1LossModule
  /\ (losses batch_size_per_image num_images gt_objectness_logits
             gt_anchor_deltas pred_objectness_logits pred_anchor_deltas
             smooth_l1_beta
      = if (batch_size_per_image * num_images =? 0)%Z
        then Raise ZeroDivisionError else Raise TypeError).
Proof.
  split; [reflexivity |].
  unfold losses, rpn_losses.
  destruct (batch_size_per_image * num_images =? 0)%Z; reflexivity.
Qed.

(** One positive anchor whose predicted deltas are (1, 0, 0, 0) against
    the target (0, 0, 0, 0), [beta = 0], one image of batch size 1: the
    specified loss is 1, the code raises. *)
Lemma rpn_localization_loss_example :
  spec_localization_loss [1%Z] [[0; 0; 0; 0]] [[1; 0; 0; 0]] 0 / (1 * 1) = 1
  /\ losses 1 1 [1%Z] [[0; 0; 0; 0]] [0] [[1; 0; 0; 0]] 0
     = Raise TypeError.
Proof.
  split; [|reflexivity].
  unfold spec_localization_loss, smooth_l1. simpl.
  repeat match goal with
         | |- context [Rlt_dec ?a ?b] => destruct (Rlt_dec a b)
         end;
    repeat match goal with
           | H : Rabs _ < 0 |- _ =>
               exfalso; revert H; apply Rle_not_lt, Rabs_pos
           end.
  replace (1 - 0) with 1 by lra. replace (0 - 0) with 0 by lra.
  rewrite Rabs_R0, Rabs_R1. field.
Qed.

End RPNLossFacts.

(** ** Box2BoxTransform *)

Module Box2BoxTransformFacts.
Import XReal Box2BoxTransform.
Local Open Scope R_scope.

Lemma xdiv_fin a b : b <> 0 -> xdiv (Fin a) (Fin b) = Fin (a / b).
Proof.
  intros Hb. unfold xdiv. destruct (Req_dec_T b 0); [contradiction | easy].
Qed.

Lemma xlog_pos a : 0 < a -> xlog (Fin a) = Fin (ln a).
Proof.
  intros Ha. unfold xlog. destruct (Rlt_dec 0 a); [easy | contradiction].
Qed.

Lemma xlog_zero a : a = 0 -> xlog (Fin a) = NInf.
Proof.
  intros ->. unfold xlog.
  destruct (Rlt_dec 0 0); [lra |].
  destruct (Req_dec_T 0 0); [easy | contradiction].
Qed.

Lemma ninf_through_weight w :
  w <> 0 -> xdiv (xmul (Fin w) NInf) (Fin w) = NInf.
Proof.
  intros Hw. unfold xmul, inf_of_sign.
  destruct (Rlt_dec 0 w) as [Hp | Hnp]; cbn [xneg xdiv].
  - destruct (Rlt_dec w 0); [lra | reflexivity].
  - destruct (Rlt_dec w 0) as [Hn | Hnn]; cbn [xneg xdiv].
    + destruct (Rlt_dec w 0); [reflexivity | contradiction].
    + lra.
Qed.

Lemma xsub_fin a b : xsub (Fin a) (Fin b) = Fin (a - b).
Proof. reflexivity. Qed.

Lemma xadd_fin a b : xadd (Fin a) (Fin b) = Fin (a + b).
Proof. reflexivity. Qed.

Lemma xmul_fin a b : xmul (Fin a) (Fin b) = Fin (a * b).
Proof. reflexivity. Qed.

Lemma xexp_fin a : xexp (Fin a) = Fin (exp a).
Proof. reflexivity. Qed.

Lemma xclamp_max_fin a m : xclamp_max (Fin a) m = Fin (Rmin a m).
Proof. reflexivity. Qed.

Create Rewrite HintDb xfin.
#[local] Hint Rewrite xsub_fin xadd_fin xmul_fin xexp_fin xclamp_max_fin
  : xfin.
#[local] Hint Rewrite xdiv_fin using (assumption || lra) : xfin.

(** The size of the target comes back when the clamp is not reached; a
    target size of 0 travels as [-inf]. *)
Lemma size_round_trip w clamp tw sw :
  w <> 0 -> 0 < sw -> 0 <= tw ->
  xle (xdiv (xmul (Fin w) (xlog (Fin (tw / sw)))) (Fin w)) (Fin clamp) ->
  xmul (xexp (xclamp_max
                (xdiv (xmul (Fin w) (xlog (Fin (tw / sw)))) (Fin w)) clamp))
       (Fin sw)
  = Fin tw.
Proof.
  intros Hw Hs Ht.
  destruct (Rle_lt_or_eq_dec 0 tw Ht) as [Hpos | Hzero].
  - assert (Hq : 0 < tw / sw) by (apply Rdiv_lt_0_compat; assumption).
    rewrite (xlog_pos _ Hq). autorewrite with xfin. cbn [xle].
    intros Hle. rewrite Rmin_left by exact Hle.
    f_equal. replace (w * ln (tw / sw) / w) with (ln (tw / sw))
      by (field; assumption).
    rewrite exp_ln by exact Hq. field. lra.
  - subst tw. rewrite xlog_zero by (unfold Rdiv; ring).
    rewrite ninf_through_weight by assumption.
    intros _. cbn [xclamp_max xexp xmul]. f_equal. ring.
Qed.

(** One pair of rows: the deltas of a source of positive width and height
    and a target of non-negative width and height give back the target. *)
Lemma row_round_trip (self : t) (src tgt : rbox) :
  weights_nonzero self ->
  0 < rwidth src -> 0 < rheight src ->
  0 <= rwidth tgt -> 0 <= rheight tgt ->
  let d := get_deltas_row self (box_of src) (box_of tgt) in
  unsaturated self d ->
  apply_deltas_row self [d] (box_of src) = [box_of tgt].
Proof.
  destruct src as [[[sx1 sy1] sx2] sy2], tgt as [[[tx1 ty1] tx2] ty2].
  unfold weights_nonzero, unsaturated, rwidth, rheight.
  destruct self as [[[[wx wy] ww] wh] clamp]. cbn [weights scale_clamp].
  intros (Hwx & Hwy & Hww & Hwh) Hsw Hsh Htw Hth.
  unfold apply_deltas_row, get_deltas_row.
  cbn [weights scale_clamp map box_of fin_box x1 y1 x2 y2 dx dy dw dh].
  intros [Hdw Hdh]. autorewrite with xfin in *.
  rewrite (size_round_trip ww clamp _ _ Hww Hsw Htw Hdw).
  rewrite (size_round_trip wh clamp _ _ Hwh Hsh Hth Hdh).
  autorewrite with xfin. unfold fin_box.
  repeat f_equal; field; (assumption || lra).
Qed.

Lemma widths_pass (src : list rbox) :
  Forall (fun b => 0 < rwidth b /\ 0 < rheight b) src ->
  forallb xgtb0 (map (fun b => xsub (x2 b) (x1 b)) (map box_of src)) = true.
Proof.
  intros H. rewrite map_map. apply forallb_forall. intros w Hw.
  apply in_map_iff in Hw. destruct Hw as ([[[a b] c] d] & <- & Hin).
  rewrite Forall_forall in H. destruct (H _ Hin) as [Hpos _].
  cbn in Hpos |- *. destruct (Rlt_dec 0 (c + - a)); [reflexivity | lra].
Qed.

(** C1.  For a transform with non-zero weights, source boxes of strictly
    positive width and height and target boxes that are valid boxes
    ([x2 >= x1], [y2 >= y1]), [get_deltas] returns, and [apply_deltas] on
    its deltas and the source boxes returns the target boxes, provided the
    clamp does not saturate: no scale delta, divided by its weight, exceeds
    [scale_clamp].  Over the reals the equality is exact. *)
Theorem get_apply_round_trip (self : t) (src tgt : list rbox) :
  weights_nonzero self ->
  length src = length tgt ->
  Forall (fun b => 0 < rwidth b /\ 0 < rheight b) src ->
  Forall (fun b => 0 <= rwidth b /\ 0 <= rheight b) tgt ->
  exists deltas,
    get_deltas self (map box_of src) (map box_of tgt) = Ok deltas
    /\ (Forall (unsaturated self) deltas ->
        apply_deltas self (map (fun d => [d]) deltas) (map box_of src)
        = Ok (map (fun b => [box_of b]) tgt)).
Proof.
  intros Hw Hlen Hsrc Htgt. unfold get_deltas.
  rewrite !length_map, Hlen, Nat.eqb_refl. cbn [negb].
  rewrite (widths_pass src Hsrc). cbn [py_assert bind].
  eexists. split; [reflexivity |].
  intros Hsat. unfold apply_deltas.
  rewrite !length_map, TensorFacts.map2_length, !length_map, Hlen,
    Nat.min_id, Nat.eqb_refl.
  cbn [negb]. f_equal.
  revert tgt Hlen Htgt Hsat.
  induction Hsrc as [|s src [Hsw Hsh] Hsrc IH];
    intros [|t tgt] Hlen Htgt Hsat; try discriminate; [reflexivity |].
  cbn [map Tensor.map2] in *.
  inversion Htgt as [|? ? [Htw Hth] Htgt']; subst.
  inversion Hsat as [|? ? Hd Hsat']; subst.
  rewrite (row_round_trip self s t Hw Hsw Hsh Htw Hth Hd).
  f_equal. apply IH; [now injection Hlen | assumption | assumption].
Qed.

Lemma apply_row_valid (self : t) (ds : list rbox) (b : rbox) :
  weights_nonzero self ->
  0 < rwidth b -> 0 < rheight b ->
  Forall valid_box (apply_deltas_row self (map delta_of ds) (box_of b)).
Proof.
  destruct b as [[[bx1 by1] bx2] by2].
  unfold weights_nonzero, rwidth, rheight.
  destruct self as [[[[wx wy] ww] wh] clamp]. cbn [weights].
  intros (Hwx & Hwy & Hww & Hwh) Hbw Hbh.
  unfold apply_deltas_row. cbn [weights scale_clamp box_of fin_box x1 y1 x2 y2].
  rewrite map_map. apply Forall_map, Forall_forall.
  intros [[[ddx ddy] ddw] ddh] _.
  cbn [delta_of fin_delta dx dy dw dh]. autorewrite with xfin.
  unfold valid_box. cbn [x1 y1 x2 y2 xle].
  pose proof (exp_pos (Rmin (ddw / ww) clamp)).
  pose proof (exp_pos (Rmin (ddh / wh) clamp)).
  split; nra.
Qed.

(** C10.  For a transform with non-zero weights, boxes of strictly
    positive width and height and real deltas, one or several groups per
    box, [apply_deltas] returns one predicted box per group, and every
    predicted box has [x2 >= x1] and [y2 >= y1]. *)
Theorem apply_deltas_valid (self : t) (deltas : list (list rbox))
        (boxes : list rbox) :
  weights_nonzero self ->
  length deltas = length boxes ->
  Forall (fun b => 0 < rwidth b /\ 0 < rheight b) boxes ->
  exists pred,
    apply_deltas self (map (map delta_of) deltas) (map box_of boxes)
    = Ok pred
    /\ Forall2 (fun p d => length p = length d) pred deltas
    /\ Forall (Forall valid_box) pred.
Proof.
  intros Hw Hlen Hb. unfold apply_deltas.
  rewrite !length_map, Hlen, Nat.eqb_refl. cbn [negb].
  eexists. split; [reflexivity |].
  revert deltas Hlen.
  induction Hb as [|b boxes [Hbw Hbh] Hb IH];
    intros [|ds deltas] Hlen; try discriminate.
  - split; constructor.
  - cbn [map Tensor.map2].
    destruct (IH deltas ltac:(now injection Hlen)) as [IH1 IH2].
    split; constructor; auto.
    + unfold apply_deltas_row. destruct (weights self) as [[[? ?] ?] ?].
      now rewrite !length_map.
    + now apply apply_row_valid.
Qed.

Lemma get_deltas_ok_inv self src tgt deltas :
  get_deltas self src tgt = Ok deltas ->
  deltas = Tensor.map2 (get_deltas_row self) src tgt.
Proof.
  unfold get_deltas.
  destruct (negb (length src =? length tgt)%nat); [discriminate |].
  destruct (forallb xgtb0 _); [|discriminate].
  cbn [py_assert bind]. now intros [= <-].
Qed.

Lemma unit_weights_nonzero : weights_nonzero unit_transform.
Proof. cbn. repeat split; lra. Qed.

(** Witness of [get_apply_round_trip]: the source (0, 0, 2, 2) and the
    target (1, 1, 5, 3); the scale deltas are [ln 2] and [ln 1], below
    the clamp [ln 62.5]. *)
Lemma get_apply_round_trip_witness :
  exists deltas,
    get_deltas unit_transform [fin_box 0 0 2 2] [fin_box 1 1 5 3]
    = Ok deltas
    /\ apply_deltas unit_transform (map (fun d => [d]) deltas)
                    [fin_box 0 0 2 2]
       = Ok [[fin_box 1 1 5 3]].
Proof.
  assert (Hsrc : Forall (fun b => 0 < rwidth b /\ 0 < rheight b)
                        [(0, 0, 2, 2)])
    by (repeat constructor; cbn; lra).
  assert (Htgt : Forall (fun b => 0 <= rwidth b /\ 0 <= rheight b)
                        [(1, 1, 5, 3)])
    by (repeat constructor; cbn; lra).
  destruct (get_apply_round_trip unit_transform [(0, 0, 2, 2)]
              [(1, 1, 5, 3)] unit_weights_nonzero eq_refl Hsrc Htgt)
    as (deltas & Hget & Happly).
  exists deltas. split; [exact Hget |]. apply Happly.
  apply get_deltas_ok_inv in Hget. subst deltas.
  cbn [map Tensor.map2]. constructor; [|constructor].
  unfold unsaturated, get_deltas_row, unit_transform, init.
  cbn [weights scale_clamp box_of fin_box x1 y1 x2 y2 dx dy dw dh].
  autorewrite with xfin.
  rewrite !xlog_pos by lra. autorewrite with xfin. cbn [xle].
  split.
  - replace (1 * ln ((5 - 1) / (2 - 0)) / 1) with (ln ((5 - 1) / (2 - 0)))
      by field.
    apply Rlt_le, ln_increasing; lra.
  - replace (1 * ln ((3 - 1) / (2 - 0)) / 1) with (ln ((3 - 1) / (2 - 0)))
      by field.
    apply Rlt_le, ln_increasing; lra.
Defined.

(** Witness of [apply_deltas_valid]: one box with two stacked groups of
    deltas, one of them with extreme scale deltas. *)
Lemma apply_deltas_valid_witness :
  exists pred,
    apply_deltas unit_transform
                 [[fin_delta 1 1 1 1; fin_delta 0 0 100 (-100)]]
                 [fin_box 0 0 2 2]
    = Ok pred
    /\ Forall2 (fun p d => length p = length d) pred
               [[(1, 1, 1, 1); (0, 0, 100, -100)]]
    /\ Forall (Forall valid_box) pred.
Proof.
  apply (apply_deltas_valid unit_transform
           [[(1, 1, 1, 1); (0, 0, 100, -100)]] [(0, 0, 2, 2)]
           unit_weights_nonzero eq_refl).
  repeat constructor; cbn; lra.
Defined.

Lemma xlog_neg a : a < 0 -> xlog (Fin a) = NaN.
Proof.
  intros Ha. unfold xlog.
  destruct (Rlt_dec 0 a); [lra |]. destruct (Req_dec_T a 0); [lra | easy].
Qed.

(** Validity of the target is needed.  On a target whose second corner
    lies before its first the round trip is lost: for the source
    (0, 0, 1, 1) and the target (2, 0, 1, 1) the width delta is [log(-1)],
    NaN, which no clamp catches, and the box that comes back has NaN for
    its x coordinates. *)
Lemma round_trip_inverted_target :
  get_deltas unit_transform [fin_box 0 0 1 1] [fin_box 2 0 1 1]
  = Ok [mkDelta (Fin 1) (Fin 0) NaN (Fin 0)]
  /\ exists py1 py2,
      apply_deltas unit_transform [[mkDelta (Fin 1) (Fin 0) NaN (Fin 0)]]
                   [fin_box 0 0 1 1]
      = Ok [[mkXBox NaN py1 NaN py2]]
      /\ mkXBox NaN py1 NaN py2 <> fin_box 2 0 1 1.
Proof.
  split.
  - unfold get_deltas. cbn [length Nat.eqb negb map x1 x2 fin_box].
    rewrite xsub_fin.
    assert (E : forallb xgtb0 [Fin (1 - 0)] = true).
    { cbn. destruct (Rlt_dec 0 (1 - 0)); [reflexivity | lra]. }
    rewrite E. cbn [py_assert bind Tensor.map2]. do 2 f_equal.
    unfold get_deltas_row, unit_transform, init.
    cbn [weights x1 y1 x2 y2 fin_box]. autorewrite with xfin.
    rewrite (xlog_neg ((1 - 2) / (1 - 0))) by lra.
    rewrite xlog_pos by lra. autorewrite with xfin. cbn [xmul].
    f_equal; f_equal; try field.
    replace ((1 - 0) / (1 - 0)) with 1 by field. rewrite ln_1. ring.
  - unfold apply_deltas, apply_deltas_row, unit_transform, init.
    cbn [length Nat.eqb negb Tensor.map2 map weights scale_clamp
         x1 y1 x2 y2 dx dy dw dh fin_box].
    autorewrite with xfin. cbn [xdiv xclamp_max xexp xmul xsub xadd xneg].
    do 2 eexists. split; [reflexivity | discriminate].
Qed.

(** What the assertion of [get_deltas] checks: the result is an
    assertion failure exactly when some source width is not positive;
    the source heights play no part. *)
Lemma get_deltas_asserts_widths (self : t) (src tgt : list rbox) :
  length src = length tgt ->
  (Forall (fun b => 0 < rwidth b) src ->
   exists deltas,
     get_deltas self (map box_of src) (map box_of tgt) = Ok deltas)
  /\ (Exists (fun b => rwidth b <= 0) src ->
      get_deltas self (map box_of src) (map box_of tgt)
      = Raise AssertionError).
Proof.
  intros Hlen. unfold get_deltas.
  rewrite !length_map, Hlen, Nat.eqb_refl. cbn [negb]. rewrite map_map.
  split.
  - intros H.
    assert (E : forallb xgtb0
                  (map (fun b => xsub (x2 (box_of b)) (x1 (box_of b))) src)
                = true).
    { apply forallb_forall. intros w Hw. apply in_map_iff in Hw.
      destruct Hw as ([[[a b] c] d] & <- & Hin).
      rewrite Forall_forall in H. specialize (H _ Hin).
      cbn in H |- *. destruct (Rlt_dec 0 (c + - a)); [reflexivity | lra]. }
    rewrite E. cbn [py_assert bind]. eauto.
  - intros H. apply Exists_exists in H.
    destruct H as ([[[a b] c] d] & Hin & Hle).
    assert (E : forallb xgtb0
                  (map (fun b => xsub (x2 (box_of b)) (x1 (box_of b))) src)
                = false).
    { apply not_true_is_false. intros E.
      rewrite forallb_forall in E.
      specialize (E _ (in_map _ _ _ Hin)).
      cbn in Hle, E. destruct (Rlt_dec 0 (c + - a)); [lra | discriminate]. }
    rewrite E. reflexivity.
Qed.

(** C5 (what the code does).  A source box of width 1 and height 0
    passes the assertion: [get_deltas] returns, with infinite deltas
    along y, where the specification asks for a failure. *)
Theorem get_deltas_zero_height_source :
  get_deltas unit_transform [fin_box 0 0 1 0] [fin_box 0 0 1 1]
  = Ok [mkDelta (Fin 0) PInf (Fin 0) PInf].
Proof.
  unfold get_deltas. cbn [length Nat.eqb negb map x1 x2 fin_box].
  rewrite xsub_fin.
  assert (E : forallb xgtb0 [Fin (1 - 0)] = true).
  { cbn. destruct (Rlt_dec 0 (1 - 0)); [reflexivity | lra]. }
  rewrite E. cbn [py_assert bind Tensor.map2]. do 2 f_equal.
  unfold get_deltas_row, unit_transform, init.
  cbn [weights x1 y1 x2 y2 fin_box]. autorewrite with xfin.
  rewrite xlog_pos by lra. autorewrite with xfin.
  f_equal.
  - f_equal. field.
  - unfold xdiv, inf_of_sign.
    destruct (Req_dec_T (0 - 0) 0); [|lra].
    destruct (Rlt_dec 0 (1 * (0 + 1 / 2 * (1 - 0) - (0 + 1 / 2 * (0 - 0)))));
      [reflexivity | lra].
  - f_equal. replace ((1 - 0) / (1 - 0)) with 1 by field.
    rewrite ln_1. ring.
  - unfold xdiv at 1, inf_of_sign.
    destruct (Req_dec_T (0 - 0) 0); [|lra].
    destruct (Rlt_dec 0 (1 - 0)); [|lra].
    cbn [xlog xmul]. unfold inf_of_sign.
    destruct (Rlt_dec 0 1); [reflexivity | lra].
Qed.

End Box2BoxTransformFacts.

(** ** AnchorGenerator *)

Module AnchorGeneratorFacts.
Import AnchorGenerator.

Section FlatMap.
Local Open Scope nat_scope.
Context {A B : Type} (f : A -> list B) (n : nat).
Hypothesis block : forall x, length (f x) = n.

Lemma flat_map_uniform_length (l : list A) :
  length (flat_map f l) = length l * n.
Proof.
  induction l as [|x l IH]; simpl; [reflexivity |].
  now rewrite length_app, block, IH.
Qed.

(** Entry [a] of block [i] of a concatenation of blocks of one length. *)
Lemma flat_map_uniform_nth (l : list A) (i a : nat) (x : A) :
  nth_error l i = Some x -> a < n ->
  nth_error (flat_map f l) (i * n + a) = nth_error (f x) a.
Proof.
  revert i. induction l as [|y l IH]; intros [|i] Hi Ha;
    try discriminate; cbn [flat_map].
  - injection Hi as ->. simpl.
    apply nth_error_app1. now rewrite block.
  - rewrite nth_error_app2 by (rewrite block; simpl; lia).
    rewrite block. replace (S i * n + a - n) with (i * n + a)
      by (simpl; lia).
    now apply IH.
Qed.
End FlatMap.

Lemma map2_app {A B C : Type} (f : A -> B -> C) l1 r1 l2 r2 :
  length l1 = length l2 ->
  Tensor.map2 f (l1 ++ r1) (l2 ++ r2)
  = Tensor.map2 f l1 l2 ++ Tensor.map2 f r1 r2.
Proof.
  revert l2. induction l1 as [|a l1 IH]; intros [|b l2] H;
    try discriminate; simpl; [reflexivity |].
  f_equal. apply IH. now injection H.
Qed.

(** The flattened [meshgrid], zipped: row by row, every x against the
    y of the row. *)
Lemma meshgrid_zip {C : Type} (f : R -> R -> C) (xs ys : list R) :
  Tensor.map2 f (flat_map (fun _ => xs) ys)
              (flat_map (fun y => map (fun _ => y) xs) ys)
  = flat_map (fun y => map (fun x => f x y) xs) ys.
Proof.
  induction ys as [|y ys IH]; cbn [flat_map]; [reflexivity |].
  rewrite map2_app by now rewrite length_map.
  rewrite IH. f_equal.
  clear. induction xs as [|x xs IH]; simpl; [reflexivity |].
  f_equal.
  change (Tensor.map2 f xs (map (fun _ => y) xs)
          = map (fun x => f x y) xs).
  now rewrite TensorFacts.map2_diag.
Qed.

Local Open Scope R_scope.

Lemma ceil_grid (n : nat) (off s : R) :
  0 <= off < 1 -> s <> 0 ->
  ceil ((INR n * s - off * s) / s) = Z.of_nat n.
Proof.
  intros Hoff Hs. unfold ceil.
  replace ((INR n * s - off * s) / s) with (INR n - off)
    by (field; exact Hs).
  rewrite <- (tech_up (- (INR n - off)) (1 - Z.of_nat n)).
  - lia.
  - rewrite minus_IZR, <- INR_IZR_INZ. lra.
  - rewrite minus_IZR, <- INR_IZR_INZ. lra.
Qed.

(** The shifts along one axis of a grid that is not empty, or of any grid
    when the offset is 0. *)
Lemma arange_grid (n : nat) (off s : R) :
  0 <= off < 1 -> 0 < s -> (0 < n)%nat \/ off = 0 ->
  arange (off * s) (INR n * s) s
  = Ok (map (fun k => off * s + INR k * s) (seq 0 n)).
Proof.
  intros Hoff Hs Hn. unfold arange.
  destruct (Req_dec_T s 0); [lra |].
  assert (Hq : (INR n * s - off * s) / s = INR n - off)
    by (field; lra).
  assert (H1 : off <= INR n).
  { destruct Hn as [Hn | ->]; [|apply pos_INR].
    apply Rle_trans with 1; [lra | apply (le_INR 1); lia]. }
  destruct (Rlt_dec ((INR n * s - off * s) / s) 0); [lra |].
  rewrite ceil_grid by (assumption || lra).
  now rewrite Nat2Z.id.
Qed.

Lemma grid_anchors_level_spec (H W : nat) (s : Z) (off : R)
      (base : list Anchor) :
  0 <= off < 1 -> (0 < s)%Z -> ((0 < H)%nat /\ (0 < W)%nat) \/ off = 0 ->
  exists level,
    grid_anchors_level (H, W) s off base = Ok level
    /\ length level = (H * W * length base)%nat
    /\ forall i j a b,
        (i < H)%nat -> (j < W)%nat -> nth_error base a = Some b ->
        nth_error level ((i * W + j) * length base + a)
        = Some (add4 (shift off s j, shift off s i,
                      shift off s j, shift off s i) b).
Proof.
  intros Hoff Hs Hgrid.
  assert (Hs' : 0 < IZR s) by now apply (IZR_lt 0).
  unfold grid_anchors_level, _create_grid_offsets.
  rewrite !arange_grid by (assumption || tauto). cbn [bind].
  rewrite (meshgrid_zip (fun x y => (x, y, x, y))).
  fold (shift off s).
  set (xs := map (shift off s) (seq 0 W)).
  set (ys := map (shift off s) (seq 0 H)).
  set (shifts := flat_map (fun y => map (fun x => (x, y, x, y)) xs) ys).
  assert (Hblock : forall y : R,
             length (map (fun x : R => (x, y, x, y)) xs) = W).
  { intros y. unfold xs. now rewrite !length_map, length_seq. }
  assert (Hbase : forall sh : Anchor,
             length (map (fun b => add4 sh b) base) = length base).
  { intros sh. now rewrite length_map. }
  eexists. split; [reflexivity |]. split.
  - rewrite (flat_map_uniform_length _ _ Hbase).
    unfold shifts. rewrite (flat_map_uniform_length _ _ Hblock).
    unfold ys. now rewrite length_map, length_seq.
  - intros i j a b Hi Hj Hb.
    assert (Hsh : nth_error shifts (i * W + j)
                  = Some (shift off s j, shift off s i,
                          shift off s j, shift off s i)).
    { unfold shifts.
      rewrite (flat_map_uniform_nth _ _ Hblock ys i j (shift off s i)).
      - unfold xs. rewrite !nth_error_map, nth_error_seq.
        destruct (Nat.ltb_spec j W); [reflexivity | lia].
      - unfold ys. rewrite nth_error_map, nth_error_seq.
        destruct (Nat.ltb_spec i H); [reflexivity | lia].
      - exact Hj. }
    rewrite (flat_map_uniform_nth _ _ Hbase shifts _ a _ Hsh).
    + now rewrite nth_error_map, Hb.
    + apply nth_error_Some. congruence.
Qed.

Lemma cell_anchor_ok size aspect_ratio :
  0 < aspect_ratio ->
  cell_anchor size aspect_ratio = Ok (zero_centred size aspect_ratio).
Proof.
  intros Hr. unfold cell_anchor.
  destruct (Req_dec_T aspect_ratio 0); [lra |].
  destruct (Rlt_dec (size * size / aspect_ratio) 0) as [Hneg |];
    [|reflexivity].
  exfalso. apply (Rlt_not_le _ _ Hneg).
  apply Rmult_le_pos; [nra | apply Rlt_le, Rinv_0_lt_compat, Hr].
Qed.

(** C8.  With an offset in [0, 1), positive strides and grids that are not
    empty (or any grids when the offset is 0), [grid_anchors] returns, and
    for every level of grid (H, W),
    stride s and A cell anchors its tensor has exactly H * W * A rows;
    row (i * W + j) * A + a is cell anchor a translated by
    (offset * s + j * s, offset * s + i * s).  For positive aspect ratios
    [generate_cell_anchors] returns, size by size and ratio by ratio, the
    zero-centred anchors (-w/2, -h/2, w/2, h/2) with
    w = sqrt(size^2 / ratio) and h = ratio * w. *)
Theorem grid_anchors_spec (self : t) (grid_sizes : list (nat * nat)) :
  0 <= offset self < 1 ->
  Forall (fun s => (0 < s)%Z) (strides self) ->
  Forall (fun hw => ((0 < fst hw)%nat /\ (0 < snd hw)%nat)
                    \/ offset self = 0) grid_sizes ->
  (exists anchors,
      grid_anchors self grid_sizes = Ok anchors
      /\ forall l H W s base,
          nth_error grid_sizes l = Some (H, W) ->
          nth_error (strides self) l = Some s ->
          nth_error (cell_anchors self) l = Some base ->
          exists level,
            nth_error anchors l = Some level
            /\ length level = (H * W * length base)%nat
            /\ forall i j a b,
                (i < H)%nat -> (j < W)%nat ->
                nth_error base a = Some b ->
                nth_error level ((i * W + j) * length base + a)
                = Some (add4 (shift (offset self) s j,
                              shift (offset self) s i,
                              shift (offset self) s j,
                              shift (offset self) s i) b))
  /\ (forall sizes aspect_ratios,
         Forall (fun r => 0 < r) aspect_ratios ->
         generate_cell_anchors sizes aspect_ratios
         = Ok (flat_map
                 (fun size => map (zero_centred size) aspect_ratios)
                 sizes)).
Proof.
  intros Hoff Hstr Hgrid. split.
  - unfold grid_anchors.
    set (f := fun '(size, (stride, base_anchors)) =>
                grid_anchors_level size stride (offset self) base_anchors).
    destruct (mapM_ok f
                (combine grid_sizes
                         (combine (strides self) (cell_anchors self))))
      as (anchors & Hm).
    { intros [[H W] [s base]] Hin.
      pose proof (in_combine_l _ _ _ _ Hin) as Hg.
      pose proof (in_combine_r _ _ _ _ Hin) as Hsb.
      apply in_combine_l in Hsb.
      rewrite Forall_forall in Hstr, Hgrid.
      pose proof (Hgrid _ Hg) as HHW. cbn [fst snd] in HHW.
      destruct (grid_anchors_level_spec H W s (offset self) base Hoff
                  (Hstr _ Hsb) HHW) as (level & Hl & _).
      exists level. exact Hl. }
    exists anchors. split; [exact Hm |].
    intros l H W s base Hg Hs Hb.
    pose proof (nth_error_combine _ _ _ _ _ Hg
                  (nth_error_combine _ _ _ _ _ Hs Hb)) as Hc.
    destruct (mapM_nth f _ _ _ _ Hm Hc) as (level & Hlev & Hf).
    exists level. split; [exact Hlev |].
    rewrite Forall_forall in Hstr, Hgrid.
    pose proof (Hgrid _ (nth_error_In _ _ Hg)) as HHW.
    cbn [fst snd] in HHW.
    destruct (grid_anchors_level_spec H W s (offset self) base Hoff
                (Hstr _ (nth_error_In _ _ Hs)) HHW)
      as (level' & Hl & Hlen & Hnth).
    unfold f in Hf. rewrite Hl in Hf. injection Hf as <-.
    split; [exact Hlen | exact Hnth].
  - intros sizes aspect_ratios Hr. unfold generate_cell_anchors.
    rewrite (mapM_ok_pure _ (fun size => map (zero_centred size)
                                             aspect_ratios)).
    + cbn [bind]. now rewrite flat_map_concat_map.
    + intros size _. apply mapM_ok_pure. intros r Hin.
      rewrite Forall_forall in Hr. apply cell_anchor_ok, Hr, Hin.
Qed.

(** Witness of [grid_anchors_spec]: on a 2 x 2 grid the generator above
    yields 36 anchors. *)
Lemma grid_anchors_witness :
  exists anchors level,
    grid_anchors demo_generator [(2, 2)%nat] = Ok anchors
    /\ nth_error anchors 0 = Some level
    /\ length level = 36%nat.
Proof.
  destruct (grid_anchors_spec demo_generator [(2, 2)%nat])
    as [(anchors & Hg & Hl) _].
  - cbn. lra.
  - repeat constructor.
  - constructor; [|constructor]. left. cbn. lia.
  - destruct (Hl 0%nat 2%nat 2%nat 16%Z _ eq_refl eq_refl eq_refl)
      as (level & H1 & H2 & _).
    exists anchors, level. repeat split; assumption.
Defined.

End AnchorGeneratorFacts.

(** ** Clipping, emptiness and intersection over area *)

Module BoxGeometryFacts.
Import Tensor TensorFacts BoxOps BoxOpsFacts.

Lemma clamp_bounds q lo hi : lo <= hi -> lo <= clamp q lo hi <= hi.
Proof.
  intros H. unfold clamp. split.
  - apply Q.min_glb; [apply Q.le_max_r | exact H].
  - apply Q.le_min_r.
Qed.

Ltac clamp_cases :=
  unfold clamp;
  repeat match goal with
         | |- context [Qmin ?a ?b] =>
             lazymatch goal with
             | _ : Qmin a b == _ |- _ => fail
             | _ => destruct (Q.min_spec a b) as [[? ?]|[? ?]]
             end
         | |- context [Qmax ?a ?b] =>
             lazymatch goal with
             | _ : Qmax a b == _ |- _ => fail
             | _ => destruct (Q.max_spec a b) as [[? ?]|[? ?]]
             end
         end.

Lemma clamp_mono q q' lo hi : q <= q' -> clamp q lo hi <= clamp q' lo hi.
Proof. intros H. clamp_cases; lra. Qed.

Lemma clamp_contracts q q' lo hi :
  q <= q' -> clamp q' lo hi - clamp q lo hi <= q' - q.
Proof. intros H. clamp_cases; lra. Qed.

Lemma clamp_inside q lo hi : lo <= q <= hi -> clamp q lo hi == q.
Proof. intros [H1 H2]. clamp_cases; lra. Qed.

Lemma clamp_idempotent q lo hi :
  clamp (clamp q lo hi) lo hi == clamp q lo hi.
Proof. clamp_cases; lra. Qed.

(** X1.  [_clip_box] with a non-negative image size puts all four
    coordinates into the image, keeps the corners of a box in order and
    never makes a side longer. *)
Theorem clip_box_inside_image (b : Box) (h w : Q) :
  0 <= h -> 0 <= w ->
  let c := _clip_box b (h, w) in
  inside_image c (h, w)
  /\ (bx1 b <= bx2 b -> bx1 c <= bx2 c /\ width c <= width b)
  /\ (by1 b <= by2 b -> by1 c <= by2 c /\ height c <= height b).
Proof.
  intros Hh Hw c. subst c. unfold inside_image, width, height. cbn.
  pose proof (clamp_bounds (bx1 b) 0 w Hw).
  pose proof (clamp_bounds (bx2 b) 0 w Hw).
  pose proof (clamp_bounds (by1 b) 0 h Hh).
  pose proof (clamp_bounds (by2 b) 0 h Hh).
  repeat split; try tauto.
  - now apply clamp_mono.
  - now apply clamp_contracts.
  - now apply clamp_mono.
  - now apply clamp_contracts.
Qed.

Lemma clip_box_inside_image_witness :
  let c := _clip_box (mkBox (-3) 2 50 70) (40, 30) in
  inside_image c (40, 30)
  /\ (bx1 (mkBox (-3) 2 50 70) <= bx2 (mkBox (-3) 2 50 70) ->
      bx1 c <= bx2 c /\ width c <= width (mkBox (-3) 2 50 70))
  /\ (by1 (mkBox (-3) 2 50 70) <= by2 (mkBox (-3) 2 50 70) ->
      by1 c <= by2 c /\ height c <= height (mkBox (-3) 2 50 70)).
Proof.
  apply (clip_box_inside_image (mkBox (-3) 2 50 70) 40 30); lra.
Defined.

(** X2.  Clipping twice is clipping once, whatever the image size, and a
    box that lies in the image is not moved. *)
Theorem clip_box_idempotent (b : Box) (box_size : Q * Q) :
  box_eq (_clip_box (_clip_box b box_size) box_size) (_clip_box b box_size)
  /\ (inside_image b box_size -> box_eq (_clip_box b box_size) b).
Proof.
  destruct box_size as [h w]. unfold box_eq, inside_image. cbn. split.
  - repeat split; apply clamp_idempotent.
  - intros [[Hx1 Hx2] [Hy1 Hy2]].
    repeat split; now apply clamp_inside.
Qed.

Lemma clip_box_idempotent_witness :
  box_eq (_clip_box (mkBox 1 2 20 30) (40, 30)) (mkBox 1 2 20 30).
Proof.
  apply (proj2 (clip_box_idempotent (mkBox 1 2 20 30) (40, 30))).
  unfold inside_image. cbn. lra.
Defined.

(** X3.  A box that [_nonempty_boxes] keeps at a non-negative threshold
    has an area above the square of the threshold and overlaps itself
    completely: its IoU with itself is 1. *)
Theorem nonempty_boxes_positive (b : Box) (threshold : Q) :
  0 <= threshold ->
  _nonempty_boxes b threshold = true ->
  threshold * threshold < area b /\ iou b b == 1.
Proof.
  intros Ht H. unfold _nonempty_boxes in H.
  apply andb_true_iff in H. destruct H as [Hw Hh].
  apply Qltb_lt in Hw. apply Qltb_lt in Hh. split.
  - unfold area. nra.
  - apply iou_self; lra.
Qed.

Lemma nonempty_boxes_positive_witness :
  (1 # 2) * (1 # 2) < area (mkBox 0 0 2 3)
  /\ iou (mkBox 0 0 2 3) (mkBox 0 0 2 3) == 1.
Proof.
  apply (nonempty_boxes_positive (mkBox 0 0 2 3) (1 # 2));
    [lra | reflexivity].
Defined.

Lemma pairwise_ioa_entries (boxes1 boxes2 : list Box) :
  pairwise_ioa boxes1 boxes2 = map (fun a => map (ioa a) boxes2) boxes1.
Proof.
  unfold pairwise_ioa, pairwise_intersection.
  rewrite map_map. apply map_ext; intros a.
  rewrite map2_map_same. reflexivity.
Qed.

Lemma ioa_bounds a b : iou a b <= ioa a b /\ ioa a b <= 1.
Proof.
  unfold iou, ioa. destruct (Qltb 0 (intersection a b)) eqn:E.
  - apply Qltb_lt in E.
    destruct (intersection_pos a b E) as [Ha Hb].
    assert (Hd : 0 < area a + area b - intersection a b) by lra.
    assert (Hb' : 0 < area b) by lra.
    split.
    + apply Qle_shift_div_r; [exact Hd |].
      assert (Hk : 0 <= intersection a b / area b)
        by (apply Qle_shift_div_l; lra).
      assert (Ek : intersection a b / area b * area b == intersection a b)
        by (field; lra).
      revert Hk Ek. generalize (intersection a b / area b). intros k Hk Ek.
      nra.
    + apply Qle_shift_div_r; lra.
  - lra.
Qed.

(** X4.  Every entry of [pairwise_ioa] is at most 1 and at least the
    entry of [pairwise_iou] for the same pair (which is at least 0), for
    all boxes, empty or inverted ones included. *)
Theorem pairwise_ioa_bounds (A B : list Box) :
  Forall (Forall (fun q => 0 <= q <= 1)) (pairwise_ioa A B)
  /\ Forall2 (Forall2 Qle) (pairwise_iou A B) (pairwise_ioa A B).
Proof.
  rewrite pairwise_ioa_entries, pairwise_iou_entries. split.
  - apply Forall_map, Forall_forall. intros a _.
    apply Forall_map, Forall_forall. intros b _.
    pose proof (ioa_bounds a b). pose proof (iou_bounds a b). lra.
  - apply Forall2_map_same. intros a _.
    apply Forall2_map_same. intros b _. apply ioa_bounds.
Qed.

Lemma intersection_contained a b :
  0 < width b -> 0 < height b -> contains a b ->
  intersection a b == area b.
Proof.
  unfold intersection, area, width, height, contains, clamp_min0.
  intros Hw Hh [[H1 H2] [H3 H4]].
  rewrite (Q.min_r (bx2 a) (bx2 b)), (Q.max_r (bx1 a) (bx1 b)) by assumption.
  rewrite (Q.min_r (by2 a) (by2 b)), (Q.max_r (by1 a) (by1 b)) by assumption.
  rewrite (Q.max_l (bx2 b - bx1 b) 0), (Q.max_l (by2 b - by1 b) 0) by lra.
  reflexivity.
Qed.

(** X5.  The intersection over area of a pair is 1 when the second box
    has positive sides and lies in the first, and 0 when the two boxes
    do not overlap. *)
Theorem pairwise_ioa_contained (A B : list Box) i j a b :
  nth_error A i = Some a -> nth_error B j = Some b ->
  exists v,
    entry (pairwise_ioa A B) i j = Some v
    /\ (0 < width b -> 0 < height b -> contains a b -> v == 1)
    /\ (intersection a b == 0 -> v = 0).
Proof.
  intros Ha Hb. exists (ioa a b).
  rewrite pairwise_ioa_entries.
  rewrite (entry_map_map ioa A B i j a b Ha Hb). split; [reflexivity |].
  unfold ioa. split.
  - intros Hw Hh Hc.
    pose proof (intersection_contained a b Hw Hh Hc) as E.
    assert (0 < area b) by (unfold area; nra).
    destruct (Qltb 0 (intersection a b)) eqn:E1.
    + rewrite E. field. lra.
    + apply Qltb_ge in E1. lra.
  - intros E. destruct (Qltb 0 (intersection a b)) eqn:E1; auto.
    apply Qltb_lt in E1. lra.
Qed.

Lemma pairwise_ioa_contained_witness :
  exists v,
    entry (pairwise_ioa [mkBox 0 0 10 10] [mkBox 2 2 4 5]) 0 0 = Some v
    /\ v == 1.
Proof.
  destruct (pairwise_ioa_contained [mkBox 0 0 10 10] [mkBox 2 2 4 5] 0 0
              (mkBox 0 0 10 10) (mkBox 2 2 4 5) eq_refl eq_refl)
    as (v & Hv & H1 & _).
  exists v. split; [exact Hv |].
  apply H1; unfold width, height, contains; cbn; lra.
Defined.

Lemma intersection_nonneg a b : 0 <= intersection a b.
Proof.
  unfold intersection. apply Qmult_le_0_compat; apply clamp_min0_nonneg.
Qed.

(** X6.  [pairwise_intersection(A, B)] is the transpose of
    [pairwise_intersection(B, A)], no entry is negative, and the entry
    of two boxes whose corners are in order is at most the area of
    either. *)
Theorem pairwise_intersection_properties (A B : list Box) :
  Forall2 (Forall2 Qeq) (pairwise_intersection A B)
          (transpose (length A) (pairwise_intersection B A))
  /\ Forall (Forall (fun q => 0 <= q)) (pairwise_intersection A B)
  /\ (forall i j a b,
         nth_error A i = Some a -> nth_error B j = Some b ->
         ordered a -> ordered b ->
         exists v, entry (pairwise_intersection A B) i j = Some v
                   /\ v <= area a /\ v <= area b).
Proof.
  unfold pairwise_intersection. repeat split.
  - unfold transpose.
    rewrite <- (map_nth_seq zero_box A) at 1. rewrite map_map.
    apply Forall2_map_same. intros j Hj. apply in_seq in Hj.
    rewrite map_map. apply Forall2_map_same. intros b _.
    rewrite (nth_indep _ 0 (intersection b zero_box))
      by (rewrite length_map; lia).
    rewrite (map_nth (intersection b)). apply intersection_sym.
  - apply Forall_map, Forall_forall. intros a _.
    apply Forall_map, Forall_forall. intros b _. apply intersection_nonneg.
  - intros i j a b Ha Hb [Ha1 Ha2] [Hb1 Hb2].
    exists (intersection a b).
    split; [exact (entry_map_map intersection A B i j a b Ha Hb) |].
    destruct (Qlt_le_dec 0 (intersection a b)) as [Hp | Hz].
    + now apply intersection_pos.
    + unfold area, width, height. split; nra.
Qed.

Lemma pairwise_intersection_properties_witness :
  exists v,
    entry (pairwise_intersection [mkBox 0 0 4 4] [mkBox 2 2 6 6]) 0 0
    = Some v
    /\ v <= area (mkBox 0 0 4 4) /\ v <= area (mkBox 2 2 6 6).
Proof.
  apply (proj2 (proj2 (pairwise_intersection_properties
                         [mkBox 0 0 4 4] [mkBox 2 2 6 6]))
           0%nat 0%nat (mkBox 0 0 4 4) (mkBox 2 2 6 6) eq_refl eq_refl);
    unfold ordered; cbn; lra.
Defined.

End BoxGeometryFacts.

(** ** Matcher: construction, best matches and bands *)

Module MatcherCallFacts.
Import Tensor TensorFacts Matcher MatcherFacts.

Lemma split_map {A B C : Type} (f : A -> B * C) (l : list A) :
  List.split (map f l) = (map (fun a => fst (f a)) l,
                          map (fun a => snd (f a)) l).
Proof.
  induction l as [|a l IH]; [reflexivity |].
  simpl. rewrite IH. now destruct (f a).
Qed.

Lemma map2_repeat {A B C : Type} (f : A -> B -> C) (l : list A) (b : B) :
  map2 f l (repeat b (length l)) = map (fun a => f a b) l.
Proof. induction l as [|a l IH]; simpl; [reflexivity | now rewrite IH]. Qed.

Lemma max_dim0_fst q :
  fst (max_dim0 q)
  = map (fun j => fst (vec_max (column j (rows q)))) (seq 0 (ncols q)).
Proof. unfold max_dim0. now rewrite split_map. Qed.

Lemma max_dim0_snd q :
  snd (max_dim0 q)
  = map (fun j => snd (vec_max (column j (rows q)))) (seq 0 (ncols q)).
Proof. unfold max_dim0. now rewrite split_map. Qed.

(** [call] on a matrix that has elements, all of them non-negative. *)
Lemma call_unfold (m : t) (q : Tensor2 Q) :
  numel q <> 0%nat ->
  Forall (Forall (fun v => 0 <= v)) (rows q) ->
  call m q
  = Ok (snd (max_dim0 q),
        if allow_low_quality_matches m
        then rescue (stratify m (fst (max_dim0 q))) (highest_quality_inds q)
        else stratify m (fst (max_dim0 q))).
Proof.
  intros En Hnn. unfold call.
  apply Nat.eqb_neq in En. rewrite En.
  assert (Hassert : forallb (forallb (Qle_bool 0)) (rows q) = true).
  { apply forallb_forall. intros row Hrow. apply forallb_forall.
    intros v Hv. apply Qle_bool_iff.
    rewrite Forall_forall in Hnn. specialize (Hnn row Hrow).
    rewrite Forall_forall in Hnn. now apply Hnn. }
  rewrite Hassert. cbn [py_assert bind].
  pose proof (max_dim0_fst q) as Hf. pose proof (max_dim0_snd q) as Hs.
  destruct (max_dim0 q) as [mv mt]. cbn [fst snd] in *.
  assert (Hlen : length mt = length mv).
  { rewrite Hf, Hs. now rewrite !length_map. }
  match goal with
  | |- context [fold_left ?f ?b ?i] =>
      change (fold_left f b i) with (fold_left (band_step mv) (bands m) i)
  end.
  rewrite fold_bands by (rewrite repeat_length; exact Hlen).
  rewrite Hlen, map2_repeat. fold (stratify m mv).
  destruct (allow_low_quality_matches m); [| reflexivity].
  now rewrite set_low_quality_matches_rescue.
Qed.

Lemma max_from_index best bi i l :
  let r := max_from best bi i l in
  (r = (best, bi))
  \/ ((i <= snd r < i + length l)%nat
      /\ nth_error l (snd r - i) = Some (fst r)).
Proof.
  revert best bi i. induction l as [|x l IH]; intros best bi i; simpl.
  - now left.
  - destruct (Qltb best x).
    + right. destruct (IH x i (S i)) as [E | [Hk Hn]].
      * rewrite E. cbn [fst snd]. split; [lia |].
        now rewrite Nat.sub_diag.
      * split; [lia |].
        replace (snd (max_from x i (S i) l) - i)%nat
          with (S (snd (max_from x i (S i) l) - S i)) by lia.
        exact Hn.
    + destruct (IH best bi (S i)) as [E | [Hk Hn]].
      * now left.
      * right. split; [lia |].
        replace (snd (max_from best bi (S i) l) - i)%nat
          with (S (snd (max_from best bi (S i) l) - S i)) by lia.
        exact Hn.
Qed.

(** The index [t.max()] returns points at the maximum. *)
Lemma vec_max_index l :
  l <> [] -> nth_error l (snd (vec_max l)) = Some (fst (vec_max l)).
Proof.
  destruct l as [|x l]; [congruence | intros _].
  unfold vec_max. destruct (max_from_index x 0%nat 1%nat l) as [E | [Hk Hn]].
  - now rewrite E.
  - destruct (snd (max_from x 0 1 l)) as [|k]; [lia |].
    cbn [nth_error]. now replace (S k - 1)%nat with k in Hn by lia.
Qed.

Lemma nth_error_column j rows i :
  nth_error (column j rows) i
  = option_map (fun row => nth j row 0) (nth_error rows i).
Proof. unfold column. apply nth_error_map. Qed.

Lemma entry_column (q : Tensor2 Q) i j :
  wf q -> (j < ncols q)%nat ->
  entry (rows q) i j = nth_error (column j (rows q)) i.
Proof.
  intros Hwf Hj. rewrite nth_error_column. unfold entry.
  destruct (nth_error (rows q) i) as [row|] eqn:E; [|reflexivity].
  cbn [option_map]. apply nth_error_nth'.
  unfold wf in Hwf. rewrite Forall_forall in Hwf.
  rewrite (Hwf row) by (eapply nth_error_In, E). exact Hj.
Qed.

Lemma column_max_vec_max (q : Tensor2 Q) j :
  wf q -> (0 < nrows q)%nat -> (j < ncols q)%nat ->
  entry (rows q) (snd (vec_max (column j (rows q)))) j
  = Some (fst (vec_max (column j (rows q))))
  /\ column_max q j (fst (vec_max (column j (rows q)))).
Proof.
  intros Hwf HM Hj.
  assert (Hne : column j (rows q) <> []).
  { unfold column, nrows in *. destruct (rows q); simpl in *;
      [lia | congruence]. }
  assert (E : entry (rows q) (snd (vec_max (column j (rows q)))) j
              = Some (fst (vec_max (column j (rows q))))).
  { rewrite entry_column by assumption. now apply vec_max_index. }
  split; [exact E |]. split.
  - eexists. exact E.
  - intros i v' Hv'. rewrite entry_column in Hv' by assumption.
    apply (proj1 (vec_max_spec _ Hne)). eapply nth_error_In, Hv'.
Qed.

(** X7.  On a matrix with at least one row and one column, all entries
    non-negative, the matcher returns for every prediction [j] a match
    [i] that is a row of the matrix and whose quality is the largest of
    column [j]. *)
Theorem matcher_matches_best (m : t) (q : Tensor2 Q) :
  wf q ->
  (0 < nrows q)%nat -> (0 < ncols q)%nat ->
  Forall (Forall (fun v => 0 <= v)) (rows q) ->
  exists matches match_labels,
    call m q = Ok (matches, match_labels)
    /\ length matches = ncols q
    /\ forall j, (j < ncols q)%nat ->
         exists i v,
           nth_error matches j = Some i
           /\ (i < nrows q)%nat
           /\ entry (rows q) i j = Some v
           /\ column_max q j v.
Proof.
  intros Hwf HM HN Hnn.
  assert (En : numel q <> 0%nat) by (unfold numel; nia).
  rewrite (call_unfold m q En Hnn). eexists _, _.
  split; [reflexivity |]. rewrite max_dim0_snd.
  split; [now rewrite length_map, length_seq |].
  intros j Hj.
  destruct (column_max_vec_max q j Hwf HM Hj) as [E Hmax].
  exists (snd (vec_max (column j (rows q)))),
         (fst (vec_max (column j (rows q)))).
  split.
  - rewrite nth_error_map, nth_error_seq.
    apply Nat.ltb_lt in Hj. now rewrite Hj.
  - split; [| split; assumption].
    unfold entry in E. unfold nrows. apply nth_error_Some.
    destruct (nth_error (rows q) _); [discriminate | discriminate].
Qed.

Lemma matcher_matches_best_witness :
  exists matches match_labels,
    call (mkMatcher [NegInf; Finite (1 # 2); PosInf] [0; 1]%Z false)
         (mkTensor2 3 [[1 # 10; 4 # 10; 9 # 10]; [2 # 10; 0; 1 # 10]])
    = Ok (matches, match_labels)
    /\ length matches = 3%nat.
Proof.
  destruct (matcher_matches_best
              (mkMatcher [NegInf; Finite (1 # 2); PosInf] [0; 1]%Z false)
              (mkTensor2 3 [[1 # 10; 4 # 10; 9 # 10]; [2 # 10; 0; 1 # 10]]))
    as (matches & match_labels & H1 & H2 & _).
  - repeat constructor.
  - unfold nrows; simpl; lia.
  - simpl; lia.
  - repeat constructor; unfold Qle; simpl; lia.
  - exists matches, match_labels. split; assumption.
Defined.

(** *** The constructor *)

Lemma adjacent_sorted (thr : list bound) :
  forallb (fun lh => bound_leb (fst lh) (snd lh))
          (combine (removelast thr) (tl thr)) = true
  <-> Sorted leb_bound_rel thr.
Proof.
  induction thr as [|a thr IH]; [simpl; split; auto |].
  destruct thr as [|b thr].
  - simpl. split; auto.
  - change (combine (removelast (a :: b :: thr)) (tl (a :: b :: thr)))
      with ((a, b) :: combine (removelast (b :: thr)) (tl (b :: thr))).
    cbn [forallb fst snd]. rewrite andb_true_iff, IH. split.
    + intros [H1 H2]. constructor; [exact H2 | now constructor].
    + intros H. inversion H as [|? ? H2 H1]; subst.
      inversion H1; subst. now split.
Qed.

Lemma sorted_with_infinities (ths : list Q) :
  Sorted leb_bound_rel (NegInf :: map Finite ths ++ [PosInf])
  <-> nondecreasing ths.
Proof.
  unfold nondecreasing. split.
  - intros H. apply Sorted_inv in H. destruct H as [H _].
    induction ths as [|a ths IH]; [constructor |].
    simpl in H. apply Sorted_inv in H. destruct H as [H1 H2].
    constructor; [now apply IH |].
    destruct ths as [|b ths]; constructor.
    simpl in H2. inversion H2; subst. now apply Qle_bool_iff.
  - intros H. constructor; [| destruct ths; now constructor].
    induction H as [|a ths H1 IH H2]; simpl.
    + repeat constructor.
    + constructor; [exact IH |].
      destruct H2 as [|b ths H2]; simpl; constructor; [reflexivity |].
      now apply Qle_bool_iff.
Qed.

Lemma labels_allowed (lbls : list Z) :
  forallb (fun l => existsb (Z.eqb l) [-1; 0; 1]%Z) lbls = true
  <-> Forall (fun l => l = (-1)%Z \/ l = 0%Z \/ l = 1%Z) lbls.
Proof.
  rewrite forallb_forall, Forall_forall.
  split; intros H l Hl; specialize (H l Hl).
  - cbn [existsb] in H.
    rewrite orb_false_r, !orb_true_iff, !Z.eqb_eq in H. tauto.
  - cbn [existsb]. rewrite orb_false_r, !orb_true_iff, !Z.eqb_eq. tauto.
Qed.

Lemma init_ok_iff ths lbls allow m :
  init ths lbls allow = Ok m
  <-> ths <> [] /\ well_configured ths lbls
      /\ m = mkMatcher (NegInf :: map Finite ths ++ [PosInf]) lbls allow.
Proof.
  unfold init, well_configured. destruct ths as [|t0 ths].
  - split; [discriminate | intros [H _]; congruence].
  - set (thr := NegInf :: map Finite (t0 :: ths) ++ [PosInf]).
    pose proof (adjacent_sorted thr) as Hs.
    pose proof (sorted_with_infinities (t0 :: ths)) as Hs'. fold thr in Hs'.
    pose proof (labels_allowed lbls) as Hl.
    assert (Hn : (length lbls =? length thr - 1)%nat = true
                 <-> length lbls = S (length (t0 :: ths))).
    { rewrite Nat.eqb_eq. unfold thr. cbn [length].
      rewrite length_app, length_map. cbn [length]. lia. }
    cbn [hd].
    destruct (Qltb 0 t0) eqn:E0; cbn [py_assert bind].
    2:{ apply Qltb_ge in E0. split; [discriminate |].
        intros (_ & (H & _) & _). lra. }
    apply Qltb_lt in E0.
    destruct (forallb _ (combine (removelast thr) (tl thr)));
      cbn [py_assert bind].
    2:{ split; [discriminate |]. intros (_ & (_ & H & _) & _).
        apply Hs', Hs in H. discriminate. }
    destruct (forallb _ lbls); cbn [py_assert bind].
    2:{ split; [discriminate |]. intros (_ & (_ & _ & H & _) & _).
        apply Hl in H. discriminate. }
    destruct (length lbls =? length thr - 1)%nat; cbn [py_assert bind].
    2:{ split; [discriminate |]. intros (_ & (_ & _ & _ & H) & _).
        apply Hn in H. discriminate. }
    split.
    + intros H. injection H as <-.
      split; [discriminate |]. split; [| reflexivity].
      split; [exact E0 |]. split; [now apply Hs', Hs |].
      split; [now apply Hl | now apply Hn].
    + intros (_ & _ & ->). reflexivity.
Qed.

Lemma init_total ths lbls allow :
  ths <> [] ->
  (exists m, init ths lbls allow = Ok m)
  \/ init ths lbls allow = Raise AssertionError.
Proof.
  unfold init. destruct ths as [|t0 ths]; [congruence | intros _].
  repeat match goal with
         | |- context [py_assert ?b] =>
             destruct b; cbn [py_assert bind]; [| now right]
         end.
  left. now eexists.
Qed.

(** X8.  The constructor of [Matcher] raises [IndexError] on an empty
    threshold list; on a non-empty list it succeeds exactly when the
    first threshold is positive, the thresholds are non-decreasing, every
    label is -1, 0 or 1 and there is one label more than thresholds, and
    raises [AssertionError] otherwise.  The constructed matcher holds the
    thresholds between -inf and +inf. *)
Theorem matcher_init_cases (ths : list Q) (lbls : list Z) (allow : bool) :
  (ths = [] -> init ths lbls allow = Raise IndexError)
  /\ (ths <> [] ->
      (well_configured ths lbls ->
       init ths lbls allow
       = Ok (mkMatcher (NegInf :: map Finite ths ++ [PosInf]) lbls allow))
      /\ (~ well_configured ths lbls ->
          init ths lbls allow = Raise AssertionError)).
Proof.
  split; [intros ->; reflexivity |].
  intros Hne. split.
  - intros Hw. apply init_ok_iff.
    split; [exact Hne | split; [exact Hw | reflexivity]].
  - intros Hw.
    destruct (init_total ths lbls allow Hne) as [[m Hm] | H].
    + apply init_ok_iff in Hm. tauto.
    + exact H.
Qed.

Lemma matcher_init_cases_witness :
  init [3 # 10; 7 # 10] [0; -1; 1]%Z true
  = Ok (mkMatcher (NegInf :: map Finite [3 # 10; 7 # 10] ++ [PosInf])
                  [0; -1; 1]%Z true).
Proof.
  apply (proj2 (matcher_init_cases [3 # 10; 7 # 10] [0; -1; 1]%Z true));
    [discriminate |].
  unfold well_configured, nondecreasing. cbn [hd length].
  split; [lra |]. split; [| split; [| reflexivity]].
  - repeat constructor. unfold Qle; simpl; lia.
  - repeat (apply Forall_cons; [lia |]). apply Forall_nil.
Defined.

(** *** The bands *)

Lemma bound_leb_refl a : bound_leb a a = true.
Proof. destruct a; simpl; auto. apply Qle_bool_iff, Qle_refl. Qed.

Lemma bound_leb_trans a b c :
  bound_leb a b = true -> bound_leb b c = true -> bound_leb a c = true.
Proof.
  destruct a, b, c; simpl; auto; try discriminate.
  rewrite !Qle_bool_iff. apply Qle_trans.
Qed.

(** A quality below a threshold is below every threshold after it. *)
Lemma below_later_bound v b c :
  ltb_bound v b = true -> bound_leb b c = true -> geb_bound v c = false.
Proof.
  destruct b as [|x|], c as [|y|]; simpl; auto; try discriminate.
  intros H1 H2. apply Qltb_lt in H1. apply Qle_bool_iff in H2.
  apply not_true_iff_false. rewrite Qle_bool_iff. lra.
Qed.

Lemma In_removelast {A : Type} (x : A) (l : list A) :
  In x (removelast l) -> In x l.
Proof.
  induction l as [|a l IH]; [auto |].
  destruct l as [|b l]; [intros [] |].
  change (removelast (a :: b :: l)) with (a :: removelast (b :: l)).
  intros [-> | H]; [now left | right; now apply IH].
Qed.

Lemma label_of_none bnds v l0 :
  (forall b, In b bnds -> in_band v (snd b) = false) ->
  label_of bnds v l0 = l0.
Proof.
  revert l0. induction bnds as [|b bnds IH]; intros l0 H; [reflexivity |].
  unfold label_of. cbn [fold_left].
  rewrite (H b) by now left.
  apply IH. intros b' Hb'. apply H. now right.
Qed.

Lemma label_of_above b r ls v l0 :
  ltb_bound v b = true ->
  StronglySorted leb_bound_rel (b :: r) ->
  label_of (combine ls (combine (removelast (b :: r)) r)) v l0 = l0.
Proof.
  intros Hv Hs. apply label_of_none. intros [l' [lo' hi']] Hin.
  apply in_combine_r, in_combine_l, In_removelast in Hin.
  unfold in_band. cbn [fst snd].
  rewrite (below_later_bound v b lo' Hv); [reflexivity |].
  destruct Hin as [<- | Hin]; [apply bound_leb_refl |].
  apply StronglySorted_inv in Hs. destruct Hs as [_ Hs].
  rewrite Forall_forall in Hs. now apply Hs.
Qed.

(** In a non-decreasing threshold list the loop leaves the label of the
    band that holds the quality, whatever bands come after it. *)
Lemma label_of_band v k : forall thr lbls l0 l lo hi,
  StronglySorted leb_bound_rel thr ->
  nth_error lbls k = Some l ->
  nth_error thr k = Some lo ->
  nth_error thr (S k) = Some hi ->
  in_band v (lo, hi) = true ->
  label_of (combine lbls (combine (removelast thr) (tl thr))) v l0 = l.
Proof.
  induction k as [|k IH]; intros thr lbls l0 l lo hi Hs Hl Hlo Hhi Hb.
  - destruct thr as [|a [|b r]]; try discriminate.
    destruct lbls as [|x ls]; [discriminate |].
    cbn in Hl, Hlo, Hhi. injection Hl as ->. injection Hlo as ->.
    injection Hhi as ->.
    change (combine (l :: ls)
                    (combine (removelast (lo :: hi :: r)) (tl (lo :: hi :: r))))
      with ((l, (lo, hi)) :: combine ls (combine (removelast (hi :: r)) r)).
    unfold label_of. cbn [fold_left fst snd]. rewrite Hb.
    apply label_of_above.
    + unfold in_band in Hb. cbn [fst snd] in Hb.
      now apply andb_true_iff in Hb.
    + now apply StronglySorted_inv in Hs.
  - destruct thr as [|a [|b r]]; try discriminate.
    destruct lbls as [|x ls]; [discriminate |].
    change (combine (x :: ls)
                    (combine (removelast (a :: b :: r)) (tl (a :: b :: r))))
      with ((x, (a, b))
              :: combine ls (combine (removelast (b :: r)) (tl (b :: r)))).
    unfold label_of. cbn [fold_left].
    apply (IH (b :: r) ls _ l lo hi); auto.
    now apply StronglySorted_inv in Hs.
Qed.

Lemma in_band_Qeq v v' lh : v == v' -> in_band v lh = in_band v' lh.
Proof.
  intros E. destruct lh as [lo hi]. unfold in_band. cbn [fst snd].
  f_equal.
  - destruct lo as [|x|]; simpl; auto.
    destruct (Qle_bool x v) eqn:E1, (Qle_bool x v') eqn:E2; auto.
    + apply Qle_bool_iff in E1. rewrite E in E1.
      apply Qle_bool_iff in E1. congruence.
    + apply Qle_bool_iff in E2. rewrite <- E in E2.
      apply Qle_bool_iff in E2. congruence.
  - destruct hi as [|x|]; simpl; auto. unfold Qltb. f_equal.
    destruct (Qle_bool x v) eqn:E1, (Qle_bool x v') eqn:E2; auto.
    + apply Qle_bool_iff in E1. rewrite E in E1.
      apply Qle_bool_iff in E1. congruence.
    + apply Qle_bool_iff in E2. rewrite <- E in E2.
      apply Qle_bool_iff in E2. congruence.
Qed.

Lemma column_max_unique q j v v' :
  column_max q j v -> column_max q j v' -> v == v'.
Proof.
  intros [[i Hi] Hub] [[i' Hi'] Hub'].
  apply Qle_antisym; [eapply Hub', Hi | eapply Hub, Hi'].
Qed.

Lemma constructed_sorted ths lbls allow m :
  init ths lbls allow = Ok m ->
  StronglySorted leb_bound_rel (thresholds m).
Proof.
  intros H. apply init_ok_iff in H. destruct H as (_ & (_ & Hs & _) & ->).
  cbn [thresholds]. apply Sorted_StronglySorted.
  - intros a b c. apply bound_leb_trans.
  - now apply sorted_with_infinities.
Qed.

(** X9.  A constructed matcher without low-quality matches labels every
    prediction by the band its best quality falls in: if the largest
    quality [v] of column [j] satisfies
    [thresholds[k] <= v < thresholds[k+1]], prediction [j] gets
    [labels[k]]. *)
Theorem matcher_band_label ths lbls m (q : Tensor2 Q) :
  init ths lbls false = Ok m ->
  wf q ->
  (0 < nrows q)%nat -> (0 < ncols q)%nat ->
  Forall (Forall (fun v => 0 <= v)) (rows q) ->
  exists matches match_labels,
    call m q = Ok (matches, match_labels)
    /\ forall j v k l lo hi,
         (j < ncols q)%nat ->
         column_max q j v ->
         nth_error (labels m) k = Some l ->
         nth_error (thresholds m) k = Some lo ->
         nth_error (thresholds m) (S k) = Some hi ->
         in_band v (lo, hi) = true ->
         nth_error match_labels j = Some l.
Proof.
  intros Hinit Hwf HM HN Hnn.
  pose proof (constructed_sorted _ _ _ _ Hinit) as Hs.
  assert (Ha : allow_low_quality_matches m = false).
  { apply init_ok_iff in Hinit. now destruct Hinit as (_ & _ & ->). }
  assert (En : numel q <> 0%nat) by (unfold numel; nia).
  rewrite (call_unfold m q En Hnn), Ha. eexists _, _.
  split; [reflexivity |].
  intros j v k l lo hi Hj Hv Hl Hlo Hhi Hb.
  unfold stratify. rewrite max_dim0_fst, map_map.
  rewrite nth_error_map, nth_error_seq.
  apply Nat.ltb_lt in Hj. rewrite Hj. apply Nat.ltb_lt in Hj.
  cbn [option_map Nat.add]. f_equal.
  destruct (column_max_vec_max q j Hwf HM Hj) as [_ Hmax].
  rewrite (in_band_Qeq _ _ _ (column_max_unique _ _ _ _ Hv Hmax)) in Hb.
  now apply (label_of_band _ k (thresholds m) (labels m) 1%Z l lo hi).
Qed.

Lemma matcher_band_label_witness :
  exists m matches match_labels,
    init [3 # 10; 7 # 10] [0; -1; 1]%Z false = Ok m
    /\ call m (mkTensor2 2 [[9 # 10; 1 # 2]; [1 # 10; 1 # 5]])
       = Ok (matches, match_labels)
    /\ nth_error match_labels 1 = Some (-1)%Z.
Proof.
  eexists.
  destruct (matcher_band_label [3 # 10; 7 # 10] [0; -1; 1]%Z _
              (mkTensor2 2 [[9 # 10; 1 # 2]; [1 # 10; 1 # 5]]) eq_refl)
    as (matches & match_labels & Hc & Hl).
  - repeat constructor.
  - unfold nrows; simpl; lia.
  - simpl; lia.
  - repeat constructor; unfold Qle; simpl; lia.
  - exists matches, match_labels.
    split; [reflexivity |]. split; [exact Hc |].
    apply (Hl 1%nat (1 # 2) 1%nat (-1)%Z (Finite (3 # 10)) (Finite (7 # 10)));
      try reflexivity; [simpl; lia |].
    split.
    + exists 0%nat. reflexivity.
    + intros [|[|i]] v' Hv'; cbn in Hv'.
      * injection Hv' as <-. lra.
      * injection Hv' as <-. lra.
      * destruct i; discriminate.
Defined.

(** *** Low-quality matches *)

Lemma in_highest_quality_inds (q : Tensor2 Q) j :
  wf q -> (j < ncols q)%nat ->
  In j (highest_quality_inds q)
  <-> exists row, In row (rows q) /\ row_max_at row j.
Proof.
  intros Hwf Hj. unfold highest_quality_inds.
  unfold wf in Hwf. rewrite Forall_forall in Hwf.
  rewrite in_concat. split.
  - intros (l & Hl & Hin).
    apply in_map_iff in Hl. destruct Hl as (mask & <- & Hmask).
    apply in_map_iff in Hmask. destruct Hmask as (row & <- & Hrow).
    exists row. split; [exact Hrow |].
    assert (Hjr : (j < length row)%nat) by (rewrite (Hwf row Hrow); exact Hj).
    apply row_max_at_iff; [exact Hjr |].
    apply in_nonzero in Hin. rewrite nth_error_map in Hin.
    rewrite (nth_error_nth' row 0 Hjr) in Hin. cbn [option_map] in Hin.
    injection Hin as Hin. now apply Qeq_bool_iff.
  - intros (row & Hrow & Hmax).
    assert (Hjr : (j < length row)%nat) by (rewrite (Hwf row Hrow); exact Hj).
    apply row_max_at_iff in Hmax; [| exact Hjr].
    exists (nonzero (map (fun v => Qeq_bool v (fst (vec_max row))) row)).
    split.
    + apply in_map, in_map_iff. exists row. now split.
    + apply in_nonzero. rewrite nth_error_map.
      rewrite (nth_error_nth' row 0 Hjr). cbn [option_map].
      f_equal. now apply Qeq_bool_iff.
Qed.

(** X10.  Allowing low-quality matches changes no match, and changes a
    label only into 1: the label of prediction [j] becomes 1 when [j]
    holds the largest quality of some ground-truth row, and stays what
    the bands gave otherwise. *)
Theorem low_quality_matches_only_promote
        (thr : list bound) (lbls : list Z) (q : Tensor2 Q) :
  wf q ->
  (0 < nrows q)%nat -> (0 < ncols q)%nat ->
  Forall (Forall (fun v => 0 <= v)) (rows q) ->
  exists matches strict rescued,
    call (mkMatcher thr lbls false) q = Ok (matches, strict)
    /\ call (mkMatcher thr lbls true) q = Ok (matches, rescued)
    /\ length strict = ncols q
    /\ length rescued = ncols q
    /\ forall j, (j < ncols q)%nat ->
         ((exists row, In row (rows q) /\ row_max_at row j) ->
          nth_error rescued j = Some 1%Z)
         /\ (~ (exists row, In row (rows q) /\ row_max_at row j) ->
             nth_error rescued j = nth_error strict j).
Proof.
  intros Hwf HM HN Hnn.
  assert (En : numel q <> 0%nat) by (unfold numel; nia).
  rewrite !(call_unfold _ q En Hnn). cbn [allow_low_quality_matches].
  change (stratify (mkMatcher thr lbls true))
    with (stratify (mkMatcher thr lbls false)).
  set (L := stratify (mkMatcher thr lbls false) (fst (max_dim0 q))).
  assert (HL : length L = ncols q).
  { unfold L, stratify. now rewrite max_dim0_fst, !length_map, length_seq. }
  exists (snd (max_dim0 q)), L, (rescue L (highest_quality_inds q)).
  split; [reflexivity |]. split; [reflexivity |].
  split; [exact HL |]. split; [now rewrite rescue_length |].
  intros j Hj. rewrite rescue_nth, HL.
  apply Nat.ltb_lt in Hj. rewrite Hj, andb_true_r. apply Nat.ltb_lt in Hj.
  pose proof (in_highest_quality_inds q j Hwf Hj) as Hin.
  destruct (existsb (Nat.eqb j) (highest_quality_inds q)) eqn:E.
  - split; [reflexivity |]. intros Hno. exfalso. apply Hno, Hin.
    apply existsb_exists in E. destruct E as (k & Hk & Ejk).
    apply Nat.eqb_eq in Ejk. now subst k.
  - split; [| reflexivity]. intros Hex. apply Hin in Hex.
    assert (existsb (Nat.eqb j) (highest_quality_inds q) = true).
    { apply existsb_exists. exists j. split; [exact Hex |].
      apply Nat.eqb_refl. }
    congruence.
Qed.

Lemma low_quality_matches_only_promote_witness :
  exists matches strict rescued,
    call (mkMatcher [NegInf; Finite (1 # 2); PosInf] [0; 1]%Z false)
         (mkTensor2 2 [[1 # 10; 4 # 10]; [2 # 10; 3 # 10]])
    = Ok (matches, strict)
    /\ call (mkMatcher [NegInf; Finite (1 # 2); PosInf] [0; 1]%Z true)
            (mkTensor2 2 [[1 # 10; 4 # 10]; [2 # 10; 3 # 10]])
       = Ok (matches, rescued)
    /\ length strict = 2%nat /\ length rescued = 2%nat.
Proof.
  destruct (low_quality_matches_only_promote
              [NegInf; Finite (1 # 2); PosInf] [0; 1]%Z
              (mkTensor2 2 [[1 # 10; 4 # 10]; [2 # 10; 3 # 10]]))
    as (matches & strict & rescued & H1 & H2 & H3 & H4 & _).
  - repeat constructor.
  - unfold nrows; simpl; lia.
  - simpl; lia.
  - repeat constructor; unfold Qle; simpl; lia.
  - exists matches, strict, rescued. repeat split; assumption.
Defined.

End MatcherCallFacts.

(** ** Subsampling: filling the batch, resampling, proposal classes *)

Module ResampleFacts.
Import Tensor TensorFacts Sampling SamplingFacts.

Lemma in_nonzero_map {A : Type} (f : A -> bool) (l : list A) i :
  In i (nonzero (map f l))
  <-> exists a, nth_error l i = Some a /\ f a = true.
Proof.
  rewrite in_nonzero, nth_error_map.
  destruct (nth_error l i) as [a|]; cbn [option_map].
  - split.
    + intros H. injection H as H. now exists a.
    + intros (a' & E & H). injection E as <-. now rewrite H.
  - split; [discriminate | intros (a & E & _); discriminate].
Qed.

Lemma floor_fraction_bounds (num_samples : Z) (positive_fraction : Q) :
  (0 <= num_samples)%Z -> 0 <= positive_fraction <= 1 ->
  py_int (inject_Z num_samples * positive_fraction)
  = Qfloor (positive_fraction * inject_Z num_samples)
  /\ (0 <= Qfloor (positive_fraction * inject_Z num_samples)
      <= num_samples)%Z.
Proof.
  intros Hn [Hf0 Hf1].
  assert (H0 : 0 <= inject_Z num_samples).
  { replace 0 with (inject_Z 0) by reflexivity. now rewrite <- Zle_Qle. }
  split; [| split].
  - rewrite py_int_floor by (apply Qmult_le_0_compat; assumption).
    apply Qfloor_comp. ring.
  - rewrite <- (Qfloor_Z 0). apply Qfloor_resp_le.
    apply Qmult_le_0_compat; assumption.
  - rewrite <- (Qfloor_Z num_samples) at 2. apply Qfloor_resp_le. nra.
Qed.






Lemma filter_none {A : Type} (f : A -> bool) (l : list A) :
  (forall x, In x l -> f x = false) -> filter f l = [].
Proof.
  induction l as [|a l IH]; intros H; [reflexivity |].
  simpl. rewrite (H a) by now left. apply IH. intros x Hx. apply H. now right.
Qed.

Lemma filter_all {A : Type} (f : A -> bool) (l : list A) :
  (forall x, In x l -> f x = true) -> filter f l = l.
Proof.
  induction l as [|a l IH]; intros H; [reflexivity |].
  simpl. rewrite (H a) by now left. f_equal.
  apply IH. intros x Hx. apply H. now right.
Qed.

Lemma nth_error_map2 {A B C : Type} (f : A -> B -> C) l l' i :
  nth_error (map2 f l l') i
  = match nth_error l i, nth_error l' i with
    | Some a, Some b => Some (f a b)
    | _, _ => None
    end.
Proof.
  revert l' i. induction l as [|a l IH]; intros [|b l'] [|i]; simpl; auto.
  destruct (nth_error l i); reflexivity.
Qed.

(** The class vector [_sample_proposals] builds when there is ground
    truth, entry by entry. *)
Lemma proposal_classes_entry (num_classes : Z) (matched_labels g1 : list Z)
      i l c :
  nth_error matched_labels i = Some l -> nth_error g1 i = Some c ->
  nth_error
    (masked_fill (map (fun l => (l =? -1)%Z) matched_labels) (-1)%Z
       (masked_fill (map (fun l => (l =? 0)%Z) matched_labels)
                    num_classes g1)) i
  = Some (if (l =? -1)%Z then (-1)%Z
          else if (l =? 0)%Z then num_classes else c).
Proof.
  intros Hl Hc. unfold masked_fill.
  rewrite !nth_error_map2, !nth_error_map, Hl, Hc. reflexivity.
Qed.

Section WithRandperm.
Variable rng : Type.
Variable randperm : rng -> nat -> list nat * rng.
Hypothesis randperm_permutation :
  forall g n, Permutation (fst (randperm g n)) (seq 0 n).

(** The two index vectors of [subsample_labels]: distinct members of the
    positive and of the negative indices, in the numbers the code
    computes. *)
Lemma subsample_labels_shape (g : rng) (labels : list Z)
      (num_samples : Z) (positive_fraction : Q) (bg_label : Z) :
  (0 <= num_samples)%Z ->
  0 <= positive_fraction <= 1 ->
  let positive := nonzero (map (is_positive bg_label) labels) in
  let negative := nonzero (map (is_negative bg_label) labels) in
  let num_pos :=
    Z.min (Z.of_nat (length positive))
          (Qfloor (positive_fraction * inject_Z num_samples)) in
  let num_neg :=
    Z.min (Z.of_nat (length negative)) (num_samples - num_pos) in
  let '(pos_idx, neg_idx, _) :=
    subsample_labels randperm g labels num_samples positive_fraction
                     bg_label in
  (NoDup pos_idx /\ incl pos_idx positive
   /\ Z.of_nat (length pos_idx) = num_pos)
  /\ (NoDup neg_idx /\ incl neg_idx negative
      /\ Z.of_nat (length neg_idx) = num_neg)
  /\ (0 <= num_pos <= num_samples)%Z.
Proof.
  intros Hn Hf positive negative num_pos num_neg.
  destruct (floor_fraction_bounds num_samples positive_fraction Hn Hf)
    as [Hraw Hraw0].
  unfold subsample_labels.
  change (fun l => negb (l =? -1)%Z && negb (l =? bg_label)%Z)
    with (is_positive bg_label).
  change (fun l => (l =? bg_label)%Z) with (is_negative bg_label).
  fold positive negative. rewrite Hraw. fold num_pos num_neg.
  pose proof (randperm_permutation g (length positive)) as Hp1.
  destruct (randperm g (length positive)) as [p1 g1]. cbn [fst] in Hp1.
  pose proof (randperm_permutation g1 (length negative)) as Hp2.
  destruct (randperm g1 (length negative)) as [p2 g2]. cbn [fst] in Hp2.
  assert (Hnp : (0 <= num_pos <= num_samples)%Z) by (unfold num_pos; lia).
  assert (Hnn : (0 <= num_neg)%Z) by (unfold num_neg; lia).
  unfold slice_to.
  destruct (Z.leb_spec 0 num_pos) as [_ | ?]; [|lia].
  destruct (Z.leb_spec 0 num_neg) as [_ | ?]; [|lia].
  destruct (select_prefix positive p1 (Z.to_nat num_pos))
    as (Hnd1 & Hin1 & Hl1);
    [apply nonzero_NoDup | exact Hp1 | unfold num_pos; lia |].
  destruct (select_prefix negative p2 (Z.to_nat num_neg))
    as (Hnd2 & Hin2 & Hl2);
    [apply nonzero_NoDup | exact Hp2 | unfold num_neg; lia |].
  repeat split; try assumption; try lia.
Qed.

(** X11.  [subsample_labels] fills what the positives leave with
    negatives: the number of negatives is the minimum of the number of
    background labels and [num_samples] minus the positives taken; so
    with enough background labels exactly [num_samples] indices are
    returned, and when the positives are fewer than their quota all of
    them are returned. *)
Theorem subsample_labels_fills (g : rng) (labels : list Z)
        (num_samples : Z) (positive_fraction : Q) (bg_label : Z) :
  (0 <= num_samples)%Z ->
  0 <= positive_fraction <= 1 ->
  let '(pos_idx, neg_idx, _) :=
    subsample_labels randperm g labels num_samples positive_fraction
                     bg_label in
  let backgrounds :=
    Z.of_nat (length (filter (is_negative bg_label) labels)) in
  let positives :=
    Z.of_nat (length (filter (is_positive bg_label) labels)) in
  Z.of_nat (length neg_idx)
  = Z.min backgrounds (num_samples - Z.of_nat (length pos_idx))
  /\ ((num_samples - Z.of_nat (length pos_idx) <= backgrounds)%Z ->
      Z.of_nat (length pos_idx + length neg_idx) = num_samples)
  /\ ((positives <= Qfloor (positive_fraction * inject_Z num_samples))%Z ->
      Permutation pos_idx (nonzero (map (is_positive bg_label) labels))).
Proof.
  intros Hn Hf.
  pose proof (subsample_labels_shape g labels num_samples positive_fraction
                bg_label Hn Hf) as H.
  cbv zeta in H.
  destruct (subsample_labels randperm g labels num_samples positive_fraction
                             bg_label) as [[pos_idx neg_idx] g'].
  destruct H as ((Hnd1 & Hin1 & Hl1) & (Hnd2 & Hin2 & Hl2) & Hr).
  rewrite !nonzero_length_filter in *. cbv zeta.
  rewrite <- Hl1 in Hl2. split; [exact Hl2 |]. split.
  - intros Hb. lia.
  - intros Hp. apply NoDup_Permutation_bis; try assumption.
    rewrite nonzero_length_filter. lia.
Qed.


(** X13.  [_sample_proposals] with ground truth: for matches that point
    into [gt_classes], classes in [0, num_classes) and matcher labels in
    {-1, 0, 1}, it returns distinct proposal indices, at most
    [batch_size_per_image] of them, each with its class; a sampled
    proposal is never an ignored one: either its label is 1 and its
    class is the class of its matched ground truth, or its label is 0
    and its class is the background class [num_classes]. *)
Theorem sample_proposals_spec
        (num_classes batch_size_per_image : Z)
        (positive_sample_fraction : Q) (g : rng)
        (matched_idxs : list nat) (matched_labels gt_classes : list Z) :
  (0 <= batch_size_per_image)%Z ->
  0 <= positive_sample_fraction <= 1 ->
  gt_classes <> [] ->
  length matched_labels = length matched_idxs ->
  Forall (fun i => (i < length gt_classes)%nat) matched_idxs ->
  Forall (fun c => (0 <= c < num_classes)%Z) gt_classes ->
  Forall (fun l => l = (-1)%Z \/ l = 0%Z \/ l = 1%Z) matched_labels ->
  exists sampled_idxs classes g',
    _sample_proposals randperm num_classes batch_size_per_image
                      positive_sample_fraction g
                      matched_idxs matched_labels gt_classes
    = Ok (sampled_idxs, classes, g')
    /\ NoDup sampled_idxs
    /\ length classes = length sampled_idxs
    /\ (Z.of_nat (length sampled_idxs) <= batch_size_per_image)%Z
    /\ forall k i, nth_error sampled_idxs k = Some i ->
         (nth_error matched_labels i = Some 1%Z
          /\ exists m c, nth_error matched_idxs i = Some m
                         /\ nth_error gt_classes m = Some c
                         /\ nth_error classes k = Some c)
         \/ (nth_error matched_labels i = Some 0%Z
             /\ nth_error classes k = Some num_classes).
Proof.
  intros Hn Hf Hgt Hlen Hidx Hcls Hlab. unfold _sample_proposals.
  assert (Hhas : (0 <? length gt_classes)%nat = true).
  { apply Nat.ltb_lt. destruct gt_classes; simpl; [congruence | lia]. }
  assert (Hnc : (0 < num_classes)%Z).
  { destruct gt_classes as [|c0 ?]; [congruence |].
    apply Forall_inv in Hcls. lia. }
  rewrite Hhas.
  rewrite (mapM_ok_pure _ (fun i => nth i gt_classes 0%Z)).
  2:{ intros i Hi. rewrite Forall_forall in Hidx.
      now rewrite (nth_error_nth' gt_classes 0%Z (Hidx i Hi)). }
  cbn [bind]. rewrite length_map.
  apply Nat.eqb_eq in Hlen. rewrite Hlen. apply Nat.eqb_eq in Hlen.
  cbn [bind].
  set (g1 := map (fun i => nth i gt_classes 0%Z) matched_idxs).
  set (cls := masked_fill _ (-1)%Z _).
  assert (Hentry : forall i l m,
             nth_error matched_labels i = Some l ->
             nth_error matched_idxs i = Some m ->
             nth_error cls i
             = Some (if (l =? -1)%Z then (-1)%Z
                     else if (l =? 0)%Z then num_classes
                          else nth m gt_classes 0%Z)).
  { intros i l m Hl Hm. unfold cls.
    apply proposal_classes_entry; [exact Hl |].
    unfold g1. now rewrite nth_error_map, Hm. }
  assert (Hcases : forall i c,
             nth_error cls i = Some c ->
             exists l m, nth_error matched_labels i = Some l
                         /\ nth_error matched_idxs i = Some m
                         /\ c = (if (l =? -1)%Z then (-1)%Z
                                 else if (l =? 0)%Z then num_classes
                                      else nth m gt_classes 0%Z)).
  { intros i c Hc.
    assert (Hi : (i < length cls)%nat)
      by (apply nth_error_Some; congruence).
    unfold cls, masked_fill in Hi.
    rewrite !map2_length, !length_map in Hi. unfold g1 in Hi.
    rewrite length_map in Hi.
    destruct (nth_error matched_labels i) as [l|] eqn:El;
      [| apply nth_error_None in El; lia].
    destruct (nth_error matched_idxs i) as [m|] eqn:Em;
      [| apply nth_error_None in Em; lia].
    exists l, m. rewrite (Hentry i l m El Em) in Hc.
    injection Hc as <-. auto. }
  pose proof (subsample_labels_shape g cls batch_size_per_image
                positive_sample_fraction num_classes Hn Hf) as H.
  cbv zeta in H.
  destruct (subsample_labels randperm g cls batch_size_per_image
                             positive_sample_fraction num_classes)
    as [[fg bg] g'].
  destruct H as ((Hnd1 & Hin1 & Hl1) & (Hnd2 & Hin2 & Hl2) & Hr).
  rewrite Forall_forall in Hlab, Hidx, Hcls.
  assert (Hfg : forall i, In i fg ->
            nth_error matched_labels i = Some 1%Z
            /\ exists m c, nth_error matched_idxs i = Some m
                           /\ nth_error gt_classes m = Some c
                           /\ nth_error cls i = Some c).
  { intros i Hi. apply Hin1, in_nonzero_map in Hi.
    destruct Hi as (c & Ec & Hc).
    destruct (Hcases i c Ec) as (l & m & El & Em & Hcl).
    unfold is_positive in Hc. apply andb_true_iff in Hc.
    destruct Hc as [Hc1 Hc2]. apply negb_true_iff, Z.eqb_neq in Hc1, Hc2.
    pose proof (Hidx m (nth_error_In _ _ Em)) as Hm.
    destruct (Hlab l (nth_error_In _ _ El)) as [-> | [-> | ->]];
      cbn in Hcl; try congruence.
    split; [exact El |]. exists m, c.
    split; [exact Em |]. split; [| exact Ec].
    subst c. now apply nth_error_nth'. }
  assert (Hbg : forall i, In i bg ->
            nth_error matched_labels i = Some 0%Z
            /\ nth_error cls i = Some num_classes).
  { intros i Hi. apply Hin2, in_nonzero_map in Hi.
    destruct Hi as (c & Ec & Hc).
    destruct (Hcases i c Ec) as (l & m & El & Em & Hcl).
    unfold is_negative in Hc. apply Z.eqb_eq in Hc. subst c.
    pose proof (Hidx m (nth_error_In _ _ Em)) as Hm.
    split; [| exact Ec].
    destruct (Hlab l (nth_error_In _ _ El)) as [-> | [-> | ->]];
      cbn in Hcl.
    - lia.
    - exact El.
    - pose proof (Hcls _ (nth_In gt_classes 0%Z Hm)). lia. }
  exists (fg ++ bg), (index_select 0%Z cls (fg ++ bg)), g'.
  split; [reflexivity |]. split; [| split; [| split]].
  - apply NoDup_app; [exact Hnd1 | exact Hnd2 |].
    intros i H1 H2. apply Hfg in H1. apply Hbg in H2.
    destruct H1 as [H1 _], H2 as [H2 _]. congruence.
  - unfold index_select. now rewrite length_map.
  - rewrite length_app. lia.
  - intros k i Hk. unfold index_select.
    rewrite nth_error_map, Hk. cbn [option_map].
    apply nth_error_In, in_app_or in Hk. destruct Hk as [Hk | Hk].
    + left. destruct (Hfg i Hk) as (El & m & c & Em & Ec & Ei).
      split; [exact El |]. exists m, c.
      split; [exact Em |]. split; [exact Ec |].
      f_equal. now apply nth_error_nth.
    + right. destruct (Hbg i Hk) as (El & Ei).
      split; [exact El |]. f_equal. now apply nth_error_nth.
Qed.

(** X14.  [_sample_proposals] without ground truth does not read the
    matches or the matcher labels: every proposal counts as background,
    [min(N, batch_size_per_image)] distinct proposals are sampled and
    the class of each is [num_classes]. *)
Theorem sample_proposals_no_gt
        (num_classes batch_size_per_image : Z)
        (positive_sample_fraction : Q) (g : rng)
        (matched_idxs : list nat) (matched_labels : list Z) :
  (0 <= batch_size_per_image)%Z ->
  0 <= positive_sample_fraction <= 1 ->
  exists sampled_idxs classes g',
    _sample_proposals randperm num_classes batch_size_per_image
                      positive_sample_fraction g
                      matched_idxs matched_labels []
    = Ok (sampled_idxs, classes, g')
    /\ NoDup sampled_idxs
    /\ Forall (fun i => (i < length matched_idxs)%nat) sampled_idxs
    /\ Z.of_nat (length sampled_idxs)
       = Z.min (Z.of_nat (length matched_idxs)) batch_size_per_image
    /\ classes = repeat num_classes (length sampled_idxs).
Proof.
  intros Hn Hf. unfold _sample_proposals. cbn [length Nat.ltb Nat.leb bind].
  set (cls := map (fun _ => (0 + num_classes)%Z) matched_idxs).
  assert (Hcls : forall i, (i < length matched_idxs)%nat ->
                           nth_error cls i = Some num_classes).
  { intros i Hi. unfold cls. rewrite nth_error_map.
    destruct (nth_error matched_idxs i) eqn:E;
      [reflexivity | apply nth_error_None in E; lia]. }
  assert (Hall : forall c, In c cls -> c = num_classes).
  { intros c Hc. unfold cls in Hc. apply in_map_iff in Hc.
    destruct Hc as (? & <- & _). lia. }
  pose proof (subsample_labels_shape g cls batch_size_per_image
                positive_sample_fraction num_classes Hn Hf) as H.
  cbv zeta in H.
  destruct (subsample_labels randperm g cls batch_size_per_image
                             positive_sample_fraction num_classes)
    as [[fg bg] g'].
  destruct H as ((Hnd1 & Hin1 & Hl1) & (Hnd2 & Hin2 & Hl2) & Hr).
  rewrite !nonzero_length_filter in *.
  assert (Hnopos : filter (is_positive num_classes) cls = []).
  { apply filter_none.
    intros c Hc. rewrite (Hall c Hc). unfold is_positive.
    now rewrite Z.eqb_refl, andb_false_r. }
  assert (Hallneg : filter (is_negative num_classes) cls = cls).
  { apply filter_all.
    intros c Hc. rewrite (Hall c Hc). apply Z.eqb_refl. }
  rewrite Hnopos in *. rewrite Hallneg in *. cbn [length] in *.
  assert (Hfg : fg = []) by (destruct fg; [reflexivity | simpl in Hl1; lia]).
  subst fg. cbn [app].
  assert (Hrange : forall i, In i bg -> (i < length matched_idxs)%nat).
  { intros i Hi. apply Hin2, in_nonzero_map in Hi.
    destruct Hi as (c & Ec & _).
    assert (i < length cls)%nat by (apply nth_error_Some; congruence).
    unfold cls in *. now rewrite length_map in *. }
  exists bg, (index_select 0%Z cls bg), g'.
  split; [reflexivity |]. split; [exact Hnd2 |].
  split; [now apply Forall_forall |]. split.
  - rewrite Hl2. unfold cls. rewrite length_map. lia.
  - unfold index_select. clear -Hrange Hcls.
    induction bg as [|i bg IH]; [reflexivity |].
    cbn [map length repeat]. f_equal.
    + apply nth_error_nth. apply Hcls, Hrange. now left.
    + apply IH. intros j Hj. apply Hrange. now right.
Qed.
End WithRandperm.

Lemma reversing_randperm_permutation g n :
  Permutation (fst (reversing_randperm g n)) (seq 0 n).
Proof. apply Permutation_sym, Permutation_rev. Qed.

Lemma subsample_labels_fills_witness :
  let '(pos_idx, neg_idx, _) :=
    subsample_labels reversing_randperm tt
                     [1; 0; -1; 1; 0; 1; 0]%Z 4 (1 # 2) 0 in
  Z.of_nat (length neg_idx)
  = Z.min (Z.of_nat (length (filter (is_negative 0) [1; 0; -1; 1; 0; 1; 0]%Z)))
          (4 - Z.of_nat (length pos_idx)).
Proof.
  pose proof (subsample_labels_fills unit reversing_randperm
                reversing_randperm_permutation
                tt [1; 0; -1; 1; 0; 1; 0]%Z 4 (1 # 2) 0
                ltac:(lia) ltac:(split; unfold Qle; simpl; lia)) as H.
  destruct (subsample_labels reversing_randperm tt
              [1; 0; -1; 1; 0; 1; 0]%Z 4 (1 # 2) 0) as [[pos_idx neg_idx] g'].
  exact (proj1 H).
Defined.


Lemma sample_proposals_spec_witness :
  exists sampled_idxs classes g',
    _sample_proposals reversing_randperm 10 2 (1 # 2) tt
                      [0; 1; 0]%nat [1; 0; -1]%Z [3; 5]%Z
    = Ok (sampled_idxs, classes, g')
    /\ NoDup sampled_idxs
    /\ length classes = length sampled_idxs.
Proof.
  destruct (sample_proposals_spec unit reversing_randperm
              reversing_randperm_permutation 10 2 (1 # 2) tt
              [0; 1; 0]%nat [1; 0; -1]%Z [3; 5]%Z)
    as (sampled_idxs & classes & g' & H1 & H2 & H3 & _).
  - lia.
  - split; unfold Qle; simpl; lia.
  - discriminate.
  - reflexivity.
  - repeat (apply Forall_cons; [simpl; lia |]). apply Forall_nil.
  - repeat (apply Forall_cons; [lia |]). apply Forall_nil.
  - repeat (apply Forall_cons; [lia |]). apply Forall_nil.
  - exists sampled_idxs, classes, g'. repeat split; assumption.
Defined.

Lemma sample_proposals_no_gt_witness :
  exists sampled_idxs classes g',
    _sample_proposals reversing_randperm 10 2 (1 # 2) tt
                      [0; 0; 0]%nat [0; 0; 0]%Z []
    = Ok (sampled_idxs, classes, g')
    /\ Z.of_nat (length sampled_idxs) = 2%Z
    /\ classes = repeat 10%Z (length sampled_idxs).
Proof.
  destruct (sample_proposals_no_gt unit reversing_randperm
              reversing_randperm_permutation 10 2 (1 # 2) tt
              [0; 0; 0]%nat [0; 0; 0]%Z)
    as (sampled_idxs & classes & g' & H1 & _ & _ & H4 & H5).
  - lia.
  - split; unfold Qle; simpl; lia.
  - exists sampled_idxs, classes, g'. repeat split; assumption.
Defined.

End ResampleFacts.

(** ** Box2BoxTransform: identity, clamp, inverse and invariance *)

Module DeltaFacts.
Import XReal Box2BoxTransform Box2BoxTransformFacts.
Local Open Scope R_scope.

#[local] Hint Rewrite xsub_fin xadd_fin xmul_fin xexp_fin xclamp_max_fin
  : xfin.
#[local] Hint Rewrite xdiv_fin using (assumption || lra) : xfin.

Lemma zero_delta_row (self : t) (b : rbox) :
  weights_nonzero self -> 0 <= scale_clamp self ->
  apply_deltas_row self [zero_delta] (box_of b) = [box_of b].
Proof.
  destruct b as [[[bx1 by1] bx2] by2]. unfold weights_nonzero.
  destruct self as [[[[wx wy] ww] wh] clamp]. cbn [weights scale_clamp].
  intros (Hwx & Hwy & Hww & Hwh) Hc.
  unfold apply_deltas_row, zero_delta.
  cbn [weights scale_clamp map box_of fin_box fin_delta
       x1 y1 x2 y2 dx dy dw dh].
  autorewrite with xfin.
  replace (0 / ww) with 0 by (field; assumption).
  replace (0 / wh) with 0 by (field; assumption).
  rewrite Rmin_left by exact Hc. rewrite exp_0. unfold fin_box.
  repeat f_equal; field; assumption.
Qed.

Lemma self_delta_row (self : t) (b : rbox) :
  0 < rwidth b -> 0 < rheight b ->
  get_deltas_row self (box_of b) (box_of b) = zero_delta.
Proof.
  destruct b as [[[bx1 by1] bx2] by2]. unfold rwidth, rheight.
  destruct self as [[[[wx wy] ww] wh] clamp]. intros Hw Hh.
  unfold get_deltas_row, zero_delta.
  cbn [weights box_of fin_box fin_delta x1 y1 x2 y2].
  autorewrite with xfin.
  replace ((bx2 - bx1) / (bx2 - bx1)) with 1 by (field; lra).
  replace ((by2 - by1) / (by2 - by1)) with 1 by (field; lra).
  rewrite xlog_pos by lra. rewrite ln_1. autorewrite with xfin.
  unfold fin_delta. f_equal; f_equal; field; lra.
Qed.

(** X15.  The deltas from a box of positive width and height to itself
    are all 0, and, for non-zero weights and a clamp that is not
    negative, applying deltas that are all 0 returns every box
    unchanged. *)
Theorem identity_deltas (self : t) (boxes : list rbox) :
  weights_nonzero self -> 0 <= scale_clamp self ->
  (Forall (fun b => 0 < rwidth b /\ 0 < rheight b) boxes ->
   get_deltas self (map box_of boxes) (map box_of boxes)
   = Ok (map (fun _ => zero_delta) boxes))
  /\ apply_deltas self (map (fun _ => [zero_delta]) boxes)
                  (map box_of boxes)
     = Ok (map (fun b => [box_of b]) boxes).
Proof.
  intros Hw Hc. split.
  - intros Hb. unfold get_deltas.
    rewrite Nat.eqb_refl. cbn [negb].
    rewrite (widths_pass boxes Hb). cbn [py_assert bind]. f_equal.
    induction Hb as [|b boxes [Hbw Hbh] Hb IH]; [reflexivity |].
    cbn [map Tensor.map2]. rewrite IH. f_equal.
    now apply self_delta_row.
  - unfold apply_deltas. rewrite !length_map, Nat.eqb_refl. cbn [negb].
    f_equal. induction boxes as [|b boxes IH]; [reflexivity |].
    cbn [map Tensor.map2]. rewrite IH. f_equal.
    now apply zero_delta_row.
Qed.

Lemma default_clamp_nonneg : 0 <= scale_clamp unit_transform.
Proof.
  cbn. rewrite <- ln_1. apply Rlt_le, ln_increasing; lra.
Qed.

Lemma identity_deltas_witness :
  get_deltas unit_transform [fin_box 0 0 2 3] [fin_box 0 0 2 3]
  = Ok [zero_delta]
  /\ apply_deltas unit_transform [[zero_delta]] [fin_box 0 0 2 3]
     = Ok [[fin_box 0 0 2 3]].
Proof.
  destruct (identity_deltas unit_transform [(0, 0, 2, 3)]
              unit_weights_nonzero default_clamp_nonneg) as [H1 H2].
  split; [apply H1 | exact H2].
  repeat constructor; cbn; lra.
Defined.

Lemma exp_monotone x y : x <= y -> exp x <= exp y.
Proof.
  intros [H | ->]; [apply Rlt_le, exp_increasing, H | apply Rle_refl].
Qed.

Lemma clamped_row (self : t) (ds : list rbox) (b : rbox) :
  weights_nonzero self ->
  0 <= rwidth b -> 0 <= rheight b ->
  Forall (fun p =>
            xle (xwidth p) (Fin (exp (scale_clamp self) * rwidth b))
            /\ xle (xheight p) (Fin (exp (scale_clamp self) * rheight b)))
         (apply_deltas_row self (map delta_of ds) (box_of b)).
Proof.
  destruct b as [[[bx1 by1] bx2] by2].
  unfold weights_nonzero, rwidth, rheight.
  destruct self as [[[[wx wy] ww] wh] clamp]. cbn [weights scale_clamp].
  intros (Hwx & Hwy & Hww & Hwh) Hbw Hbh.
  unfold apply_deltas_row.
  cbn [weights scale_clamp box_of fin_box x1 y1 x2 y2].
  rewrite map_map. apply Forall_map, Forall_forall.
  intros [[[ddx ddy] ddw] ddh] _.
  cbn [delta_of fin_delta dx dy dw dh]. autorewrite with xfin.
  unfold xwidth, xheight. cbn [x1 y1 x2 y2]. autorewrite with xfin.
  cbn [xle].
  pose proof (exp_monotone _ _ (Rmin_r (ddw / ww) clamp)).
  pose proof (exp_monotone _ _ (Rmin_r (ddh / wh) clamp)).
  split; nra.
Qed.

(** X16.  The clamp bounds the growth of a box: for non-zero weights,
    real deltas and boxes whose corners are in order, [apply_deltas]
    returns, and no predicted box is wider than [exp(scale_clamp)] times
    the width of its box, nor higher than [exp(scale_clamp)] times its
    height, however large the scale deltas are. *)
Theorem apply_deltas_clamped (self : t) (deltas : list (list rbox))
        (boxes : list rbox) :
  weights_nonzero self ->
  length deltas = length boxes ->
  Forall (fun b => 0 <= rwidth b /\ 0 <= rheight b) boxes ->
  exists pred,
    apply_deltas self (map (map delta_of) deltas) (map box_of boxes)
    = Ok pred
    /\ Forall2
         (fun ps b =>
            Forall (fun p =>
                      xle (xwidth p)
                          (Fin (exp (scale_clamp self) * rwidth b))
                      /\ xle (xheight p)
                             (Fin (exp (scale_clamp self) * rheight b)))
                   ps)
         pred boxes.
Proof.
  intros Hw Hlen Hb. unfold apply_deltas.
  rewrite !length_map, Hlen, Nat.eqb_refl. cbn [negb].
  eexists. split; [reflexivity |].
  revert deltas Hlen.
  induction Hb as [|b boxes [Hbw Hbh] Hb IH];
    intros [|ds deltas] Hlen; try discriminate.
  - constructor.
  - cbn [map Tensor.map2]. constructor.
    + now apply clamped_row.
    + apply IH. now injection Hlen.
Qed.

(** The default clamp allows a factor of 62.5. *)
Lemma default_clamp_factor weights :
  exp (scale_clamp (init weights None)) = 1000 / 16.
Proof. cbn. apply exp_ln. lra. Qed.

Lemma apply_deltas_clamped_witness :
  exists pred,
    apply_deltas unit_transform [[fin_delta 0 0 100 (-100)]]
                 [fin_box 0 0 2 2]
    = Ok pred
    /\ Forall2
         (fun ps b =>
            Forall (fun p =>
                      xle (xwidth p) (Fin (1000 / 16 * rwidth b))
                      /\ xle (xheight p) (Fin (1000 / 16 * rheight b)))
                   ps)
         pred [(0, 0, 2, 2)].
Proof.
  rewrite <- (default_clamp_factor (1, 1, 1, 1)).
  apply (apply_deltas_clamped unit_transform [[(0, 0, 100, -100)]]
           [(0, 0, 2, 2)] unit_weights_nonzero eq_refl).
  repeat constructor; cbn; lra.
Defined.

(** One row of the way back: the box predicted from real deltas that do
    not reach the clamp has exactly these deltas. *)
Lemma row_inverse (self : t) (src d : rbox) :
  weights_nonzero self ->
  0 < rwidth src -> 0 < rheight src ->
  unsaturated self (delta_of d) ->
  exists p,
    apply_deltas_row self [delta_of d] (box_of src) = [box_of p]
    /\ get_deltas_row self (box_of src) (box_of p) = delta_of d.
Proof.
  destruct src as [[[sx1 sy1] sx2] sy2], d as [[[ddx ddy] ddw] ddh].
  unfold weights_nonzero, unsaturated, rwidth, rheight.
  destruct self as [[[[wx wy] ww] wh] clamp]. cbn [weights scale_clamp].
  intros (Hwx & Hwy & Hww & Hwh) Hsw Hsh.
  cbn [delta_of fin_delta dx dy dw dh]. autorewrite with xfin. cbn [xle].
  intros [Hdw Hdh].
  unfold apply_deltas_row.
  cbn [weights scale_clamp map box_of fin_box fin_delta
       x1 y1 x2 y2 dx dy dw dh].
  autorewrite with xfin. rewrite !Rmin_left by assumption.
  eexists (_, _, _, _). split; [reflexivity |].
  unfold get_deltas_row.
  cbn [weights box_of fin_box x1 y1 x2 y2]. autorewrite with xfin.
  match goal with
  | |- context [xmul (Fin ww) (xlog (Fin ?e))] =>
      replace e with (exp (ddw / ww)) by (field; lra)
  end.
  match goal with
  | |- context [xmul (Fin wh) (xlog (Fin ?e))] =>
      replace e with (exp (ddh / wh)) by (field; lra)
  end.
  rewrite !xlog_pos by apply exp_pos. rewrite !ln_exp.
  autorewrite with xfin. unfold fin_delta.
  f_equal; apply f_equal; field; lra.
Qed.

(** X17.  The way back of the round trip: for non-zero weights, boxes
    of positive width and height and real deltas that do not reach the
    clamp, [apply_deltas] returns boxes from which [get_deltas], with
    the same source boxes, returns exactly the deltas. *)
Theorem apply_get_round_trip (self : t) (src ds : list rbox) :
  weights_nonzero self ->
  length ds = length src ->
  Forall (fun b => 0 < rwidth b /\ 0 < rheight b) src ->
  Forall (fun d => unsaturated self (delta_of d)) ds ->
  exists pred,
    apply_deltas self (map (fun d => [delta_of d]) ds) (map box_of src)
    = Ok (map (fun p => [box_of p]) pred)
    /\ get_deltas self (map box_of src) (map box_of pred)
       = Ok (map delta_of ds).
Proof.
  intros Hw Hlen Hsrc Hsat.
  assert (H : exists pred,
             length pred = length src
             /\ Tensor.map2 (apply_deltas_row self)
                            (map (fun d => [delta_of d]) ds)
                            (map box_of src)
                = map (fun p => [box_of p]) pred
             /\ Tensor.map2 (get_deltas_row self) (map box_of src)
                            (map box_of pred)
                = map delta_of ds).
  { revert ds Hlen Hsat.
    induction Hsrc as [|b src [Hbw Hbh] Hsrc IH];
      intros [|d ds] Hlen Hsat; try discriminate.
    - exists []. repeat split.
    - inversion Hsat as [|? ? Hd Hsat']; subst.
      destruct (IH ds ltac:(now injection Hlen) Hsat')
        as (pred & Hl & Ha & Hg).
      destruct (row_inverse self b d Hw Hbw Hbh Hd) as (p & Hp1 & Hp2).
      exists (p :: pred). cbn [map Tensor.map2 length].
      rewrite Hl, Ha, Hg, Hp1, Hp2. repeat split. }
  destruct H as (pred & Hl & Ha & Hg). exists pred. split.
  - unfold apply_deltas. rewrite !length_map, Hlen, Nat.eqb_refl.
    cbn [negb]. now rewrite Ha.
  - unfold get_deltas. rewrite !length_map, Hl, Nat.eqb_refl.
    cbn [negb]. rewrite (widths_pass src Hsrc). cbn [py_assert bind].
    now rewrite Hg.
Qed.

Lemma apply_get_round_trip_witness :
  exists pred,
    apply_deltas unit_transform [[fin_delta 1 (-1) 0 0]] [fin_box 0 0 2 2]
    = Ok (map (fun p => [box_of p]) pred)
    /\ get_deltas unit_transform [fin_box 0 0 2 2] (map box_of pred)
       = Ok [fin_delta 1 (-1) 0 0].
Proof.
  apply (apply_get_round_trip unit_transform [(0, 0, 2, 2)]
           [(1, -1, 0, 0)] unit_weights_nonzero eq_refl).
  - repeat constructor; cbn; lra.
  - constructor; [| constructor].
    unfold unsaturated, unit_transform, init.
    cbn [weights scale_clamp delta_of fin_delta dw dh].
    autorewrite with xfin. cbn [xle].
    replace (0 / 1) with 0 by field.
    rewrite <- ln_1. split; apply Rlt_le, ln_increasing; lra.
Defined.

Lemma affine_size s tx ty b :
  rwidth (affine s tx ty b) = s * rwidth b
  /\ rheight (affine s tx ty b) = s * rheight b.
Proof. destruct b as [[[a b] c] d]. cbn. split; ring. Qed.

Lemma affine_row (self : t) (s tx ty : R) (src tgt : rbox) :
  0 < s -> 0 < rwidth src -> 0 < rheight src ->
  get_deltas_row self (box_of (affine s tx ty src))
                 (box_of (affine s tx ty tgt))
  = get_deltas_row self (box_of src) (box_of tgt).
Proof.
  destruct src as [[[sx1 sy1] sx2] sy2], tgt as [[[tx1 ty1] tx2] ty2].
  unfold rwidth, rheight.
  destruct self as [[[[wx wy] ww] wh] clamp]. intros Hs Hsw Hsh.
  assert (Hw' : s * sx2 + tx - (s * sx1 + tx) <> 0) by nra.
  assert (Hh' : s * sy2 + ty - (s * sy1 + ty) <> 0) by nra.
  unfold get_deltas_row.
  cbn [weights affine box_of fin_box x1 y1 x2 y2]. autorewrite with xfin.
  replace ((s * tx2 + tx - (s * tx1 + tx)) / (s * sx2 + tx - (s * sx1 + tx)))
    with ((tx2 - tx1) / (sx2 - sx1)) by (field; split; lra).
  replace ((s * ty2 + ty - (s * ty1 + ty)) / (s * sy2 + ty - (s * sy1 + ty)))
    with ((ty2 - ty1) / (sy2 - sy1)) by (field; split; lra).
  f_equal; apply f_equal; field; split; lra.
Qed.

(** X18.  The deltas do not depend on where the boxes are or on the
    unit they are measured in: moving the source and the target boxes by
    the same offset and scaling them by the same positive factor leaves
    the result of [get_deltas] unchanged. *)
Theorem get_deltas_affine_invariant (self : t) (s tx ty : R)
        (src tgt : list rbox) :
  0 < s ->
  Forall (fun b => 0 < rwidth b /\ 0 < rheight b) src ->
  get_deltas self (map box_of (map (affine s tx ty) src))
             (map box_of (map (affine s tx ty) tgt))
  = get_deltas self (map box_of src) (map box_of tgt).
Proof.
  intros Hs Hsrc. unfold get_deltas. rewrite !length_map.
  destruct (negb (length src =? length tgt)%nat); [reflexivity |].
  rewrite (widths_pass src Hsrc).
  rewrite (widths_pass (map (affine s tx ty) src)).
  2:{ apply Forall_map. revert Hsrc. apply Forall_impl.
      intros b [Hbw Hbh]. destruct (affine_size s tx ty b) as [-> ->].
      split; nra. }
  cbn [py_assert bind]. f_equal. revert tgt.
  induction Hsrc as [|b src [Hbw Hbh] Hsrc IH]; intros [|t tgt];
    try reflexivity.
  cbn [map Tensor.map2]. rewrite IH. f_equal.
  now apply affine_row.
Qed.

Lemma get_deltas_affine_invariant_witness :
  get_deltas unit_transform
             (map box_of (map (affine 2 10 (-5)) [(0, 0, 2, 2)]))
             (map box_of (map (affine 2 10 (-5)) [(1, 1, 5, 3)]))
  = get_deltas unit_transform [fin_box 0 0 2 2] [fin_box 1 1 5 3].
Proof.
  apply (get_deltas_affine_invariant unit_transform 2 10 (-5)
           [(0, 0, 2, 2)] [(1, 1, 5, 3)]); [lra |].
  repeat constructor; cbn; lra.
Defined.

End DeltaFacts.

(** ** AnchorGenerator: cell anchors, construction and counts *)

Module AnchorShapeFacts.
Import AnchorGenerator AnchorGeneratorFacts.
Local Open Scope R_scope.

Lemma generate_cell_anchors_ok (sizes aspect_ratios : list R) :
  Forall (fun r => 0 < r) aspect_ratios ->
  generate_cell_anchors sizes aspect_ratios
  = Ok (flat_map (fun size => map (zero_centred size) aspect_ratios) sizes).
Proof.
  intros Hr. unfold generate_cell_anchors.
  rewrite (mapM_ok_pure _ (fun size => map (zero_centred size)
                                           aspect_ratios)).
  - cbn [bind]. now rewrite flat_map_concat_map.
  - intros size _. apply mapM_ok_pure. intros r Hin.
    rewrite Forall_forall in Hr. apply cell_anchor_ok, Hr, Hin.
Qed.

(** X19.  For positive aspect ratios [generate_cell_anchors] returns
    [len(sizes) * len(aspect_ratios)] anchors, and the anchor of size
    number [i] and ratio number [j], at row [i * len(aspect_ratios) + j],
    is centred at the origin, has area [size^2] and has height equal to
    the ratio times the width. *)
Theorem cell_anchors_geometry (sizes aspect_ratios : list R) :
  Forall (fun r => 0 < r) aspect_ratios ->
  exists anchors,
    generate_cell_anchors sizes aspect_ratios = Ok anchors
    /\ length anchors = (length sizes * length aspect_ratios)%nat
    /\ forall i j size ratio,
         nth_error sizes i = Some size ->
         nth_error aspect_ratios j = Some ratio ->
         exists x0 y0 x1 y1 : R,
           nth_error anchors (i * length aspect_ratios + j)
           = Some (x0, y0, x1, y1)
           /\ x0 = - x1 /\ y0 = - y1
           /\ (x1 - x0) * (y1 - y0) = size * size
           /\ y1 - y0 = ratio * (x1 - x0).
Proof.
  intros Hr. rewrite (generate_cell_anchors_ok _ _ Hr).
  eexists. split; [reflexivity |].
  assert (Hblock : forall size : R,
             length (map (zero_centred size) aspect_ratios)
             = length aspect_ratios)
    by (intros; apply length_map).
  split; [apply (flat_map_uniform_length _ _ Hblock) |].
  intros i j size ratio Hi Hj.
  rewrite (flat_map_uniform_nth _ _ Hblock sizes i j size Hi)
    by (apply nth_error_Some; congruence).
  rewrite nth_error_map, Hj. cbn [option_map]. unfold zero_centred.
  rewrite Forall_forall in Hr. pose proof (Hr _ (nth_error_In _ _ Hj)) as Hp.
  assert (Hq : 0 <= size * size / ratio).
  { apply Rmult_le_pos; [nra | apply Rlt_le, Rinv_0_lt_compat, Hp]. }
  pose proof (sqrt_sqrt _ Hq) as Hs.
  revert Hs. generalize (sqrt (size * size / ratio)). intros w Hs.
  do 4 eexists. split; [reflexivity |].
  split; [lra |]. split; [lra |]. split; [| lra].
  replace ((w / 2 - - w / 2) * (ratio * w / 2 - - (ratio * w) / 2))
    with (ratio * (w * w)) by field.
  rewrite Hs. field. lra.
Qed.

Lemma cell_anchors_geometry_witness :
  exists anchors,
    generate_cell_anchors [32; 64; 128] [1 / 2; 1; 2] = Ok anchors
    /\ length anchors = 9%nat.
Proof.
  destruct (cell_anchors_geometry [32; 64; 128] [1 / 2; 1; 2])
    as (anchors & H1 & H2 & _).
  - repeat (apply Forall_cons; [lra |]). apply Forall_nil.
  - exists anchors. split; assumption.
Defined.

Lemma mapM_raises {A B : Type} (f : A -> result B) (g : A -> B)
      (pre post : list A) (x : A) (e : py_error) :
  (forall a, In a pre -> f a = Ok (g a)) ->
  f x = Raise e ->
  mapM f (pre ++ x :: post) = Raise e.
Proof.
  intros Hpre Hx. induction pre as [|a pre IH]; cbn [app mapM].
  - now rewrite Hx.
  - rewrite (Hpre a) by now left. cbn [bind].
    rewrite IH by (intros b Hb; apply Hpre; now right). reflexivity.
Qed.

(** X20.  [generate_cell_anchors] stops at the first aspect ratio that
    is not positive: with [ZeroDivisionError] if that ratio is 0 and with
    [ValueError] (the square root of a negative number) if it is
    negative and the first size is not 0.  Without sizes no ratio is
    looked at and the result is empty. *)
Theorem generate_cell_anchors_errors (size r : R)
        (sizes pre post : list R) :
  Forall (fun r => 0 < r) pre ->
  (r = 0 ->
   generate_cell_anchors (size :: sizes) (pre ++ r :: post)
   = Raise ZeroDivisionError)
  /\ (r < 0 -> size <> 0 ->
      generate_cell_anchors (size :: sizes) (pre ++ r :: post)
      = Raise ValueError)
  /\ generate_cell_anchors [] (pre ++ r :: post) = Ok [].
Proof.
  intros Hpre. rewrite Forall_forall in Hpre.
  assert (Hok : forall a, In a pre ->
                  cell_anchor size a = Ok (zero_centred size a))
    by (intros a Ha; apply cell_anchor_ok, Hpre, Ha).
  unfold generate_cell_anchors. cbn [mapM]. repeat split.
  - intros ->.
    rewrite (mapM_raises _ _ pre post 0 ZeroDivisionError Hok);
      [reflexivity |].
    unfold cell_anchor. destruct (Req_dec_T 0 0); [reflexivity | lra].
  - intros Hr Hsize.
    rewrite (mapM_raises _ _ pre post r ValueError Hok); [reflexivity |].
    unfold cell_anchor. destruct (Req_dec_T r 0); [lra |].
    destruct (Rlt_dec (size * size / r) 0) as [| Hn]; [reflexivity |].
    exfalso. apply Hn.
    assert (0 < size * size) by nra.
    assert (/ r < 0) by now apply Rinv_lt_0_compat.
    unfold Rdiv. nra.
Qed.

Lemma generate_cell_anchors_errors_witness :
  generate_cell_anchors [32; 64] [1; 0; 2] = Raise ZeroDivisionError
  /\ generate_cell_anchors [32; 64] [1; -1; 2] = Raise ValueError.
Proof.
  split.
  - apply (proj1 (generate_cell_anchors_errors 32 0 [64] [1] [2]
                    ltac:(repeat constructor; lra))).
    reflexivity.
  - apply (proj1 (proj2 (generate_cell_anchors_errors 32 (-1) [64] [1] [2]
                           ltac:(repeat constructor; lra)))); lra.
Defined.

(** *** Construction *)

Lemma In_list_times {A : Type} (x : A) (l : list A) (n : nat) :
  In x (list_times l n) -> In x l.
Proof.
  unfold list_times. induction n as [|n IH]; cbn [repeat concat].
  - intros [].
  - intros H. apply in_app_or in H. tauto.
Qed.

Lemma In_broadcast {A : Type} (x : A) (l : list A) (n : nat) :
  In x (broadcast l n) -> In x l.
Proof.
  unfold broadcast. destruct (length l =? 1)%nat; [| auto].
  apply In_list_times.
Qed.

Lemma broadcast_single {A : Type} (x : A) (n : nat) :
  broadcast [x] n = repeat x n.
Proof.
  unfold broadcast, list_times. cbn [length Nat.eqb].
  induction n as [|n IH]; cbn [repeat concat app]; [reflexivity |].
  now rewrite IH.
Qed.

Lemma mapM_length {A B : Type} (f : A -> result B) (l : list A) r :
  mapM f l = Ok r -> length r = length l.
Proof.
  revert r. induction l as [|a l IH]; intros r H; simpl in H.
  - now injection H as <-.
  - destruct (f a); [| discriminate]. cbn [bind] in H.
    destruct (mapM f l) as [r' |]; [| discriminate]. cbn [bind] in H.
    injection H as <-. simpl. f_equal. now apply IH.
Qed.

Lemma mapM_combine_pure {A B C : Type} (f : A -> B -> result C)
      (g : A -> B -> C) (la : list A) (lb : list B) :
  (forall a b, In b lb -> f a b = Ok (g a b)) ->
  mapM (fun '(a, b) => f a b) (combine la lb) = Ok (Tensor.map2 g la lb).
Proof.
  intros H. revert lb H. induction la as [|a la IH]; intros [|b lb] H;
    try reflexivity.
  cbn [combine mapM Tensor.map2]. rewrite (H a b) by now left.
  cbn [bind]. rewrite IH by (intros; apply H; now right). reflexivity.
Qed.

Lemma offset_check (off : R) :
  (if Rle_dec 0 off then if Rlt_dec off 1 then true else false else false)
  = true <-> 0 <= off < 1.
Proof.
  destruct (Rle_dec 0 off), (Rlt_dec off 1); split; intros H;
    try discriminate; try reflexivity; lra.
Qed.

(** What a successful construction leaves in the generator. *)
Lemma generator_init_inv sizes aspect_ratios strides off self :
  init sizes aspect_ratios strides off = Ok self ->
  0 <= off < 1
  /\ AnchorGenerator.strides self = strides
  /\ offset self = off
  /\ length (cell_anchors self) = length strides.
Proof.
  unfold init, _calculate_anchors. fold (broadcast sizes (length strides)).
  fold (broadcast aspect_ratios (length strides)).
  pose proof (offset_check off) as Hoff.
  destruct (if Rle_dec 0 off then _ else _); [| discriminate].
  cbn [py_assert bind].
  destruct (length strides =? length (broadcast sizes (length strides)))%nat
    eqn:E1; [| discriminate].
  destruct (length strides
            =? length (broadcast aspect_ratios (length strides)))%nat
    eqn:E2; [| discriminate].
  cbn [py_assert bind].
  destruct (mapM _ _) as [cells |] eqn:Em; [| discriminate].
  cbn [bind]. intros H. injection H as <-.
  cbn [AnchorGenerator.strides offset cell_anchors].
  split; [now apply Hoff |]. split; [reflexivity |].
  split; [reflexivity |].
  apply mapM_length in Em. rewrite Em, length_combine.
  apply Nat.eqb_eq in E1, E2. lia.
Qed.

(** The construction succeeds on an offset in [0, 1), as many size and
    aspect-ratio lists as strides, and positive aspect ratios. *)
Lemma generator_init_ok
      (sizes aspect_ratios : list (list R)) (strides : list Z) (off : R) :
  let n := length strides in
  0 <= off < 1 ->
  length (broadcast sizes n) = n ->
  length (broadcast aspect_ratios n) = n ->
  Forall (Forall (fun r => 0 < r)) aspect_ratios ->
  exists self,
    init sizes aspect_ratios strides off = Ok self
    /\ AnchorGenerator.strides self = strides
    /\ offset self = off
    /\ num_cell_anchors self
       = Tensor.map2 (fun s a => (length s * length a)%nat)
                     (broadcast sizes n) (broadcast aspect_ratios n).
Proof.
  intros n Hin Hs Ha Hr. unfold init, _calculate_anchors.
  fold n. fold (broadcast sizes n). fold (broadcast aspect_ratios n).
  apply offset_check in Hin. rewrite Hin.
  cbn [py_assert bind]. rewrite Hs, Ha, Nat.eqb_refl.
  cbn [py_assert bind].
  rewrite (mapM_combine_pure generate_cell_anchors
             (fun s a => flat_map (fun size => map (zero_centred size) a) s)).
  2:{ intros s a Hina. apply generate_cell_anchors_ok.
      rewrite Forall_forall in Hr. apply Hr.
      now apply In_broadcast in Hina. }
  cbn [bind]. eexists. split; [reflexivity |].
  split; [reflexivity |]. split; [reflexivity |].
  unfold num_cell_anchors. cbn [cell_anchors].
  generalize (broadcast sizes n), (broadcast aspect_ratios n).
  intros S. induction S as [|s S IH]; intros [|a A]; try reflexivity.
  cbn [Tensor.map2 map]. rewrite IH. f_equal.
  apply flat_map_uniform_length. intros. apply length_map.
Qed.

(** X21.  [AnchorGenerator.__init__] raises [AssertionError] when the
    offset is outside [0, 1) and when, after a single list of sizes or of
    aspect ratios was repeated for every feature map, their number
    differs from the number of strides.  Otherwise, for positive aspect
    ratios, it succeeds, and [num_cell_anchors] of feature map [l] is
    [len(sizes[l]) * len(aspect_ratios[l])]. *)
Theorem anchor_generator_init_cases
        (sizes aspect_ratios : list (list R)) (strides : list Z) (off : R) :
  let n := length strides in
  (~ 0 <= off < 1 ->
   init sizes aspect_ratios strides off = Raise AssertionError)
  /\ (length (broadcast sizes n) <> n
      \/ length (broadcast aspect_ratios n) <> n ->
      init sizes aspect_ratios strides off = Raise AssertionError)
  /\ (0 <= off < 1 ->
      length (broadcast sizes n) = n ->
      length (broadcast aspect_ratios n) = n ->
      Forall (Forall (fun r => 0 < r)) aspect_ratios ->
      exists self,
        init sizes aspect_ratios strides off = Ok self
        /\ AnchorGenerator.strides self = strides
        /\ offset self = off
        /\ num_cell_anchors self
           = Tensor.map2 (fun s a => (length s * length a)%nat)
                         (broadcast sizes n) (broadcast aspect_ratios n)).
Proof.
  intros n. unfold init, _calculate_anchors.
  fold n. fold (broadcast sizes n). fold (broadcast aspect_ratios n).
  pose proof (offset_check off) as Hoff.
  split; [| split].
  - intros Hno. destruct (if Rle_dec 0 off then _ else _); [| reflexivity].
    exfalso. now apply Hno, Hoff.
  - intros Hlen. destruct (if Rle_dec 0 off then _ else _); [| reflexivity].
    cbn [py_assert bind].
    destruct (Nat.eqb_spec n (length (broadcast sizes n))) as [E1 | E1];
      [| reflexivity].
    destruct (Nat.eqb_spec n (length (broadcast aspect_ratios n)))
      as [E2 | E2]; [| reflexivity].
    lia.
  - intros Hin Hs Ha Hr.
    destruct (generator_init_ok sizes aspect_ratios strides off Hin Hs Ha Hr)
      as (self & H1 & H2).
    exists self. split; [| exact H2].
    unfold init, _calculate_anchors in H1. exact H1.
Qed.

Lemma anchor_generator_init_cases_witness :
  exists self,
    init [[32; 64; 128]] [[1 / 2; 1; 2]] [4; 8; 16]%Z (1 / 2) = Ok self
    /\ num_cell_anchors self = [9; 9; 9]%nat.
Proof.
  destruct (proj2 (proj2 (anchor_generator_init_cases
                            [[32; 64; 128]] [[1 / 2; 1; 2]] [4; 8; 16]%Z
                            (1 / 2))))
    as (self & H1 & _ & _ & H4).
  - lra.
  - reflexivity.
  - reflexivity.
  - constructor; [| constructor].
    repeat (apply Forall_cons; [lra |]). apply Forall_nil.
  - exists self. split; [exact H1 | exact H4].
Defined.

(** *** Anchors per level and per image *)

(** The levels [grid_anchors] visits. *)
Lemma grid_anchors_levels (self : t) (grid_sizes : list (nat * nat)) :
  0 <= offset self < 1 ->
  Forall (fun s => (0 < s)%Z) (strides self) ->
  Forall (fun hw => ((0 < fst hw)%nat /\ (0 < snd hw)%nat)
                    \/ offset self = 0) grid_sizes ->
  exists anchors,
    grid_anchors self grid_sizes = Ok anchors
    /\ length anchors
       = Nat.min (length grid_sizes)
                 (Nat.min (length (strides self))
                          (length (cell_anchors self)))
    /\ forall l H W base level,
         nth_error grid_sizes l = Some (H, W) ->
         nth_error (cell_anchors self) l = Some base ->
         nth_error anchors l = Some level ->
         length level = (H * W * length base)%nat.
Proof.
  intros Hoff Hstr Hgrid. unfold grid_anchors.
  set (f := fun '(size, (stride, base_anchors)) =>
              grid_anchors_level size stride (offset self) base_anchors).
  rewrite Forall_forall in Hstr, Hgrid.
  destruct (mapM_ok f
              (combine grid_sizes
                       (combine (strides self) (cell_anchors self))))
    as (anchors & Hm).
  { intros [[H W] [s base]] Hin.
    pose proof (in_combine_l _ _ _ _ Hin) as Hg.
    pose proof (in_combine_r _ _ _ _ Hin) as Hsb.
    apply in_combine_l in Hsb.
    pose proof (Hgrid _ Hg) as HHW. cbn [fst snd] in HHW.
    destruct (grid_anchors_level_spec H W s (offset self) base Hoff
                (Hstr _ Hsb) HHW) as (level & Hl & _).
    exists level. exact Hl. }
  exists anchors. split; [exact Hm |]. split.
  - rewrite (mapM_length _ _ _ Hm). now rewrite !length_combine.
  - intros l H W base level Hg Hb Hlev.
    assert (Hl : (l < length anchors)%nat)
      by (apply nth_error_Some; congruence).
    rewrite (mapM_length _ _ _ Hm), !length_combine in Hl.
    destruct (nth_error (strides self) l) as [s |] eqn:Hs;
      [| apply nth_error_None in Hs; lia].
    pose proof (nth_error_combine _ _ _ _ _ Hg
                  (nth_error_combine _ _ _ _ _ Hs Hb)) as Hc.
    destruct (mapM_nth f _ _ _ _ Hm Hc) as (level' & Hlev' & Hf).
    rewrite Hlev in Hlev'. injection Hlev' as <-.
    pose proof (Hgrid _ (nth_error_In _ _ Hg)) as HHW.
    cbn [fst snd] in HHW.
    destruct (grid_anchors_level_spec H W s (offset self) base Hoff
                (Hstr _ (nth_error_In _ _ Hs)) HHW)
      as (level' & Hl' & Hlen & _).
    unfold f in Hf. rewrite Hl' in Hf. injection Hf as <-. exact Hlen.
Qed.

(** X22.  A generator that [__init__] built, with positive strides, on
    as many feature maps as strides, none with an empty grid: [forward]
    returns, for each of the [num_images] images of the first feature
    map, the same anchors, one tensor per feature map, that of feature
    map [l] with [H * W * num_cell_anchors[l]] rows.  Without feature
    maps [forward] raises [IndexError]. *)
Theorem constructed_generator_forward
        (sizes aspect_ratios : list (list R)) (strides : list Z) (off : R)
        (self : t) (num_images : nat) (grid0 : nat * nat)
        (rest : list (nat * (nat * nat))) :
  init sizes aspect_ratios strides off = Ok self ->
  Forall (fun s => (0 < s)%Z) strides ->
  let features := (num_images, grid0) :: rest in
  length features = length strides ->
  Forall (fun f => (0 < fst (snd f))%nat /\ (0 < snd (snd f))%nat)
         features ->
  forward self [] = Raise IndexError
  /\ exists anchors,
      forward self features = Ok (repeat anchors num_images)
      /\ length anchors = length strides
      /\ forall l n H W A level,
           nth_error features l = Some (n, (H, W)) ->
           nth_error (num_cell_anchors self) l = Some A ->
           nth_error anchors l = Some level ->
           length level = (H * W * A)%nat.
Proof.
  intros Hinit Hstr features Hlen Hgrid.
  split; [reflexivity |].
  apply generator_init_inv in Hinit. destruct Hinit as (Hoff & Hs & Ho & Hc).
  destruct (grid_anchors_levels self (map snd features))
    as (anchors & Hg & Hl & Hlev).
  - now rewrite Ho.
  - now rewrite Hs.
  - apply Forall_map. revert Hgrid. apply Forall_impl. intros f Hf.
    now left.
  - exists anchors. split; [| split].
    + unfold forward, features. fold features. now rewrite Hg.
    + rewrite Hl, length_map, Hs, Hc. lia.
    + intros l n H W A level Hf HA Hlevel.
      unfold num_cell_anchors in HA. rewrite nth_error_map in HA.
      destruct (nth_error (cell_anchors self) l) as [base |] eqn:Hb;
        [| discriminate].
      injection HA as <-.
      apply (Hlev l H W base level); auto.
      now rewrite nth_error_map, Hf.
Qed.

Lemma constructed_generator_forward_witness :
  exists self anchors,
    init [[32; 64; 128]] [[1 / 2; 1; 2]] [16]%Z (1 / 2) = Ok self
    /\ forward self [(2, (3, 4))%nat] = Ok (repeat anchors 2)
    /\ length anchors = 1%nat.
Proof.
  destruct (generator_init_ok [[32; 64; 128]] [[1 / 2; 1; 2]] [16]%Z (1 / 2))
    as (self & Hinit & _).
  - lra.
  - reflexivity.
  - reflexivity.
  - constructor; [| constructor].
    repeat (apply Forall_cons; [lra |]). apply Forall_nil.
  - destruct (constructed_generator_forward
                [[32; 64; 128]] [[1 / 2; 1; 2]] [16]%Z (1 / 2) self
                2%nat (3, 4)%nat [] Hinit)
      as (_ & anchors & H1 & H2 & _).
    + repeat constructor.
    + reflexivity.
    + repeat constructor.
    + exists self, anchors. repeat split; assumption.
Defined.

(** *** Empty grids *)

Lemma arange_errors start stop step :
  (exists l, arange start stop step = Ok l)
  \/ arange start stop step = Raise RuntimeError.
Proof.
  unfold arange. destruct (Req_dec_T step 0); [now right |].
  destruct (Rlt_dec ((stop - start) / step) 0); [now right |].
  left. now eexists.
Qed.

Lemma grid_anchors_level_errors size stride off base :
  (exists l, grid_anchors_level size stride off base = Ok l)
  \/ grid_anchors_level size stride off base = Raise RuntimeError.
Proof.
  unfold grid_anchors_level, _create_grid_offsets.
  destruct size as [H W].
  destruct (arange_errors (off * IZR stride) (INR W * IZR stride)
                          (IZR stride)) as [[xs ->] | ->]; [| now right].
  cbn [bind].
  destruct (arange_errors (off * IZR stride) (INR H * IZR stride)
                          (IZR stride)) as [[ys ->] | ->]; [| now right].
  cbn [bind]. left. now eexists.
Qed.

Lemma arange_backwards off s :
  0 < off -> 0 < s -> arange (off * s) (INR 0 * s) s = Raise RuntimeError.
Proof.
  intros Hoff Hs. unfold arange. destruct (Req_dec_T s 0); [lra |].
  destruct (Rlt_dec ((INR 0 * s - off * s) / s) 0) as [| Hn];
    [reflexivity |].
  exfalso. apply Hn. cbn [INR].
  replace ((0 * s - off * s) / s) with (- off) by (field; lra). lra.
Qed.

Lemma empty_level_raises H W s off base :
  0 < off -> (0 < s)%Z -> H = 0%nat \/ W = 0%nat ->
  grid_anchors_level (H, W) s off base = Raise RuntimeError.
Proof.
  intros Hoff Hs Hempty.
  assert (Hs' : 0 < IZR s) by now apply (IZR_lt 0).
  unfold grid_anchors_level, _create_grid_offsets.
  destruct Hempty as [-> | ->].
  - destruct (arange_errors (off * IZR s) (INR W * IZR s) (IZR s))
      as [[xs ->] | ->]; [| reflexivity].
    cbn [bind]. now rewrite arange_backwards.
  - now rewrite arange_backwards.
Qed.

Lemma mapM_first_error {A B : Type} (f : A -> result B) (l : list A)
      (e : py_error) x :
  (forall a, In a l -> (exists b, f a = Ok b) \/ f a = Raise e) ->
  In x l -> f x = Raise e ->
  mapM f l = Raise e.
Proof.
  intros Hall Hin Hx. induction l as [|a l IH]; [destruct Hin |].
  cbn [mapM]. destruct (Hall a (or_introl eq_refl)) as [[b Hb] | Ha].
  - rewrite Hb. cbn [bind]. destruct Hin as [-> | Hin]; [congruence |].
    rewrite IH; [reflexivity | | exact Hin].
    intros a' Ha'. apply Hall. now right.
  - now rewrite Ha.
Qed.

(** X23.  A feature map with an empty grid (height or width 0) makes
    [grid_anchors] raise [RuntimeError] when the offset is positive: the
    first shift, [offset * stride], then lies beyond the end of the
    range.  With offset 0 and positive strides [grid_anchors] returns,
    and that feature map gets no anchors. *)
Theorem grid_anchors_empty_grid (self : t) (grid_sizes : list (nat * nat))
        (l H W : nat) (s : Z) (base : list Anchor) :
  nth_error grid_sizes l = Some (H, W) ->
  nth_error (strides self) l = Some s ->
  nth_error (cell_anchors self) l = Some base ->
  H = 0%nat \/ W = 0%nat ->
  (0 < offset self -> (0 < s)%Z ->
   grid_anchors self grid_sizes = Raise RuntimeError)
  /\ (offset self = 0 -> Forall (fun s => (0 < s)%Z) (strides self) ->
      exists anchors,
        grid_anchors self grid_sizes = Ok anchors
        /\ nth_error anchors l = Some []).
Proof.
  intros Hg Hs Hb Hempty. split.
  - intros Hoff Hpos. unfold grid_anchors.
    apply (mapM_first_error _ _ RuntimeError (H, W, (s, base))).
    + intros [size [stride b]] _. apply grid_anchors_level_errors.
    + eapply nth_error_In.
      apply (nth_error_combine _ _ _ _ _ Hg
               (nth_error_combine _ _ _ _ _ Hs Hb)).
    + now apply empty_level_raises.
  - intros Hoff Hstr.
    destruct (grid_anchors_levels self grid_sizes)
      as (anchors & Ha & Hl & Hlev).
    + rewrite Hoff. lra.
    + exact Hstr.
    + apply Forall_forall. intros hw _. now right.
    + exists anchors. split; [exact Ha |].
      assert (Hlt : (l < length anchors)%nat).
      { rewrite Hl.
        assert (l < length grid_sizes)%nat
          by (apply nth_error_Some; congruence).
        assert (l < length (strides self))%nat
          by (apply nth_error_Some; congruence).
        assert (l < length (cell_anchors self))%nat
          by (apply nth_error_Some; congruence).
        lia. }
      destruct (nth_error anchors l) as [level |] eqn:E;
        [| apply nth_error_None in E; lia].
      f_equal. pose proof (Hlev l H W base level Hg Hb E) as Hlen.
      destruct level; [reflexivity |].
      destruct Hempty as [-> | ->]; simpl in Hlen; lia.
Qed.

Lemma grid_anchors_empty_grid_witness :
  grid_anchors demo_generator [(0, 5)%nat] = Raise RuntimeError.
Proof.
  apply (proj1 (grid_anchors_empty_grid demo_generator [(0, 5)%nat]
                  0%nat 0%nat 5%nat 16%Z _ eq_refl eq_refl eq_refl
                  (or_introl eq_refl))).
  - cbn. lra.
  - lia.
Defined.

End AnchorShapeFacts.

(** ** RPN objectness loss *)

Module ObjectnessLossFacts.
Import RPNLoss.
Local Open Scope R_scope.

Lemma masked_select_agree {A : Type} (mask : list bool) :
  forall l l' : list A,
    length l = length mask -> length l' = length mask ->
    (forall i, nth_error mask i = Some true ->
               nth_error l i = nth_error l' i) ->
    Tensor.masked_select l mask = Tensor.masked_select l' mask.
Proof.
  unfold Tensor.masked_select.
  induction mask as [|b mask IH]; intros [|x l] [|x' l'] Hl Hl' H;
    try discriminate; [reflexivity |].
  cbn [combine filter snd].
  assert (E : map fst (filter snd (combine l mask))
              = map fst (filter snd (combine l' mask))).
  { apply IH; [now injection Hl | now injection Hl' |].
    intros i Hi. apply (H (S i) Hi). }
  destruct b; cbn [map fst]; [| exact E].
  f_equal; [| exact E].
  specialize (H 0%nat eq_refl). now injection H.
Qed.

Lemma bce_term_nonneg (x : R) (z : Z) :
  z = 0%Z \/ z = 1%Z ->
  0 <= Rmax x 0 - x * IZR z + ln (1 + exp (- Rabs x)).
Proof.
  intros Hz.
  assert (Hl : 0 < ln (1 + exp (- Rabs x))).
  { rewrite <- ln_1. apply ln_increasing; [lra |].
    pose proof (exp_pos (- Rabs x)). lra. }
  pose proof (Rmax_l x 0). pose proof (Rmax_r x 0).
  destruct Hz as [-> | ->]; lra.
Qed.

Lemma bce_nonneg (input : list R) (target : list Z) :
  Forall (fun z => z = 0%Z \/ z = 1%Z) target ->
  0 <= binary_cross_entropy_with_logits input (map IZR target).
Proof.
  unfold binary_cross_entropy_with_logits. intros Ht. revert input.
  induction Ht as [|z target Hz Ht IH]; intros [|x input];
    cbn [map Tensor.map2 fold_right]; try lra.
  pose proof (bce_term_nonneg x z Hz). specialize (IH input). lra.
Qed.

Lemma masked_select_In {A : Type} (x : A) (l : list A) (mask : list bool) :
  In x (Tensor.masked_select l mask) ->
  exists i, nth_error l i = Some x /\ nth_error mask i = Some true.
Proof.
  unfold Tensor.masked_select. revert mask.
  induction l as [|a l IH]; intros [|b mask] H; try contradiction.
  cbn [combine filter snd] in H.
  assert (Hrest : In x (map fst (filter snd (combine l mask))) ->
                  exists i, nth_error (a :: l) i = Some x
                            /\ nth_error (b :: mask) i = Some true).
  { intros H'. destruct (IH mask H') as (i & H1 & H2). now exists (S i). }
  destruct b; [| now apply Hrest].
  destruct H as [<- | H]; [exists 0%nat; now split | now apply Hrest].
Qed.

(** X24.  The objectness loss of [rpn_losses] is a sum over the anchors
    whose label is not negative: two vectors of predicted logits that
    agree on these anchors give the same loss, whatever they hold at the
    ignored anchors (label -1); and for labels in {-1, 0, 1} the loss is
    not negative. *)
Theorem objectness_loss_ignores_invalid
        (gt_objectness_logits : list Z)
        (gt_anchor_deltas pred_anchor_deltas pred_anchor_deltas' : list (list R))
        (pred pred' : list R) (smooth_l1_beta : R) :
  length pred = length gt_objectness_logits ->
  length pred' = length gt_objectness_logits ->
  (forall i l, nth_error gt_objectness_logits i = Some l -> (0 <= l)%Z ->
               nth_error pred i = nth_error pred' i) ->
  fst (rpn_losses gt_objectness_logits gt_anchor_deltas pred
                  pred_anchor_deltas smooth_l1_beta)
  = fst (rpn_losses gt_objectness_logits gt_anchor_deltas pred'
                    pred_anchor_deltas' smooth_l1_beta)
  /\ (Forall (fun l => l = (-1)%Z \/ l = 0%Z \/ l = 1%Z)
             gt_objectness_logits ->
      exists loss,
        fst (rpn_losses gt_objectness_logits gt_anchor_deltas pred
                        pred_anchor_deltas smooth_l1_beta)
        = Scalar loss
        /\ 0 <= loss).
Proof.
  intros Hl Hl' Hagree. unfold rpn_losses. cbn [fst]. split.
  - do 2 f_equal. apply masked_select_agree.
    + now rewrite length_map.
    + now rewrite length_map.
    + intros i Hi. rewrite nth_error_map in Hi.
      destruct (nth_error gt_objectness_logits i) as [l |] eqn:E;
        [| discriminate].
      injection Hi as Hi. apply (Hagree i l E). now apply Z.leb_le.
  - intros Hlab. eexists. split; [reflexivity |].
    apply bce_nonneg. apply Forall_forall. intros z Hz.
    apply masked_select_In in Hz. destruct Hz as (i & Hi & Hm).
    rewrite nth_error_map, Hi in Hm. injection Hm as Hm.
    apply Z.leb_le in Hm.
    rewrite Forall_forall in Hlab.
    specialize (Hlab z (nth_error_In _ _ Hi)). lia.
Qed.

Lemma objectness_loss_ignores_invalid_witness :
  fst (rpn_losses [1; -1; 0]%Z [] [2; 5; -1] [] 0)
  = fst (rpn_losses [1; -1; 0]%Z [] [2; -7; -1] [] 0).
Proof.
  apply (objectness_loss_ignores_invalid [1; -1; 0]%Z [] [] []
           [2; 5; -1] [2; -7; -1] 0 eq_refl eq_refl).
  intros [|[|[|i]]] l Hi Hl; try reflexivity.
  cbn in Hi. injection Hi as <-. lia.
Defined.

End ObjectnessLossFacts.

(** ** ROI pooling: levels and pooler format *)

Module PoolerFacts.
Import XReal Tensor Pooler.
Local Open Scope R_scope.

Lemma Int_part_unique r k : IZR k <= r < IZR k + 1 -> Int_part r = k.
Proof.
  intros [H1 H2]. unfold Int_part.
  rewrite <- (tech_up r (k + 1)); [lia | |]; rewrite plus_IZR; lra.
Qed.

Lemma Int_part_IZR k : Int_part (IZR k) = k.
Proof. apply Int_part_unique. lra. Qed.

Lemma Int_part_shift c r : Int_part (IZR c + r) = (c + Int_part r)%Z.
Proof.
  apply Int_part_unique. rewrite plus_IZR.
  destruct (base_Int_part r) as [H1 H2]. lra.
Qed.

Lemma to_int64_IZR k : to_int64 (Fin (IZR k)) = Some k.
Proof.
  unfold to_int64. f_equal. destruct (Rle_dec 0 (IZR k)).
  - apply Int_part_IZR.
  - rewrite <- opp_IZR, Int_part_IZR. lia.
Qed.

Lemma clamp_IZR k lo hi :
  Rmin (Rmax (IZR k) (IZR lo)) (IZR hi) = IZR (Z.min (Z.max k lo) hi).
Proof.
  assert (Hmax : Rmax (IZR k) (IZR lo) = IZR (Z.max k lo)).
  { destruct (Z.max_spec k lo) as [[H ->] | [H ->]].
    - apply Rmax_right, IZR_le. lia.
    - apply Rmax_left, IZR_le. lia. }
  rewrite Hmax.
  destruct (Z.min_spec (Z.max k lo) hi) as [[H ->] | [H ->]].
  - apply Rmin_left, IZR_le. lia.
  - apply Rmin_right, IZR_le. lia.
Qed.

Lemma ln_2_pos : 0 < ln 2.
Proof. rewrite <- ln_1. apply ln_increasing; lra. Qed.

Lemma relative_size_pos cbs b :
  (0 < cbs)%Z -> 0 <= area b -> 0 < relative_size cbs b.
Proof.
  intros Hc Ha. unfold relative_size.
  assert (0 < IZR cbs) by now apply (IZR_lt 0).
  assert (0 <= sqrt (area b) / IZR cbs).
  { apply Rmult_le_pos; [apply sqrt_pos |].
    now apply Rlt_le, Rinv_0_lt_compat. }
  lra.
Qed.

(** The level of one box of non-negative area. *)
Lemma box_level_value min_level max_level cbs cl b :
  (0 < cbs)%Z -> 0 <= area b ->
  box_level min_level max_level cbs cl b
  = Some (level_index min_level max_level
            (cl + Int_part (ln (relative_size cbs b) / ln 2))).
Proof.
  intros Hc Ha. pose proof (relative_size_pos cbs b Hc Ha) as Hu.
  assert (Hc' : IZR cbs <> 0) by (apply not_0_IZR; lia).
  pose proof ln_2_pos as H2.
  unfold box_level, xsqrt.
  destruct (Rlt_dec (area b) 0); [lra |].
  rewrite (Box2BoxTransformFacts.xdiv_fin _ _ Hc').
  rewrite Box2BoxTransformFacts.xadd_fin. fold (relative_size cbs b).
  unfold xlog2. rewrite (Box2BoxTransformFacts.xlog_pos _ Hu).
  rewrite Box2BoxTransformFacts.xdiv_fin by lra.
  rewrite Box2BoxTransformFacts.xadd_fin. cbn [xfloor xclamp].
  rewrite Int_part_shift, clamp_IZR, to_int64_IZR. reflexivity.
Qed.

Lemma assign_boxes_to_levels_eq box_lists min_level max_level cbs cl :
  box_lists <> [] ->
  assign_boxes_to_levels box_lists min_level max_level cbs cl
  = Ok (map (box_level min_level max_level cbs cl) (concat box_lists)).
Proof.
  intros Hne. unfold assign_boxes_to_levels.
  destruct box_lists as [|l ls]; [congruence |]. f_equal.
  rewrite <- concat_map, !map_map. reflexivity.
Qed.

(** X25.  [assign_boxes_to_levels], for [min_level <= max_level], a
    positive canonical box size and boxes of non-negative area, gives
    every box of every list a level index between 0 and
    [max_level - min_level]: no box is sent to a feature map that does not
    exist. *)
Theorem assign_boxes_to_levels_range (box_lists : list (list RBox))
        (min_level max_level canonical_box_size canonical_level : Z) :
  box_lists <> [] ->
  (min_level <= max_level)%Z ->
  (0 < canonical_box_size)%Z ->
  Forall (Forall (fun b => 0 <= area b)) box_lists ->
  exists levels,
    assign_boxes_to_levels box_lists min_level max_level
                           canonical_box_size canonical_level
    = Ok levels
    /\ length levels = length (concat box_lists)
    /\ Forall (fun l => exists k, l = Some k
                                  /\ (0 <= k <= max_level - min_level)%Z)
              levels.
Proof.
  intros Hne Hmm Hc Ha. rewrite assign_boxes_to_levels_eq by exact Hne.
  eexists. split; [reflexivity |]. split; [apply length_map |].
  apply Forall_map, Forall_forall. intros b Hb.
  apply in_concat in Hb. destruct Hb as (l & Hl & Hb).
  rewrite Forall_forall in Ha. specialize (Ha l Hl).
  rewrite Forall_forall in Ha. specialize (Ha b Hb).
  rewrite (box_level_value _ _ _ _ _ Hc Ha).
  eexists. split; [reflexivity |]. unfold level_index. lia.
Qed.

Lemma assign_boxes_to_levels_range_witness :
  exists levels,
    assign_boxes_to_levels [[(0, 0, 10, 10); (0, 0, 1000, 1000)]] 2 5 224 4
    = Ok levels
    /\ length levels = 2%nat.
Proof.
  destruct (assign_boxes_to_levels_range
              [[(0, 0, 10, 10); (0, 0, 1000, 1000)]] 2 5 224 4)
    as (levels & H1 & H2 & _).
  - discriminate.
  - lia.
  - lia.
  - repeat constructor; cbn; lra.
  - exists levels. split; assumption.
Defined.

Lemma octave_floor u k :
  Rpower 2 (IZR k) <= u < Rpower 2 (IZR k + 1) ->
  Int_part (ln u / ln 2) = k.
Proof.
  intros [Hlo Hhi]. pose proof ln_2_pos as H2.
  unfold Rpower in Hlo, Hhi.
  assert (Hu : 0 < u).
  { pose proof (exp_pos (IZR k * ln 2)). lra. }
  assert (H1 : IZR k * ln 2 <= ln u).
  { destruct Hlo as [Hlo | <-].
    - rewrite <- (ln_exp (IZR k * ln 2)).
      apply Rlt_le, ln_increasing; [apply exp_pos | exact Hlo].
    - rewrite ln_exp. lra. }
  assert (H3 : ln u < (IZR k + 1) * ln 2).
  { rewrite <- (ln_exp ((IZR k + 1) * ln 2)).
    apply ln_increasing; assumption. }
  apply Int_part_unique.
  assert (Hq : ln u / ln 2 * ln 2 = ln u) by (field; lra).
  revert Hq. generalize (ln u / ln 2). intros q Hq. split; nra.
Qed.

(** X26.  Equation (1) of the FPN paper, as the code computes it: a box
    whose size [sqrt(area)], divided by the canonical box size and with
    [1e-8] added, lies in [2^k, 2^(k+1)) is assigned the level
    [canonical_level + k], clamped to [min_level, max_level] and counted
    from [min_level].  So a box of the canonical size is assigned
    [canonical_level], and one of twice that size [canonical_level + 1]. *)
Theorem assign_boxes_to_levels_octave (box_lists : list (list RBox))
        (min_level max_level canonical_box_size canonical_level : Z)
        (i : nat) (b : RBox) (k : Z) :
  (0 < canonical_box_size)%Z ->
  nth_error (concat box_lists) i = Some b ->
  0 <= area b ->
  Rpower 2 (IZR k) <= relative_size canonical_box_size b
                   < Rpower 2 (IZR k + 1) ->
  exists levels,
    assign_boxes_to_levels box_lists min_level max_level
                           canonical_box_size canonical_level
    = Ok levels
    /\ nth_error levels i
       = Some (Some (level_index min_level max_level (canonical_level + k))).
Proof.
  intros Hc Hb Ha Hk.
  assert (Hne : box_lists <> []) by (intros ->; destruct i; discriminate).
  rewrite assign_boxes_to_levels_eq by exact Hne.
  eexists. split; [reflexivity |].
  rewrite nth_error_map, Hb. cbn [option_map].
  rewrite (box_level_value _ _ _ _ _ Hc Ha).
  now rewrite (octave_floor _ _ Hk).
Qed.

Lemma assign_boxes_to_levels_octave_witness :
  exists levels,
    assign_boxes_to_levels [[(0, 0, 224, 224)]] 2 5 224 4 = Ok levels
    /\ nth_error levels 0 = Some (Some 2%Z).
Proof.
  apply (assign_boxes_to_levels_octave [[(0, 0, 224, 224)]] 2 5 224 4
           0%nat (0, 0, 224, 224) 0%Z).
  - lia.
  - reflexivity.
  - cbn. lra.
  - unfold relative_size. cbn [area].
    replace ((224 - 0) * (224 - 0)) with (224 * 224) by ring.
    rewrite sqrt_square by lra.
    replace (0 + 1) with 1 by ring.
    rewrite Rpower_O, Rpower_1 by lra.
    replace (224 / 224) with 1 by field. lra.
Defined.

(** *** Pooler format *)








End PoolerFacts.

(** ** Non-maximum suppression: what is kept and what is dropped *)

Module NmsGuaranteeFacts.
Import Tensor TensorFacts BoxOps BoxOpsFacts NmsFacts.
Local Open Scope nat_scope.


Lemma nms_fold_members boxes thr order : forall keep0 x,
  In x (fold_left (nms_step boxes thr) order keep0) ->
  In x keep0 \/ In x order.
Proof.
  induction order as [|a order IH]; intros keep0 x Hx; [now left |].
  cbn [fold_left] in Hx. apply IH in Hx. destruct Hx as [Hx | Hx].
  - unfold nms_step in Hx. destruct (existsb _ keep0); [now left |].
    apply in_app_or in Hx. destruct Hx as [Hx | [<- | []]].
    + now left.
    + right. now left.
  - right. now right.
Qed.

(** No two boxes that [nms] keeps overlap by more than the threshold. *)
Lemma nms_fold_pairs boxes thr order : forall keep0,
  (forall x y, In x keep0 -> In y keep0 -> x <> y ->
     (iou (nth x boxes zero_box) (nth y boxes zero_box) <= thr)%Q) ->
  forall x y,
    In x (fold_left (nms_step boxes thr) order keep0) ->
    In y (fold_left (nms_step boxes thr) order keep0) ->
    x <> y ->
    (iou (nth x boxes zero_box) (nth y boxes zero_box) <= thr)%Q.
Proof.
  induction order as [|a order IH]; intros keep0 H0; [exact H0 |].
  cbn [fold_left]. apply IH. unfold nms_step.
  destruct (existsb _ keep0) eqn:E; [exact H0 |].
  assert (Ha : forall j, In j keep0 ->
             (iou (nth j boxes zero_box) (nth a boxes zero_box) <= thr)%Q).
  { intros j Hj. apply Qltb_ge.
    destruct (Qltb thr (iou (nth j boxes zero_box) (nth a boxes zero_box)))
      eqn:Ej; [| reflexivity].
    assert (existsb (fun j => Qltb thr (iou (nth j boxes zero_box)
                                             (nth a boxes zero_box)))
                    keep0 = true)
      by (apply existsb_exists; now exists j).
    congruence. }
  intros x y Hx Hy Hxy.
  apply in_app_or in Hx. apply in_app_or in Hy.
  destruct Hx as [Hx | [<- | []]], Hy as [Hy | [<- | []]].
  - now apply H0.
  - now apply Ha.
  - rewrite iou_sym. now apply Ha.
  - congruence.
Qed.


Lemma nms_unfold boxes scores thr :
  nms boxes scores thr
  = fold_left (nms_step boxes thr) (argsort_desc scores) [].
Proof. reflexivity. Qed.

Lemma nms_range boxes scores thr k :
  In k (nms boxes scores thr) -> k < length scores.
Proof.
  rewrite nms_unfold. intros H. apply nms_fold_members in H.
  destruct H as [[] | H].
  apply (Permutation_in _ (argsort_desc_perm scores)) in H.
  apply in_seq in H. lia.
Qed.

Lemma nms_pairs boxes scores thr x y :
  In x (nms boxes scores thr) -> In y (nms boxes scores thr) -> x <> y ->
  (iou (nth x boxes zero_box) (nth y boxes zero_box) <= thr)%Q.
Proof.
  rewrite nms_unfold. apply nms_fold_pairs. intros ? ? [].
Qed.


(** *** The groups of [batched_nms] *)

Lemma mark_fold_nth (rm : list bool) ks i :
  nth_error (fold_left (fun rm k => index_put rm k true) ks rm) i
  = if existsb (Nat.eqb i) ks && (i <? length rm)
    then Some true else nth_error rm i.
Proof.
  revert rm. induction ks as [|k ks IH]; intros rm; [reflexivity |].
  cbn [fold_left]. rewrite IH, index_put_length, nth_error_index_put.
  cbn [existsb]. destruct (Nat.eqb i k) eqn:Eik; simpl.
  - apply Nat.eqb_eq in Eik. subst i.
    destruct (existsb (Nat.eqb k) ks), (k <? length rm); reflexivity.
  - reflexivity.
Qed.

Lemma existsb_eqb_iff i (l : list nat) :
  existsb (Nat.eqb i) l = true <-> In i l.
Proof.
  rewrite existsb_exists. split.
  - intros (k & Hk & E). apply Nat.eqb_eq in E. now subst.
  - intros H. exists i. split; [exact H | apply Nat.eqb_refl].
Qed.

(** The marks after the loop over the groups. *)
Lemma result_mask_marks boxes scores idxs thr groups : forall rm0 i,
  nth_error
    (fold_left
       (fun result_mask g =>
          fold_left (fun rm k => index_put rm k true)
                    (group_marks boxes scores idxs thr g) result_mask)
       groups rm0) i = Some true
  <-> nth_error rm0 i = Some true
      \/ (i < length rm0
          /\ exists g, In g groups
                       /\ In i (group_marks boxes scores idxs thr g)).
Proof.
  induction groups as [|g groups IH]; intros rm0 i.
  - cbn [fold_left]. split; [now left | intros [H | (_ & g & [] & _)]; exact H].
  - cbn [fold_left]. rewrite IH, mark_fold_nth, index_put_fold_length.
    destruct (existsb (Nat.eqb i) (group_marks boxes scores idxs thr g))
      eqn:E.
    + apply existsb_eqb_iff in E.
      destruct (Nat.ltb_spec i (length rm0)) as [Hlt | Hge]; cbn [andb].
      * split; [| left; reflexivity].
        intros _. right. split; [exact Hlt |]. exists g. split; [now left | exact E].
      * split.
        -- intros [H | (Hlt & _)]; [now left | lia].
        -- intros [H | (Hlt & _)]; [now left | lia].
    + cbn [andb]. split.
      * intros [H | (Hlt & g' & Hg' & Hi)]; [now left |].
        right. split; [exact Hlt |]. exists g'. split; [now right | exact Hi].
      * intros [H | (Hlt & g' & [<- | Hg'] & Hi)]; [now left | |].
        -- apply existsb_eqb_iff in Hi. congruence.
        -- right. split; [exact Hlt |]. now exists g'.
Qed.

Lemma In_select_perm (kept perm : list nat) i :
  Permutation perm (seq 0 (length kept)) ->
  In i (index_select O kept perm) <-> In i kept.
Proof.
  intros Hp. unfold index_select. rewrite in_map_iff. split.
  - intros (p & <- & Hin). apply nth_In.
    apply (Permutation_in _ Hp) in Hin. apply in_seq in Hin. lia.
  - intros Hi. destruct (In_nth _ _ O Hi) as (p & Hp1 & Hp2).
    exists p. split; [exact Hp2 |].
    apply (Permutation_in _ (Permutation_sym Hp)). apply in_seq. lia.
Qed.

(** An index is returned by the loop exactly when some group marks
    it. *)
Lemma nms_per_group_members boxes scores idxs thr i :
  In i (nms_per_group boxes scores idxs thr)
  <-> i < length scores
      /\ exists g, In g idxs /\ In i (group_marks boxes scores idxs thr g).
Proof.
  unfold nms_per_group. cbv zeta.
  rewrite In_select_perm
    by (rewrite argsort_desc_perm; unfold index_select;
        now rewrite length_map).
  rewrite in_nonzero.
  change (fold_left _ (nodup Nat.eq_dec idxs) (repeat false (length scores)))
    with (fold_left
            (fun result_mask g =>
               fold_left (fun rm k => index_put rm k true)
                         (group_marks boxes scores idxs thr g) result_mask)
            (nodup Nat.eq_dec idxs) (repeat false (length scores))).
  rewrite result_mask_marks, repeat_length. split.
  - intros [H | (Hlt & g & Hg & Hi)].
    + apply nth_error_In, repeat_spec in H. discriminate.
    + split; [exact Hlt |]. exists g. split; [| exact Hi].
      now apply nodup_In in Hg.
  - intros (Hlt & g & Hg & Hi). right. split; [exact Hlt |].
    exists g. split; [now apply nodup_In | exact Hi].
Qed.

Lemma nth_index_select {A : Type} (d : A) (t : list A) (mask : list nat) k :
  k < length mask ->
  nth k (index_select d t mask) d = nth (nth k mask O) t d.
Proof.
  intros Hk. unfold index_select.
  rewrite (nth_indep _ d (nth O t d)) by (now rewrite length_map).
  apply (map_nth (fun i => nth i t d)).
Qed.

(** What a mark of group [g] is: a member of the group, at a position
    that [nms] kept among the boxes of the group. *)
Lemma group_marks_inv boxes scores idxs thr g i :
  In i (group_marks boxes scores idxs thr g) ->
  let mask := nonzero (map (Nat.eqb g) idxs) in
  nth_error idxs i = Some g
  /\ exists k, k < length mask /\ nth k mask O = i
               /\ In k (nms (index_select zero_box boxes mask)
                            (index_select 0%Q scores mask) thr).
Proof.
  unfold group_marks. cbv zeta. set (mask := nonzero (map (Nat.eqb g) idxs)).
  intros Hi. unfold index_select at 1 in Hi.
  apply in_map_iff in Hi. destruct Hi as (k & Hk & Hin).
  assert (Hlt : k < length mask).
  { apply nms_range in Hin. unfold index_select in Hin.
    now rewrite length_map in Hin. }
  split.
  - assert (Him : In i mask) by (rewrite <- Hk; now apply nth_In).
    apply in_nonzero in Him. rewrite nth_error_map in Him.
    destruct (nth_error idxs i) as [g' |]; [| discriminate].
    injection Him as Him. apply Nat.eqb_eq in Him. now subst.
  - exists k. repeat split; assumption.
Qed.

Lemma batched_nms_loop boxes scores idxs thr :
  batched_nms boxes scores idxs thr = nms_per_group boxes scores idxs thr.
Proof.
  unfold batched_nms, box_ops_batched_nms.
  now destruct (Z.of_nat (length boxes) <? 40000)%Z.
Qed.

(** Two marks of one group are two boxes that [nms] kept together. *)
Lemma same_group_pairs boxes scores idxs thr i j :
  In i (nms_per_group boxes scores idxs thr) ->
  In j (nms_per_group boxes scores idxs thr) ->
  i <> j ->
  nth_error idxs i = nth_error idxs j ->
  (iou (nth i boxes zero_box) (nth j boxes zero_box) <= thr)%Q.
Proof.
  intros Hi Hj Hij Hg.
  apply nms_per_group_members in Hi, Hj.
  destruct Hi as (_ & g & _ & Hi), Hj as (_ & g' & _ & Hj).
  apply group_marks_inv in Hi, Hj. cbv zeta in Hi, Hj.
  destruct Hi as (Hgi & k & Hk & Eki & Hkin).
  destruct Hj as (Hgj & k' & Hk' & Ekj & Hkin').
  assert (g' = g) by congruence. subst g'.
  set (mask := nonzero (map (Nat.eqb g) idxs)) in *.
  assert (Hkk : k <> k') by (intros ->; congruence).
  pose proof (nms_pairs _ _ _ k k' Hkin Hkin' Hkk) as H.
  rewrite !nth_index_select in H by assumption.
  now rewrite Eki, Ekj in H.
Qed.

(** X28.  Of two different boxes that [batched_nms] returns and that
    belong to the same group, neither overlaps the other by more than the
    threshold: their IoU is at most [iou_threshold], in either order.
    Boxes of different groups are never compared. *)
Theorem batched_nms_no_overlap (boxes : list Box) (scores : list Q)
        (idxs : list nat) (iou_threshold : Q) (i j : nat) :
  In i (batched_nms boxes scores idxs iou_threshold) ->
  In j (batched_nms boxes scores idxs iou_threshold) ->
  i <> j ->
  nth_error idxs i = nth_error idxs j ->
  (iou (nth i boxes zero_box) (nth j boxes zero_box) <= iou_threshold)%Q
  /\ (iou (nth j boxes zero_box) (nth i boxes zero_box) <= iou_threshold)%Q.
Proof.
  rewrite batched_nms_loop. intros Hi Hj Hij Hg. split.
  - now apply (same_group_pairs boxes scores idxs).
  - apply (same_group_pairs boxes scores idxs); auto.
Qed.

Lemma batched_nms_no_overlap_witness :
  (iou (nth 0 [mkBox 0 0 10 10; mkBox 1 1 11 11; mkBox 0 0 3 3] zero_box)
       (nth 2 [mkBox 0 0 10 10; mkBox 1 1 11 11; mkBox 0 0 3 3] zero_box)
   <= 1 # 2)%Q.
Proof.
  refine (proj1 (batched_nms_no_overlap
                   [mkBox 0 0 10 10; mkBox 1 1 11 11; mkBox 0 0 3 3]
                   [9 # 10; 8 # 10; 7 # 10]%Q [0; 0; 0] (1 # 2) 0 2
                   _ _ _ _)).
  - vm_compute. tauto.
  - vm_compute. tauto.
  - discriminate.
  - reflexivity.
Defined.



End NmsGuaranteeFacts.

(** ** Final detections of one image *)

Module DetectionFacts.
Import Tensor TensorFacts BoxOps BoxOpsFacts Inference InferenceFacts.
Import NmsFacts NmsGuaranteeFacts.
Local Open Scope nat_scope.







End DetectionFacts.
